(** * A first-fit free-list allocator over a growable flat memory

    Shallow embedding of [memory-allocation.c] (built for a 32-bit target:
    pointers, [unsigned int] and [long] are 32 bits wide, so
    [sizeof(header_t) = 8]) and the proofs of the properties its
    specification states.

    Memory is a finite map from the addresses divisible by 4 to the
    little-endian 32-bit words that start there; a block header at address
    [p] keeps its [next] link in the word at [p] and its [size] in the word
    at [p + 4].  A 4-byte access at an address divisible by 4 reads or
    writes one word; at any other address it reads or writes the bytes of
    the two words it straddles.  The allocator only reads and writes header
    fields, and the invariant below keeps headers 8-byte aligned, so each
    of its accesses is to one whole word.  Every load and store is checked
    against the current length of the backing store: an access outside it
    gives [Trap].  Loops and the recursive retry of [allocateMemory] run on
    fuel; [OutOfFuel] is kept apart from [Trap]. *)

From Stdlib Require Import ZArith List Lia Bool.
From stdpp Require Import base gmap list.

Local Open Scope Z_scope.

(** ** Machine arithmetic and constants *)

Definition NULL : Z := 0.
Definition BLKSIZ : Z := 65536.

(** [sizeof(header_t)]: a 4-byte pointer and a 4-byte [unsigned int]. *)
Definition header_size : Z := 8.

Definition initial_offset : Z := 8.

(** Unsigned 32-bit wrap-around. *)
Definition wrap (x : Z) : Z := x mod 2 ^ 32.

(** ** The growth provider *)

(** Modelled from the spec: the two external functions [memoryBytesLength]
    and [grow] are declared in the source but implemented by the host.  The
    store has a current length and a capacity it cannot exceed; [grow]
    extends the store by whole pages of [BLKSIZ] bytes and returns the new
    total length, or returns 0 and changes nothing when the capacity would
    be exceeded.  [calls] records every [grow] request with its answer. *)
Record provider : Type := mkProvider {
  bytes : Z;
  capacity : Z;
  calls : list (Z * Z)
}.

Definition memoryBytesLength (p : provider) : Z := wrap (bytes p).

Definition grow (blocks : Z) (p : provider) : Z * provider :=
  let len' := bytes p + blocks * BLKSIZ in
  if len' <=? capacity p
  then (wrap len',
        {| bytes := len'; capacity := capacity p;
           calls := calls p ++ [(blocks, wrap len')] |})
  else (0,
        {| bytes := bytes p; capacity := capacity p;
           calls := calls p ++ [(blocks, 0)] |}).

(** ** Allocator state *)

Record state : Type := mkState {
  mem : gmap Z Z;
  free_list : Z;
  is_initialised : Z;
  host : provider
}.

Definition with_mem (m : gmap Z Z) (s : state) : state :=
  {| mem := m; free_list := free_list s;
     is_initialised := is_initialised s; host := host s |}.

Definition with_free_list (p : Z) (s : state) : state :=
  {| mem := mem s; free_list := p;
     is_initialised := is_initialised s; host := host s |}.

Definition with_is_initialised (v : Z) (s : state) : state :=
  {| mem := mem s; free_list := free_list s;
     is_initialised := v; host := host s |}.

Definition with_host (h : provider) (s : state) : state :=
  {| mem := mem s; free_list := free_list s;
     is_initialised := is_initialised s; host := h |}.

(** The state the program starts in: zeroed memory, the static variables at
    their initialisers. *)
Definition boot (len cap : Z) : state :=
  {| mem := ∅; free_list := NULL; is_initialised := 0;
     host := {| bytes := len; capacity := cap; calls := [] |} |}.

(** ** Computations *)

(** A computation finishes with a value and a state, traps on an access
    outside the store, or runs out of fuel. *)
Inductive result (A : Type) : Type :=
| Done (a : A)
| Trap
| OutOfFuel.
Arguments Done {A} a.
Arguments Trap {A}.
Arguments OutOfFuel {A}.

Definition M (A : Type) : Type := state -> result (A * state).

Definition ret {A} (a : A) : M A := fun s => Done (a, s).

Definition bind {A B} (c : M A) (k : A -> M B) : M B :=
  fun s => match c s with
           | Done (a, s') => k a s'
           | Trap => Trap
           | OutOfFuel => OutOfFuel
           end.

Notation "'do' x <- c ; k" := (bind c (fun x => k))
  (at level 10, x pattern, c at level 100, k at level 200).

(** The store is kept word by word: [mem] maps each address divisible
    by 4 to the little-endian 32-bit word of the four bytes that start
    there.  [rd m a] is the word kept at [a]; memory never written reads as
    zero. *)
Definition rd (m : gmap Z Z) (a : Z) : Z := default 0 (m !! a).

(** A 4-byte access at [a] lies inside the store. *)
Definition in_bounds (a : Z) (s : state) : bool :=
  (0 <=? a) && (a + 4 <=? bytes (host s)).

(** The 32-bit value of the four bytes at [a].  At an address divisible
    by 4 it is the word kept there; at [a = 4 q + o] with [0 < o < 4] it is
    made of the upper [4 - o] bytes of the word at [4 q] and the lower [o]
    bytes of the word at [4 q + 4]. *)
Definition peek (m : gmap Z Z) (a : Z) : Z :=
  let o := a mod 4 in
  if o =? 0 then rd m a
  else rd m (a - o) / 2 ^ (8 * o)
       + (rd m (a - o + 4) mod 2 ^ (8 * o)) * 2 ^ (32 - 8 * o).

(** Writing the four bytes of [v] at [a]: one word at an address divisible
    by 4, otherwise the upper bytes of one word and the lower bytes of the
    next. *)
Definition poke (m : gmap Z Z) (a v : Z) : gmap Z Z :=
  let o := a mod 4 in
  if o =? 0 then <[a := v]> m
  else <[a - o + 4 := v / 2 ^ (32 - 8 * o)
                      + rd m (a - o + 4) / 2 ^ (8 * o) * 2 ^ (8 * o)]>
       (<[a - o := rd m (a - o) mod 2 ^ (8 * o)
                   + (v mod 2 ^ (32 - 8 * o)) * 2 ^ (8 * o)]> m).

Definition load (a : Z) : M Z :=
  fun s => if in_bounds a s then Done (peek (mem s) a, s) else Trap.

Definition store (a v : Z) : M unit :=
  fun s => if in_bounds a s then Done (tt, with_mem (poke (mem s) a v) s) else Trap.

(** Field accessors of [header_t]: [value.next] at offset 0, [value.size]
    at offset 4. *)
Definition get_next (p : Z) : M Z := load p.
Definition get_size (p : Z) : M Z := load (p + 4).
Definition set_next (p v : Z) : M unit := store p v.
Definition set_size (p v : Z) : M unit := store (p + 4) v.

Definition get_free_list : M Z := fun s => Done (free_list s, s).
Definition set_free_list (p : Z) : M unit := fun s => Done (tt, with_free_list p s).

Definition call_memoryBytesLength : M Z :=
  fun s => Done (memoryBytesLength (host s), s).

Definition call_grow (blocks : Z) : M Z :=
  fun s => let '(r, h) := grow blocks (host s) in Done (r, with_host h s).

(** ** The allocator *)

(** [ensureInitialised], lines 51-67. *)
Definition ensureInitialised : M unit :=
  fun s =>
    if is_initialised s =? 0 then
      (do bytes_length <- call_memoryBytesLength;
       let unallocated := initial_offset in
       do _ <- set_size unallocated (wrap (bytes_length - (header_size + initial_offset)));
       do _ <- set_next unallocated NULL;
       set_free_list unallocated) (with_is_initialised 1 s)
    else Done (tt, s).

(** The insertion scan of [freeMemory], lines 161-177: the loop leaves
    with the final [(current, previous)]; pointers compare as unsigned
    addresses. *)
Fixpoint free_loop (fuel : nat) (unallocated current previous : Z) : M (Z * Z) :=
  match fuel with
  | O => fun _ => OutOfFuel
  | S fuel' =>
      if current =? NULL then ret (current, previous)
      else if (previous <? unallocated) && (unallocated <? current)
      then ret (current, previous)
      else if (current =? previous) && (unallocated <? current)
      then ret (current, NULL)
      else
        do next <- get_next current;
        free_loop fuel' unallocated next current
  end.

(** [freeMemory], lines 179-194, "attach the unallocated block to the
    current block": merge with [current] when the freed block ends where
    [current] starts, chain to it otherwise. *)
Definition free_attach_current (unallocated current : Z) : M unit :=
  if current =? NULL then ret tt
  else
    do usz <- get_size unallocated;
    if current =? wrap (unallocated + header_size + usz)
    then
      do csz <- get_size current;
      do _ <- set_size unallocated (wrap (usz + wrap (csz + header_size)));
      do cnext <- get_next current;
      set_next unallocated cnext
    else set_next unallocated current.

(** [freeMemory], lines 196-215: the freed block becomes the head, is
    merged into [previous] when [previous] ends where it starts, or is
    chained behind [previous]. *)
Definition free_attach_previous (unallocated previous : Z) : M unit :=
  if previous =? NULL then set_free_list unallocated
  else
    do psz <- get_size previous;
    if unallocated =? wrap (previous + header_size + psz)
    then
      do usz <- get_size unallocated;
      do _ <- set_size previous (wrap (psz + wrap (usz + header_size)));
      do unext <- get_next unallocated;
      set_next previous unext
    else set_next previous unallocated.

(** [freeMemory], lines 144-216. *)
Definition freeMemory (fuel : nat) (ptr : Z) : M unit :=
  do _ <- ensureInitialised;
  if ptr =? NULL then ret tt
  else
    let unallocated := wrap (ptr - header_size) in
    do head <- get_free_list;
    if head =? NULL then set_free_list unallocated
    else
      do cp <- free_loop fuel unallocated head head;
      let '(current, previous) := cp in
      do _ <- free_attach_current unallocated current;
      free_attach_previous unallocated previous.

(** The number of pages [getMoreMemory] asks for: the header is added to
    the request and the sum is rounded up to whole pages. *)
Definition blocks_for (bytes_required : Z) : Z :=
  let bytes_required := wrap (bytes_required + header_size) in
  let blocks := bytes_required / BLKSIZ in
  if wrap (blocks * BLKSIZ) <? bytes_required then wrap (blocks + 1) else blocks.

(** [getMoreMemory], lines 25-49.  The new block is handed to
    [freeMemory], which is where the fuel goes. *)
Definition getMoreMemory (fuel : nat) (bytes_required : Z) : M Z :=
  let blocks := blocks_for bytes_required in
  do start_of_new_memory <- call_memoryBytesLength;
  do end_of_new_memory <- call_grow blocks;
  if end_of_new_memory =? 0 then ret NULL
  else
    let block_to_insert := start_of_new_memory in
    do _ <- set_size block_to_insert
              (wrap (end_of_new_memory - start_of_new_memory - header_size));
    do _ <- set_next block_to_insert NULL;
    do _ <- freeMemory fuel (wrap (block_to_insert + header_size));
    get_free_list.

(** The first-fit scan of [allocateMemory], lines 84-135: [Some p] when
    the loop returns the pointer [p], [None] when it runs off the end of the
    list. *)
Fixpoint alloc_loop (fuel : nat) (bytes_required bytes_required_plus_header : Z)
    (current previous : Z) : M (option Z) :=
  match fuel with
  | O => fun _ => OutOfFuel
  | S fuel' =>
      if current =? NULL then ret None
      else
        do csz <- get_size current;
        if csz =? bytes_required then
          do head <- get_free_list;
          if current =? head then
            do _ <- set_free_list NULL;
            do _ <- set_next current NULL;
            ret (Some (wrap (current + header_size)))
          else
            do cnext <- get_next current;
            do _ <- set_next previous cnext;
            do _ <- set_next current NULL;
            ret (Some (wrap (current + header_size)))
        else if bytes_required <? csz then
          let unallocated := wrap (current + bytes_required_plus_header) in
          do _ <- set_size unallocated (wrap (csz - bytes_required_plus_header));
          do cnext <- get_next current;
          do _ <- set_next unallocated cnext;
          do head <- get_free_list;
          do _ <- (if current =? head then set_free_list unallocated
                   else set_next previous unallocated);
          do _ <- set_size current bytes_required;
          do _ <- set_next current NULL;
          ret (Some (wrap (current + header_size)))
        else
          do cnext <- get_next current;
          alloc_loop fuel' bytes_required bytes_required_plus_header cnext current
  end.

(** [bytes_required += (8 - bytes_required % 8) % 8] *)
Definition padded (bytes_required : Z) : Z :=
  wrap (bytes_required + (8 - bytes_required mod 8) mod 8).

(** [allocateMemory], lines 69-142.  Each level of the recursive retry
    takes one unit of fuel; the loops inside a level get the fuel of that
    level. *)
Fixpoint allocateMemory (fuel : nat) (bytes_required : Z) : M Z :=
  match fuel with
  | O => fun _ => OutOfFuel
  | S fuel' =>
      do _ <- ensureInitialised;
      let bytes_required := padded bytes_required in
      let bytes_required_plus_header := wrap (bytes_required + header_size) in
      do head <- get_free_list;
      do grown <- (if head =? NULL then
                     do more <- getMoreMemory fuel bytes_required_plus_header;
                     do _ <- set_free_list more;
                     ret (negb (more =? NULL))
                   else ret true);
      if negb grown then ret NULL
      else
        do head <- get_free_list;
        do found <- alloc_loop fuel bytes_required bytes_required_plus_header head head;
        match found with
        | Some p => ret p
        | None =>
            do more <- getMoreMemory fuel bytes_required;
            if more =? NULL then ret NULL
            else allocateMemory fuel' bytes_required_plus_header
        end
  end.

(** The growth attempts of a call of [allocateMemory], in the order they
    are made: each call of [getMoreMemory] on lines 79 and 138 with the
    argument it is given and the state it is entered in.  The scan of lines
    84-135 and the retry of line 141 are followed as [allocateMemory] does;
    the list ends with the first attempt that comes back null, and where
    the call does not get as far as a further attempt. *)
Definition scan_attempts (retry : Z → state → list (Z * state)) (fuel : nat)
    (bytes_required bytes_required_plus_header : Z) (s : state) : list (Z * state) :=
  match alloc_loop fuel bytes_required bytes_required_plus_header
          (free_list s) (free_list s) s with
  | Done (None, s1) =>
      (bytes_required, s1) ::
      match getMoreMemory fuel bytes_required s1 with
      | Done (more, s2) =>
          if more =? NULL then [] else retry bytes_required_plus_header s2
      | _ => []
      end
  | _ => []
  end.

Fixpoint growth_attempts (fuel : nat) (bytes_required : Z) (s : state)
    : list (Z * state) :=
  match fuel with
  | O => []
  | S fuel' =>
      match ensureInitialised s with
      | Done (_, s1) =>
          let bytes_required := padded bytes_required in
          let bytes_required_plus_header := wrap (bytes_required + header_size) in
          if free_list s1 =? NULL then
            (bytes_required_plus_header, s1) ::
            match getMoreMemory fuel bytes_required_plus_header s1 with
            | Done (more, s2) =>
                if more =? NULL then []
                else scan_attempts (growth_attempts fuel') fuel bytes_required
                       bytes_required_plus_header (with_free_list more s2)
            | _ => []
            end
          else scan_attempts (growth_attempts fuel') fuel bytes_required
                 bytes_required_plus_header s1
      | _ => []
      end
  end.

(** [reportFreeMemory], lines 218-234; the [double] it returns holds any
    32-bit total exactly, so the result is kept as an integer. *)
Fixpoint report_loop (fuel : nat) (current total : Z) : M Z :=
  match fuel with
  | O => fun _ => OutOfFuel
  | S fuel' =>
      if current =? NULL then ret total
      else
        do csz <- get_size current;
        do cnext <- get_next current;
        report_loop fuel' cnext (wrap (total + csz))
  end.

Definition reportFreeMemory (fuel : nat) : M Z :=
  do _ <- ensureInitialised;
  do head <- get_free_list;
  if head =? NULL then ret 0
  else report_loop fuel head 0.

(** ** A caller: [addArrays] (example5.c) *)

(** The loop of [addArrays], lines 7-9, with [count] iterations left:
    [result[i] = array1[i] + array2[i]] on 4-byte [int]s; element addresses
    and the sum are computed in 32 bits. *)
Fixpoint add_loop (count : nat) (i result array1 array2 : Z) : M unit :=
  match count with
  | O => ret tt
  | S count' =>
      do x <- load (wrap (array1 + 4 * i));
      do y <- load (wrap (array2 + 4 * i));
      do _ <- store (wrap (result + 4 * i)) (wrap (x + y));
      add_loop count' (i + 1) result array1 array2
  end.

(** [addArrays], lines 3-12.  The request is [length * sizeof(int)] in
    unsigned 32-bit arithmetic; the loop runs [length] times when [length]
    is positive and not at all otherwise; the result of [allocateMemory] is
    used without a test. *)
Definition addArrays (fuel : nat) (array1 array2 length : Z) : M Z :=
  do result <- allocateMemory fuel (wrap (length * 4));
  do _ <- add_loop (Z.to_nat length) 0 result array1 array2;
  ret result.

(** The state a computation ends in (the start state when it does not
    finish) and the value it returns. *)
Definition after {A} (c : M A) (s : state) : state :=
  match c s with
  | Done (_, s') => s'
  | _ => s
  end.

Definition value {A} (c : M A) (s : state) : option A :=
  match c s with
  | Done (a, _) => Some a
  | _ => None
  end.

(** ** Specification vocabulary *)

(** A block is the address of its header and the size of its payload. *)
Definition block : Type := (Z * Z)%type.

(** [seg m h t fl]: following [next] links in [m] from [h] visits exactly
    the headers of [fl], in order, and then arrives at [t]. *)
Fixpoint seg (m : gmap Z Z) (h t : Z) (fl : list block) : Prop :=
  match fl with
  | [] => h = t
  | b :: fl' => h = b.1 ∧ b.1 ≠ NULL ∧ rd m (b.1 + 4) = b.2 ∧ seg m (rd m b.1) t fl'
  end.

(** The free list of a state, as the list of its blocks. *)
Definition chain (m : gmap Z Z) (h : Z) (fl : list block) : Prop := seg m h NULL fl.

(** Addresses strictly increase from head to tail. *)
Definition increasing (fl : list block) : Prop :=
  ∀ i j b c, (i < j)%nat → fl !! i = Some b → fl !! j = Some c → b.1 < c.1.

(** The free list of [s] is a finite chain in ascending address order. *)
Definition free_list_sorted (s : state) : Prop :=
  ∃ fl, chain (mem s) (free_list s) fl ∧ increasing fl.

(** The sum of the payload sizes: what [reportFreeMemory] adds up. *)
Fixpoint total_size (fl : list block) : Z :=
  match fl with
  | [] => 0
  | b :: fl' => b.2 + total_size fl'
  end.

(** A block lies in the store above the reserved region, header and
    payload 8-byte aligned. *)
Definition block_ok (len : Z) (b : block) : Prop :=
  8 <= b.1 ∧ b.1 mod 8 = 0 ∧ 0 <= b.2 ∧ b.2 mod 8 = 0 ∧ b.1 + 8 + b.2 <= len.

(** Every block of the list starts strictly above [lo], and strictly above
    the end of the block before it: ascending, and no two blocks touch. *)
Fixpoint gapped (lo : Z) (fl : list block) : Prop :=
  match fl with
  | [] => True
  | b :: fl' => lo < b.1 ∧ 0 <= b.2 ∧ gapped (b.1 + 8 + b.2) fl'
  end.

(** The footprints (header and payload) of two blocks do not overlap. *)
Definition disjoint (b c : block) : Prop :=
  b.1 + 8 + b.2 <= c.1 ∨ c.1 + 8 + c.2 <= b.1.

(** The header of a block handed to the client: its size and a cleared link. *)
Definition allocated (m : gmap Z Z) (b : block) : Prop :=
  rd m b.1 = NULL ∧ rd m (b.1 + 4) = b.2.

Fixpoint pairwise_disjoint (l : list block) : Prop :=
  match l with
  | [] => True
  | b :: l' => Forall (disjoint b) l' ∧ pairwise_disjoint l'
  end.

(** The store holds at least the reserved region and one header, in whole
    multiples of 8 bytes, and all its addresses fit 32 bits. *)
Definition host_ok (h : provider) : Prop :=
  16 <= bytes h ∧ bytes h mod 8 = 0 ∧ bytes h <= capacity h ∧ capacity h < 2 ^ 32.

(** The allocator invariant: [fl] is the free list and [live] the blocks
    currently held by the client. *)
Record Inv (s : state) (fl live : list block) : Prop := mkInv {
  inv_host : host_ok (host s);
  inv_chain : chain (mem s) (free_list s) fl;
  inv_free_ok : Forall (block_ok (bytes (host s))) fl;
  inv_gapped : gapped 0 fl;
  inv_live_ok : Forall (block_ok (bytes (host s))) live;
  inv_live_hdr : Forall (allocated (mem s)) live;
  inv_live_free : Forall (λ b, Forall (disjoint b) fl) live;
  inv_live_live : pairwise_disjoint live;
  inv_fresh : is_initialised s = 0 → fl = [] ∧ live = []
}.

(** [b] followed by [post], merged with the first block of [post] when
    the two touch. *)
Definition merge_next (b : block) (post : list block) : list block :=
  match post with
  | c :: post' =>
      if c.1 =? b.1 + 8 + b.2 then (b.1, b.2 + (c.2 + 8)) :: post' else b :: post
  | [] => [b]
  end.

(** Address-ordered insertion with coalescing on both sides. *)
Fixpoint insert_block (b : block) (fl : list block) : list block :=
  match fl with
  | [] => [b]
  | c :: rest =>
      if b.1 <? c.1 then merge_next b fl else merge_next c (insert_block b rest)
  end.

(** One client-visible operation on a state and the blocks the client
    holds.  A pointer passed to [freeMemory] is null or one of the held
    blocks; growth is entered, as in the program, after initialisation. *)
Inductive step : state * list block → state * list block → Prop :=
| step_allocate fuel n s live p s' :
    0 <= n < 2 ^ 32 →
    allocateMemory fuel n s = Done (p, s') →
    step (s, live)
         (s', if p =? NULL then live
              else (p - header_size, rd (mem s') (p - header_size + 4)) :: live)
| step_free fuel b l1 l2 s s' :
    freeMemory fuel (b.1 + header_size) s = Done (tt, s') →
    step (s, l1 ++ b :: l2) (s', l1 ++ l2)
| step_free_null fuel s live s' :
    freeMemory fuel NULL s = Done (tt, s') →
    step (s, live) (s', live)
| step_report fuel s live t s' :
    reportFreeMemory fuel s = Done (t, s') →
    step (s, live) (s', live)
| step_grow fuel n s live p s' :
    is_initialised s ≠ 0 →
    0 <= n < 2 ^ 32 →
    getMoreMemory fuel n s = Done (p, s') →
    step (s, live) (s', live).

(** The states the program reaches from a zeroed store of [len] bytes
    that may grow to [cap] bytes, with the blocks the client then holds. *)
Inductive reachable (len cap : Z) : state → list block → Prop :=
| reach_boot : reachable len cap (boot len cap) []
| reach_step s live s' live' :
    reachable len cap s live →
    step (s, live) (s', live') →
    reachable len cap s' live'.

(** The end of the last block of a list, [lo] for the empty list. *)
Definition last_end (lo : Z) (l : list block) : Z :=
  foldl (λ _ b, b.1 + 8 + b.2) lo l.

(** The address of the first block of a list, null for the empty list:
    what the link into the list holds. *)
Definition head_addr (l : list block) : Z :=
  match l with
  | [] => NULL
  | b :: _ => b.1
  end.

(** The address of the last block of a list, [p] for the empty list. *)
Definition last_addr (p : Z) (l : list block) : Z :=
  foldl (λ _ b, b.1) p l.

(** [m'] differs from [m] at most in the two header words of [u]. *)
Definition same_but (m m' : gmap Z Z) (u : Z) : Prop :=
  ∀ x, x ≠ u → x ≠ u + 4 → rd m' x = rd m x.

(** As [gapped], but the first block may start exactly at [lo]. *)
Definition gapped_lax (lo : Z) (fl : list block) : Prop :=
  match fl with
  | [] => True
  | b :: fl' => lo <= b.1 ∧ 0 <= b.2 ∧ gapped (b.1 + 8 + b.2) fl'
  end.

(** The free list the first-fit scan leaves when it stops at block [b],
    found after the blocks [pre] and before the blocks [post], for a
    request of [r] bytes: an exact match at the head empties the list, an
    exact match further in is unlinked, a larger block leaves its remainder
    in its place. *)
Definition taken (r : Z) (pre : list block) (b : block) (post : list block) : list block :=
  if b.2 =? r then
    match pre with
    | [] => []
    | _ => pre ++ post
    end
  else pre ++ (b.1 + (r + 8), b.2 - (r + 8)) :: post.

(** [k] runs of the initialisation guard in a row. *)
Fixpoint repeat_guard (k : nat) : M unit :=
  match k with
  | O => ret tt
  | S k' => do _ <- ensureInitialised; repeat_guard k'
  end.

(** *** Concrete states *)

(** One page that cannot grow, and one page that can grow to ten. *)
Definition fixed_store : state := boot 65536 65536.
Definition growable_store : state := boot 65536 (10 * 65536).

(** The free list [8 (size 8) -> 40 (size 65488)]: two 8-byte blocks are
    allocated from a fresh store and the first is freed again. *)
Definition head_with_successor : state :=
  after (do p1 <- allocateMemory 2 8;
         do _ <- allocateMemory 2 8;
         freeMemory 2 p1) fixed_store.

(** The free list [8 (size 8)] with the rest of the page allocated. *)
Definition small_block_only : state :=
  after (do p1 <- allocateMemory 2 8;
         do _ <- allocateMemory 2 65504;
         freeMemory 2 p1) growable_store.

(** As [small_block_only], on a store that can grow by one page only. *)
Definition one_more_page : state :=
  after (do p1 <- allocateMemory 2 8;
         do _ <- allocateMemory 2 65504;
         freeMemory 2 p1) (boot 65536 (2 * 65536)).

(** A fresh store after the guard has run: the free list [8 (size 65520)]. *)
Definition initialised_store : state := after ensureInitialised fixed_store.

(** The free list [65528 (size 0)]: all but the last header is allocated. *)
Definition empty_block_only : state :=
  after (allocateMemory 2 65512) fixed_store.

(** Two held arrays of two [int]s each, [1; 2] at 16 and [10; 20] at 32;
    the free list is [40 (size 65488)]. *)
Definition two_arrays : state :=
  after (do p1 <- allocateMemory 2 8;
         do p2 <- allocateMemory 2 8;
         do _ <- store p1 1;
         do _ <- store (p1 + 4) 2;
         do _ <- store p2 10;
         store (p2 + 4) 20) fixed_store.

(** [pre] followed by [L], the last block of [pre] merged with the first
    of [L] when the two touch. *)
Definition join (pre L : list block) : list block :=
  match rev pre with
  | [] => L
  | p :: rpre => rev rpre ++ merge_next p L
  end.

(** The 4-byte word at [x] lies inside block [b], header included. *)
Definition word_in (x : Z) (b : block) : Prop :=
  b.1 <= x ∧ x + 4 <= b.1 + header_size + b.2.

(** The 4-byte word at [x] lies outside block [b]. *)
Definition word_off (x : Z) (b : block) : Prop :=
  x + 4 <= b.1 ∨ b.1 + header_size + b.2 <= x.

(** A computation that never clears the initialisation flag. *)
Definition keeps_flag {A} (c : M A) : Prop :=
  ∀ s a s', c s = Done (a, s') → is_initialised s ≠ 0 → is_initialised s' ≠ 0.

(** ** Arithmetic *)

Ltac consts := unfold NULL, header_size, initial_offset, BLKSIZ in *.

(** Linear arithmetic with division and remainder by constants. *)
Ltac zlia := Z.to_euclidean_division_equations; lia.

Lemma wrap_small x : 0 <= x < 2 ^ 32 → wrap x = x.
Proof. intros H. unfold wrap. apply Z.mod_small. exact H. Qed.

Lemma wrap_range x : 0 <= wrap x < 2 ^ 32.
Proof. unfold wrap. apply Z.mod_pos_bound. lia. Qed.

Lemma padded_range n : 0 <= padded n < 2 ^ 32.
Proof. apply wrap_range. Qed.

Lemma padded_mod8 n : padded n mod 8 = 0.
Proof. unfold padded, wrap. zlia. Qed.

Lemma padded_fixed n : 0 <= n < 2 ^ 32 → n mod 8 = 0 → padded n = n.
Proof.
  intros Hn E. unfold padded. rewrite E.
  replace ((8 - 0) mod 8) with 0 by reflexivity.
  rewrite Z.add_0_r. apply wrap_small. exact Hn.
Qed.

Lemma padded_ge n : 0 <= n → n <= 2 ^ 32 - 8 → n <= padded n < n + 8.
Proof. intros. unfold padded, wrap. zlia. Qed.

Lemma padded_zero : padded 0 = 0.
Proof. reflexivity. Qed.

(** ** Running computations *)

Lemma rd_insert_eq m a v : rd (<[a := v]> m) a = v.
Proof. unfold rd. rewrite lookup_insert_eq. reflexivity. Qed.

Lemma rd_insert_ne m a b v : a ≠ b → rd (<[a := v]> m) b = rd m b.
Proof. intros H. unfold rd. rewrite lookup_insert_ne by exact H. reflexivity. Qed.

Lemma bind_done {A B} (c : M A) (k : A → M B) s a s' :
  c s = Done (a, s') → bind c k s = k a s'.
Proof. intros H. unfold bind. rewrite H. reflexivity. Qed.

Lemma bind_inv {A B} (c : M A) (k : A → M B) s r :
  bind c k s = Done r → ∃ a s', c s = Done (a, s') ∧ k a s' = Done r.
Proof.
  unfold bind. destruct (c s) as [[a s'] | |]; try discriminate.
  intros H. exists a, s'. split; [reflexivity | exact H].
Qed.

Lemma in_bounds_true a s :
  0 <= a → a + 4 <= bytes (host s) → in_bounds a s = true.
Proof.
  intros H1 H2. unfold in_bounds.
  apply andb_true_intro. split; apply Z.leb_le; assumption.
Qed.

Lemma peek_aligned m a : a mod 4 = 0 → peek m a = rd m a.
Proof. intros H. unfold peek. rewrite H. reflexivity. Qed.

Lemma poke_aligned m a v : a mod 4 = 0 → poke m a v = <[a := v]> m.
Proof. intros H. unfold poke. rewrite H. reflexivity. Qed.

(** What is written at an address, aligned or not, is read back there. *)
Lemma peek_poke m a v : 0 <= v < 2 ^ 32 → peek (poke m a v) a = v.
Proof.
  intros Hv. unfold peek, poke.
  assert (Ho : a mod 4 = 0 ∨ a mod 4 = 1 ∨ a mod 4 = 2 ∨ a mod 4 = 3) by zlia.
  destruct Ho as [-> | [-> | [-> | ->]]]; cbn [Z.eqb];
    [apply rd_insert_eq | | |];
    repeat (rewrite rd_insert_eq || rewrite rd_insert_ne by lia);
    change (8 * 1) with 8; change (8 * 2) with 16; change (8 * 3) with 24;
    change (32 - 8) with 24; change (32 - 16) with 16; change (32 - 24) with 8;
    change (2 ^ 8) with 256; change (2 ^ 16) with 65536;
    change (2 ^ 24) with 16777216; zlia.
Qed.

Lemma load_ok a s :
  0 <= a → a + 4 <= bytes (host s) → a mod 4 = 0 →
  load a s = Done (rd (mem s) a, s).
Proof.
  intros H1 H2 H3. unfold load.
  rewrite in_bounds_true by assumption. rewrite peek_aligned by assumption. reflexivity.
Qed.

Lemma store_ok a v s :
  0 <= a → a + 4 <= bytes (host s) → a mod 4 = 0 →
  store a v s = Done (tt, with_mem (<[a := v]> (mem s)) s).
Proof.
  intros H1 H2 H3. unfold store.
  rewrite in_bounds_true by assumption. rewrite poke_aligned by assumption. reflexivity.
Qed.

Lemma store_trap a v s : bytes (host s) < a + 4 → store a v s = Trap.
Proof.
  intros H. unfold store, in_bounds.
  replace (a + 4 <=? bytes (host s)) with false by (symmetry; apply Z.leb_gt; exact H).
  rewrite andb_false_r. reflexivity.
Qed.

Lemma bind_get_next {B} p (k : Z → M B) s :
  0 <= p → p + 4 <= bytes (host s) → p mod 4 = 0 →
  bind (get_next p) k s = k (rd (mem s) p) s.
Proof. intros. apply bind_done. apply load_ok; assumption. Qed.

Lemma bind_get_size {B} p (k : Z → M B) s :
  0 <= p → p + 8 <= bytes (host s) → p mod 4 = 0 →
  bind (get_size p) k s = k (rd (mem s) (p + 4)) s.
Proof. intros. apply bind_done. apply load_ok; zlia. Qed.

Lemma bind_set_next {B} p v (k : unit → M B) s :
  0 <= p → p + 4 <= bytes (host s) → p mod 4 = 0 →
  bind (set_next p v) k s = k tt (with_mem (<[p := v]> (mem s)) s).
Proof. intros. apply bind_done. apply store_ok; assumption. Qed.

Lemma bind_set_size {B} p v (k : unit → M B) s :
  0 <= p → p + 8 <= bytes (host s) → p mod 4 = 0 →
  bind (set_size p v) k s = k tt (with_mem (<[p + 4 := v]> (mem s)) s).
Proof. intros. apply bind_done. apply store_ok; zlia. Qed.

Lemma set_next_ok p v s :
  0 <= p → p + 4 <= bytes (host s) → p mod 4 = 0 →
  set_next p v s = Done (tt, with_mem (<[p := v]> (mem s)) s).
Proof. apply store_ok. Qed.

Lemma bind_get_free_list {B} (k : Z → M B) s :
  bind get_free_list k s = k (free_list s) s.
Proof. reflexivity. Qed.

Lemma bind_set_free_list {B} p (k : unit → M B) s :
  bind (set_free_list p) k s = k tt (with_free_list p s).
Proof. reflexivity. Qed.

Lemma bind_ret {A B} (a : A) (k : A → M B) s : bind (ret a) k s = k a s.
Proof. reflexivity. Qed.

Ltac fields :=
  cbn [mem free_list is_initialised host bytes capacity calls
       with_mem with_free_list with_is_initialised with_host fst snd] in *.

Ltac bounds := fields; consts; first [lia | zlia].

(** One step of straight-line execution; the side conditions are the
    bounds checks of the access. *)
Ltac exec1 :=
  first
    [ rewrite bind_get_free_list
    | rewrite bind_set_free_list
    | rewrite bind_ret
    | rewrite bind_get_next by bounds
    | rewrite bind_get_size by bounds
    | rewrite bind_set_next by bounds
    | rewrite bind_set_size by bounds
    | rewrite set_next_ok by bounds ];
  fields.

Ltac exec := repeat exec1.

(** ** The initialisation guard *)

Lemma ensureInitialised_done s :
  is_initialised s ≠ 0 → ensureInitialised s = Done (tt, s).
Proof.
  intros H. unfold ensureInitialised.
  destruct (is_initialised s =? 0) eqn:E; [| reflexivity].
  apply Z.eqb_eq in E. contradiction.
Qed.

Lemma ensureInitialised_first s :
  is_initialised s = 0 → 16 <= bytes (host s) < 2 ^ 32 →
  ensureInitialised s =
  Done (tt, {| mem := <[8 := 0]> (<[12 := bytes (host s) - 16]> (mem s));
               free_list := 8; is_initialised := 1; host := host s |}).
Proof.
  intros H0 Hlen. unfold ensureInitialised. rewrite H0. cbn [Z.eqb].
  unfold call_memoryBytesLength, memoryBytesLength.
  rewrite bind_done with (a := bytes (host s)) (s' := with_is_initialised 1 s)
    by (fields; rewrite wrap_small by lia; reflexivity).
  consts. exec.
  rewrite wrap_small by lia.
  unfold set_free_list. fields. reflexivity.
Qed.

(** ** Lists of blocks *)

Lemma gapped_weaken lo lo' fl : lo' <= lo → gapped lo fl → gapped lo' fl.
Proof. destruct fl as [| b fl]; simpl; [tauto |]. intros H (H1 & H2 & H3). repeat split; [lia | lia | exact H3]. Qed.

Lemma gapped_above lo fl : gapped lo fl → Forall (λ b, lo < b.1 ∧ 0 <= b.2) fl.
Proof.
  revert lo. induction fl as [| b fl IH]; intros lo H; [constructor |].
  destruct H as (H1 & H2 & H3). constructor; [split; assumption |].
  apply IH in H3. eapply Forall_impl; [exact H3 |].
  intros c [Hc1 Hc2]. simpl in *. split; lia.
Qed.

Lemma gapped_app lo l1 l2 :
  gapped lo (l1 ++ l2) ↔ gapped lo l1 ∧ gapped (last_end lo l1) l2.
Proof.
  revert lo. induction l1 as [| b l1 IH]; intros lo; simpl.
  - tauto.
  - rewrite IH. unfold last_end. simpl. tauto.
Qed.

Lemma last_end_snoc lo l b : last_end lo (l ++ [b]) = b.1 + 8 + b.2.
Proof. unfold last_end. rewrite foldl_app. reflexivity. Qed.

Lemma gapped_last_end lo l : gapped lo l → lo <= last_end lo l.
Proof.
  revert lo. induction l as [| b l IH]; intros lo H; [unfold last_end; simpl; lia |].
  destruct H as (H1 & H2 & H3). apply IH in H3.
  unfold last_end in *. simpl in *. lia.
Qed.

Lemma gapped_before lo l :
  gapped lo l → Forall (λ b, b.1 + 8 + b.2 <= last_end lo l) l.
Proof.
  revert lo. induction l as [| b l IH]; intros lo H; [constructor |].
  destruct H as (H1 & H2 & H3). constructor.
  - apply gapped_last_end in H3. unfold last_end in *. simpl in *. lia.
  - apply IH in H3. exact H3.
Qed.

(** Solve a [Forall] goal pointwise from the [Forall] facts in context. *)
Ltac forall_lia :=
  rewrite ?Forall_forall in *;
  let x := fresh "x" in
  let Hx := fresh "Hx" in
  intros x Hx;
  repeat match goal with
         | H : ∀ y, y ∈ _ → _ |- _ => pose proof (H x Hx); clear H
         end;
  destruct x; unfold block_ok, disjoint in *; simpl in *; zlia.

Lemma gapped_increasing lo fl : gapped lo fl → increasing fl.
Proof.
  revert lo. induction fl as [| b fl IH]; intros lo H i j c d Hij Hi Hj.
  - rewrite lookup_nil in Hi. discriminate.
  - destruct H as (H1 & H2 & H3).
    destruct j as [| j]; [lia |]. simpl in Hj.
    destruct i as [| i]; simpl in Hi.
    + inversion Hi; subst c.
      apply gapped_above in H3. rewrite Forall_forall in H3.
      apply list_elem_of_lookup_2 in Hj. apply H3 in Hj. lia.
    + eapply (IH _ H3 i j); [lia | eassumption | eassumption].
Qed.

(** *** Chains in memory *)

Lemma seg_app m h t l1 l2 :
  seg m h t (l1 ++ l2) ↔ ∃ mid, seg m h mid l1 ∧ seg m mid t l2.
Proof.
  revert h. induction l1 as [| b l1 IH]; intros h; simpl.
  - split.
    + intros H. exists h. split; [reflexivity | exact H].
    + intros (mid & -> & H). exact H.
  - rewrite IH. split.
    + intros (H1 & H2 & H3 & mid & H4 & H5). exists mid. tauto.
    + intros (mid & (H1 & H2 & H3 & H4) & H5). repeat split; try assumption.
      exists mid. tauto.
Qed.

Lemma seg_head m h t fl : seg m h t fl → fl ≠ [] → h = head_addr fl ∧ h ≠ NULL.
Proof. destruct fl as [| b fl]; [congruence |]. simpl. intros (-> & H & _) _. tauto. Qed.

Lemma chain_head m h fl : chain m h fl → h = head_addr fl.
Proof. destruct fl as [| b fl]; simpl; [tauto |]. intros (-> & _). reflexivity. Qed.

Lemma chain_app m h l1 l2 :
  chain m h (l1 ++ l2) ↔ seg m h (head_addr l2) l1 ∧ chain m (head_addr l2) l2.
Proof.
  unfold chain. rewrite seg_app. split.
  - intros (mid & H1 & H2). pose proof (chain_head _ _ _ H2) as ->. tauto.
  - intros [H1 H2]. eauto.
Qed.

Lemma chain_null m fl : chain m NULL fl → fl = [].
Proof. destruct fl as [| b fl]; [reflexivity |]. simpl. intros (H1 & H2 & _). congruence. Qed.

Lemma chain_inj m h fl1 fl2 : chain m h fl1 → chain m h fl2 → fl1 = fl2.
Proof.
  revert h fl2. induction fl1 as [| [a sz] fl1 IH]; intros h fl2 H1 H2.
  - unfold chain in H1. simpl in H1. subst h. symmetry. eapply chain_null. exact H2.
  - unfold chain in *. destruct H1 as (-> & Ha & Hsz & H1). simpl in *.
    destruct fl2 as [| [a' sz'] fl2]; simpl in H2; [congruence |].
    destruct H2 as (<- & _ & Hsz' & H2). simpl in *.
    f_equal; [congruence |]. eapply IH; eassumption.
Qed.

(** A chain only depends on the header words of its blocks. *)
Lemma seg_agree m m' h t fl :
  Forall (λ b, rd m' b.1 = rd m b.1 ∧ rd m' (b.1 + 4) = rd m (b.1 + 4)) fl →
  seg m h t fl → seg m' h t fl.
Proof.
  revert h. induction fl as [| b fl IH]; intros h HF H; [exact H |].
  inversion HF as [| ? ? [E1 E2] HF']; subst.
  destruct H as (H1 & H2 & H3 & H4). simpl.
  rewrite E1, E2. repeat split; try assumption. apply IH; assumption.
Qed.

Lemma allocated_agree m m' b :
  rd m' b.1 = rd m b.1 → rd m' (b.1 + 4) = rd m (b.1 + 4) →
  allocated m b → allocated m' b.
Proof. unfold allocated. intros -> ->. tauto. Qed.

(** ** The scan of [freeMemory] *)

Lemma free_loop_skip mid : ∀ fuel u cur prev t s,
  seg (mem s) cur t mid →
  Forall (λ b, 0 <= b.1 ∧ b.1 + 4 <= bytes (host s) ∧ b.1 mod 4 = 0 ∧ b.1 < u) mid →
  free_loop fuel u cur prev s =
  if (fuel <=? length mid)%nat then OutOfFuel
  else free_loop (fuel - length mid) u t (last_addr prev mid) s.
Proof.
  induction mid as [| b mid IH]; intros fuel u cur prev t s Hseg HF.
  - simpl in *. subst t. destruct fuel; [reflexivity |]. reflexivity.
  - destruct Hseg as (-> & Hb & _ & Hseg).
    inversion HF as [| ? ? (Hb1 & Hb2 & Hb4 & Hb3) HF']; subst.
    destruct fuel as [| fuel]; [reflexivity |].
    cbn [free_loop length Nat.leb Nat.sub].
    replace (b.1 =? NULL) with false by (symmetry; apply Z.eqb_neq; exact Hb).
    replace (u <? b.1) with false by (symmetry; apply Z.ltb_ge; lia).
    rewrite !andb_false_r.
    rewrite bind_get_next by assumption.
    rewrite (IH fuel u (rd (mem s) b.1) b.1 t s Hseg HF').
    reflexivity.
Qed.

Lemma free_loop_stop fuel u c prev s :
  c ≠ NULL → u < c → (prev = c ∨ prev < u) →
  free_loop (S fuel) u c prev s = Done ((c, if prev =? c then NULL else prev), s).
Proof.
  intros Hc Hu Hp. cbn [free_loop].
  replace (c =? NULL) with false by (symmetry; apply Z.eqb_neq; exact Hc).
  replace (u <? c) with true by (symmetry; apply Z.ltb_lt; exact Hu).
  rewrite !andb_true_r.
  destruct Hp as [-> | Hp].
  - replace (c <? u) with false by (symmetry; apply Z.ltb_ge; lia).
    rewrite !Z.eqb_refl. reflexivity.
  - replace (prev <? u) with true by (symmetry; apply Z.ltb_lt; exact Hp).
    replace (prev =? c) with false by (symmetry; apply Z.eqb_neq; lia).
    reflexivity.
Qed.

Lemma free_loop_end fuel u prev s :
  free_loop (S fuel) u NULL prev s = Done ((NULL, prev), s).
Proof. reflexivity. Qed.

(** ** Attaching a freed block to its neighbours *)

Ltac rdsimp := repeat (rewrite rd_insert_eq || rewrite rd_insert_ne by lia).

Lemma same_but_refl m u : same_but m m u.
Proof. intros x _ _. reflexivity. Qed.

Lemma same_but_next m u v : same_but m (<[u := v]> m) u.
Proof. intros x H1 H2. rdsimp. reflexivity. Qed.

Lemma same_but_both m u v w : same_but m (<[u := v]> (<[u + 4 := w]> m)) u.
Proof. intros x H1 H2. rdsimp. reflexivity. Qed.

Lemma seg_same_but m m' u h t fl :
  same_but m m' u →
  Forall (λ b, b.1 ≠ u ∧ b.1 + 4 ≠ u ∧ b.1 ≠ u + 4) fl →
  seg m h t fl → seg m' h t fl.
Proof.
  intros Hs HF. apply seg_agree.
  eapply Forall_impl; [exact HF |].
  intros b (H1 & H2 & H3). simpl. split; apply Hs; lia.
Qed.

Lemma allocated_same_but m m' u b :
  same_but m m' u → b.1 ≠ u → b.1 + 4 ≠ u → b.1 ≠ u + 4 →
  allocated m b → allocated m' b.
Proof. intros Hs H1 H2 H3. apply allocated_agree; apply Hs; lia. Qed.

Lemma with_mem_id s : with_mem (mem s) s = s.
Proof. destruct s. reflexivity. Qed.

Lemma with_free_list_id s : with_free_list (free_list s) s = s.
Proof. destruct s. reflexivity. Qed.

Lemma attach_current_spec s u usz post :
  chain (mem s) (head_addr post) post →
  Forall (block_ok (bytes (host s))) post →
  block_ok (bytes (host s)) (u, usz) →
  allocated (mem s) (u, usz) →
  Forall (λ b, u + 8 + usz <= b.1) post →
  bytes (host s) < 2 ^ 32 →
  ∃ m', free_attach_current u (head_addr post) s = Done (tt, with_mem m' s) ∧
        chain m' u (merge_next (u, usz) post) ∧
        same_but (mem s) m' u.
Proof.
  intros Hch Hok Hu [Hnext Hsize] Habove Hlen.
  unfold block_ok in Hu. simpl in Hu, Hnext, Hsize.
  destruct post as [| [c csz] post].
  - exists (mem s). rewrite with_mem_id.
    split; [reflexivity |]. split; [| apply same_but_refl].
    unfold chain. simpl. consts. repeat split; try assumption; lia.
  - destruct Hch as (_ & Hc & Hcsz & Hch). simpl in Hc, Hcsz, Hch.
    apply Forall_cons in Hok as [Hcok Hok'].
    apply Forall_cons in Habove as [Hca Habove'].
    unfold block_ok in Hcok. simpl in Hcok, Hca.
    unfold free_attach_current, head_addr. cbn [fst].
    replace (c =? NULL) with false by (symmetry; apply Z.eqb_neq; exact Hc).
    consts. exec. rewrite Hsize.
    rewrite (wrap_small (u + 8 + usz)) by lia.
    unfold merge_next. cbn [fst snd].
    destruct (c =? u + 8 + usz) eqn:E.
    + apply Z.eqb_eq in E.
      exec. rdsimp. rewrite Hcsz.
      rewrite (wrap_small (csz + 8)) by lia.
      rewrite (wrap_small (usz + (csz + 8))) by lia.
      eexists. split; [reflexivity |]. split; [| apply same_but_both].
      unfold chain. simpl. consts. rdsimp.
      repeat split; try lia.
      eapply seg_same_but; [apply same_but_both | | exact Hch].
      clear Hch. forall_lia.
    + apply Z.eqb_neq in E. exec.
      eexists. split; [reflexivity |]. split; [| apply same_but_next].
      unfold chain. simpl. consts. rdsimp.
      repeat split; try lia.
      eapply seg_same_but; [apply same_but_next | | exact Hch].
      clear Hch. forall_lia.
Qed.

Lemma attach_previous_spec s p u usz tl :
  rd (mem s) (p.1 + 4) = p.2 →
  block_ok (bytes (host s)) p →
  block_ok (bytes (host s)) (u, usz) →
  p.1 + 8 + p.2 <= u →
  chain (mem s) u ((u, usz) :: tl) →
  Forall (λ b, u < b.1) tl →
  bytes (host s) < 2 ^ 32 →
  ∃ m', free_attach_previous u p.1 s = Done (tt, with_mem m' s) ∧
        chain m' p.1 (merge_next p ((u, usz) :: tl)) ∧
        same_but (mem s) m' p.1.
Proof.
  destruct p as [p psz]. cbn [fst snd].
  intros Hpsz Hp Hu Hpu Hch Htl Hlen.
  unfold block_ok in Hp, Hu. cbn [fst snd] in Hp, Hu.
  destruct Hch as (_ & _ & Husz & Hch). cbn [fst snd] in Husz, Hch.
  unfold free_attach_previous.
  replace (p =? NULL) with false by (symmetry; apply Z.eqb_neq; consts; lia).
  consts. exec. rewrite Hpsz.
  rewrite (wrap_small (p + 8 + psz)) by lia.
  unfold merge_next. cbn [fst snd].
  destruct (u =? p + 8 + psz) eqn:E.
  - apply Z.eqb_eq in E.
    exec. rdsimp. rewrite Husz.
    rewrite (wrap_small (usz + 8)) by lia.
    rewrite (wrap_small (psz + (usz + 8))) by lia.
    eexists. split; [reflexivity |]. split; [| apply same_but_both].
    unfold chain. simpl. consts. rdsimp.
    repeat split; try lia.
    eapply seg_same_but; [apply same_but_both | | exact Hch].
    clear Hch. forall_lia.
  - apply Z.eqb_neq in E. exec.
    eexists. split; [reflexivity |]. split; [| apply same_but_next].
    unfold chain. simpl. consts. rdsimp.
    repeat split; try lia.
    eapply seg_same_but; [apply same_but_next | | exact Hch].
    clear Hch. forall_lia.
Qed.

(** ** Coalescing insertion on lists *)

Lemma head_addr_merge_next b X : head_addr (merge_next b X) = b.1.
Proof.
  destruct X as [| c X]; [reflexivity |]. simpl.
  destruct (c.1 =? b.1 + 8 + b.2); reflexivity.
Qed.

Lemma merge_next_far b X :
  head_addr X ≠ b.1 + 8 + b.2 → X ≠ [] → merge_next b X = b :: X.
Proof.
  destruct X as [| c X]; [congruence |]. simpl. intros H _.
  replace (c.1 =? b.1 + 8 + b.2) with false by (symmetry; apply Z.eqb_neq; exact H).
  reflexivity.
Qed.

Lemma merge_next_apart b X :
  Forall (λ c, b.1 + 8 + b.2 < c.1) X → merge_next b X = b :: X.
Proof.
  destruct X as [| c X]; [reflexivity |]. intros H.
  apply Forall_cons in H as [H _]. apply merge_next_far; [simpl; lia | discriminate].
Qed.

Lemma merge_next_nonempty b X : merge_next b X ≠ [].
Proof.
  destruct X as [| c X]; [discriminate |]. simpl.
  destruct (c.1 =? b.1 + 8 + b.2); discriminate.
Qed.

Lemma merge_next_gapped lo b X :
  lo < b.1 → 0 <= b.2 → gapped_lax (b.1 + 8 + b.2) X → gapped lo (merge_next b X).
Proof.
  intros H1 H2 HX. destruct X as [| c X]; [simpl; tauto |].
  destruct HX as (Hc1 & Hc2 & HX). simpl.
  destruct (c.1 =? b.1 + 8 + b.2) eqn:E.
  - apply Z.eqb_eq in E. simpl. repeat split; [lia | lia |].
    eapply gapped_weaken; [| exact HX]. lia.
  - apply Z.eqb_neq in E. simpl. repeat split; try lia. exact HX.
Qed.

Lemma gapped_to_lax lo fl : gapped lo fl → gapped_lax lo fl.
Proof. destruct fl; simpl; [tauto |]. intros (H1 & H2 & H3). repeat split; [lia | lia | exact H3]. Qed.

Lemma merge_next_lax lo b X :
  lo <= b.1 → 0 <= b.2 → gapped_lax (b.1 + 8 + b.2) X → gapped_lax lo (merge_next b X).
Proof.
  intros H1 H2 HX. destruct X as [| c X]; [simpl; tauto |].
  destruct HX as (Hc1 & Hc2 & HX). simpl.
  destruct (c.1 =? b.1 + 8 + b.2) eqn:E.
  - apply Z.eqb_eq in E. simpl. repeat split; [lia | lia |].
    eapply gapped_weaken; [| exact HX]. lia.
  - apply Z.eqb_neq in E. simpl. repeat split; try lia. exact HX.
Qed.

Lemma insert_block_lax b fl : ∀ lo,
  gapped lo fl → lo <= b.1 → 0 <= b.2 → Forall (disjoint b) fl →
  gapped_lax lo (insert_block b fl).
Proof.
  induction fl as [| c fl IH]; intros lo Hg Hlo Hb Hd.
  - simpl. tauto.
  - destruct Hg as (Hc1 & Hc2 & Hg).
    apply Forall_cons in Hd as [Hdc Hd]. unfold disjoint in Hdc.
    cbn [insert_block]. destruct (b.1 <? c.1) eqn:E.
    + apply Z.ltb_lt in E. apply merge_next_lax; [lia | lia |].
      simpl. repeat split; [lia | lia | exact Hg].
    + apply Z.ltb_ge in E. apply gapped_to_lax.
      apply merge_next_gapped; [lia | lia |].
      apply IH; [exact Hg | lia | lia | exact Hd].
Qed.

Lemma insert_block_gapped b fl lo :
  gapped lo fl → lo < b.1 → 0 <= b.2 → Forall (disjoint b) fl →
  gapped lo (insert_block b fl).
Proof.
  intros Hg Hlo Hb Hd. destruct fl as [| c fl].
  - simpl. tauto.
  - destruct Hg as (Hc1 & Hc2 & Hg).
    apply Forall_cons in Hd as [Hdc Hd]. unfold disjoint in Hdc.
    cbn [insert_block]. destruct (b.1 <? c.1) eqn:E.
    + apply Z.ltb_lt in E. apply merge_next_gapped; [lia | lia |].
      simpl. repeat split; [lia | lia | exact Hg].
    + apply Z.ltb_ge in E.
      apply merge_next_gapped; [lia | lia |].
      apply insert_block_lax; [exact Hg | lia | lia | exact Hd].
Qed.

Lemma merge_next_ok len b X :
  block_ok len b → Forall (block_ok len) X → Forall (block_ok len) (merge_next b X).
Proof.
  intros Hb HX. destruct X as [| c X]; [constructor; [exact Hb | constructor] |].
  apply Forall_cons in HX as [Hc HX]. simpl.
  destruct (c.1 =? b.1 + 8 + b.2) eqn:E.
  - apply Z.eqb_eq in E. constructor; [| exact HX].
    unfold block_ok in *. simpl. zlia.
  - constructor; [assumption |]. constructor; assumption.
Qed.

Lemma insert_block_ok len b fl :
  block_ok len b → Forall (block_ok len) fl → Forall (block_ok len) (insert_block b fl).
Proof.
  intros Hb. induction fl as [| c fl IH]; intros HF.
  - constructor; [exact Hb | constructor].
  - cbn [insert_block]. destruct (b.1 <? c.1).
    + apply merge_next_ok; assumption.
    + apply Forall_cons in HF as [Hc HF]. apply merge_next_ok; [exact Hc |].
      apply IH. exact HF.
Qed.

Lemma merge_next_disjoint l b X :
  0 <= l.2 → disjoint l b → Forall (disjoint l) X → Forall (disjoint l) (merge_next b X).
Proof.
  intros Hl Hb HX. destruct X as [| c X]; [constructor; [exact Hb | constructor] |].
  apply Forall_cons in HX as [Hc HX]. simpl.
  destruct (c.1 =? b.1 + 8 + b.2) eqn:E.
  - apply Z.eqb_eq in E. constructor; [| exact HX].
    unfold disjoint in *. simpl. lia.
  - constructor; [assumption |]. constructor; assumption.
Qed.

Lemma insert_block_disjoint l b fl :
  0 <= l.2 → disjoint l b → Forall (disjoint l) fl → Forall (disjoint l) (insert_block b fl).
Proof.
  intros Hl Hb. induction fl as [| c fl IH]; intros HF.
  - constructor; [exact Hb | constructor].
  - cbn [insert_block]. destruct (b.1 <? c.1).
    + apply merge_next_disjoint; assumption.
    + apply Forall_cons in HF as [Hc HF]. apply merge_next_disjoint; [exact Hl | exact Hc |].
      apply IH. exact HF.
Qed.

Lemma insert_block_front b post :
  (post = [] ∨ b.1 < head_addr post) → insert_block b post = merge_next b post.
Proof.
  destruct post as [| c post]; [reflexivity |].
  intros [H | H]; [discriminate |]. simpl in H. cbn [insert_block].
  replace (b.1 <? c.1) with true by (symmetry; apply Z.ltb_lt; exact H).
  reflexivity.
Qed.

Lemma insert_block_behind b p post pre0 : ∀ lo,
  gapped lo (pre0 ++ [p]) →
  Forall (λ c, c.1 < b.1) (pre0 ++ [p]) →
  (post = [] ∨ b.1 < head_addr post) →
  insert_block b (pre0 ++ p :: post) = pre0 ++ merge_next p (merge_next b post).
Proof.
  induction pre0 as [| c pre0 IH]; intros lo Hg Hlt Hpost.
  - apply Forall_cons in Hlt as [Hp _]. cbn [app insert_block].
    replace (b.1 <? p.1) with false by (symmetry; apply Z.ltb_ge; lia).
    rewrite insert_block_front by exact Hpost. reflexivity.
  - rewrite <- app_comm_cons in Hg, Hlt.
    destruct Hg as (Hc1 & Hc2 & Hg).
    apply Forall_cons in Hlt as [Hc Hlt].
    rewrite <- app_comm_cons. cbn [insert_block].
    replace (b.1 <? c.1) with false by (symmetry; apply Z.ltb_ge; lia).
    rewrite (IH _ Hg Hlt Hpost).
    rewrite merge_next_far; [reflexivity | |].
    + destruct pre0 as [| d pre0].
      * simpl. rewrite head_addr_merge_next. simpl in Hg. lia.
      * simpl. simpl in Hg. lia.
    + destruct pre0; simpl; [apply merge_next_nonempty | discriminate].
Qed.

(** Where a block goes: the free blocks below it and those above it. *)
Lemma split_position u usz fl : ∀ lo,
  gapped lo fl → Forall (disjoint (u, usz)) fl → 0 <= usz →
  ∃ pre post, fl = pre ++ post ∧
              Forall (λ c, c.1 + 8 + c.2 <= u) pre ∧
              Forall (λ c, u + 8 + usz <= c.1) post.
Proof.
  induction fl as [| c fl IH]; intros lo Hg Hd Hu.
  - exists [], []. repeat split; constructor.
  - pose proof Hg as (Hc1 & Hc2 & Hg').
    apply Forall_cons in Hd as [Hdc Hd]. unfold disjoint in Hdc. simpl in Hdc.
    destruct (Z_le_gt_dec (u + 8 + usz) c.1) as [Hle | Hgt].
    + exists [], (c :: fl). repeat split; [constructor |].
      constructor; [exact Hle |].
      apply gapped_above in Hg'. forall_lia.
    + destruct (IH _ Hg' Hd Hu) as (pre & post & -> & Hpre & Hpost).
      exists (c :: pre), post. repeat split; [| exact Hpost].
      constructor; [lia | exact Hpre].
Qed.

(** ** [freeMemory] preserves the invariant *)

Lemma disjoint_sym b c : disjoint b c → disjoint c b.
Proof. unfold disjoint. tauto. Qed.

Lemma pairwise_disjoint_app l1 l2 :
  pairwise_disjoint (l1 ++ l2) ↔
  pairwise_disjoint l1 ∧ pairwise_disjoint l2 ∧ Forall (λ a, Forall (disjoint a) l2) l1.
Proof.
  induction l1 as [| a l1 IH]; simpl.
  - split; [intros H; repeat split; [exact H | constructor] | tauto].
  - rewrite IH, Forall_app, Forall_cons. tauto.
Qed.

Lemma pairwise_disjoint_remove l1 b l2 :
  pairwise_disjoint (l1 ++ b :: l2) →
  pairwise_disjoint (l1 ++ l2) ∧ Forall (λ l, disjoint l b) (l1 ++ l2).
Proof.
  rewrite !pairwise_disjoint_app. simpl.
  intros (H1 & (H2 & H3) & H4). repeat split; try assumption.
  - eapply Forall_impl; [exact H4 |]. intros a Ha.
    apply Forall_cons in Ha as [_ Ha]. exact Ha.
  - apply Forall_app. split.
    + eapply Forall_impl; [exact H4 |]. intros a Ha.
      apply Forall_cons in Ha as [Ha _]. exact Ha.
    + eapply Forall_impl; [exact H2 |]. intros a Ha. apply disjoint_sym. exact Ha.
Qed.

Lemma Inv_initialised s fl live : Inv s fl live → live ≠ [] → is_initialised s ≠ 0.
Proof. intros HI Hl E. apply (inv_fresh _ _ _ HI) in E as [_ E]. contradiction. Qed.

Lemma Inv_after_free s s' fl l1 b l2 :
  Inv s fl (l1 ++ b :: l2) →
  host s' = host s →
  is_initialised s' = is_initialised s →
  chain (mem s') (free_list s') (insert_block b fl) →
  Forall (λ l, rd (mem s') l.1 = rd (mem s) l.1 ∧
               rd (mem s') (l.1 + 4) = rd (mem s) (l.1 + 4)) (l1 ++ l2) →
  Inv s' (insert_block b fl) (l1 ++ l2).
Proof.
  intros HI Hhost Hinit Hch Hagree.
  pose proof (Inv_initialised _ _ _ HI ltac:(destruct l1; discriminate)) as Hi.
  destruct HI as [Hh Hc Hfok Hg Hlok Hlhdr Hlf Hll _].
  apply Forall_app in Hlok as [Hlok1 Hlok2]. apply Forall_cons in Hlok2 as [Hb Hlok2].
  apply Forall_app in Hlhdr as [Hlhdr1 Hlhdr2]. apply Forall_cons in Hlhdr2 as [Hbh Hlhdr2].
  apply Forall_app in Hlf as [Hlf1 Hlf2]. apply Forall_cons in Hlf2 as [Hbf Hlf2].
  apply pairwise_disjoint_remove in Hll as [Hll Hlb].
  assert (Hlok : Forall (block_ok (bytes (host s))) (l1 ++ l2))
    by (apply Forall_app; split; assumption).
  assert (Hlhdr : Forall (allocated (mem s)) (l1 ++ l2))
    by (apply Forall_app; split; assumption).
  assert (Hlf : Forall (λ l, Forall (disjoint l) fl) (l1 ++ l2))
    by (apply Forall_app; split; assumption).
  constructor.
  - rewrite Hhost. exact Hh.
  - exact Hch.
  - rewrite Hhost. apply insert_block_ok; assumption.
  - apply insert_block_gapped; try assumption; unfold block_ok in Hb; lia.
  - rewrite Hhost. exact Hlok.
  - rewrite Forall_forall in *. intros l Hl.
    destruct (Hagree l Hl) as [E1 E2].
    eapply allocated_agree; [exact E1 | exact E2 | apply Hlhdr; exact Hl].
  - rewrite Forall_forall in *. intros l Hl.
    apply insert_block_disjoint.
    + specialize (Hlok l Hl). unfold block_ok in Hlok. lia.
    + apply Hlb. exact Hl.
    + apply Hlf. exact Hl.
  - exact Hll.
  - rewrite Hinit. intros E. contradiction.
Qed.

Lemma last_addr_snoc x l p : last_addr x (l ++ [p]) = p.1.
Proof. unfold last_addr. rewrite foldl_app. reflexivity. Qed.

Lemma rev_case {A} (l : list A) : l = [] ∨ ∃ l' x, l = l' ++ [x].
Proof. induction l using rev_ind; [left; reflexivity | right; eauto]. Qed.

Lemma free_loop_result fuel u head pre post s :
  seg (mem s) head (head_addr post) pre →
  Forall (λ b, 0 <= b.1 ∧ b.1 + 4 <= bytes (host s) ∧ b.1 mod 4 = 0 ∧ b.1 < u) pre →
  Forall (λ b, b.1 ≠ NULL ∧ u < b.1) post →
  pre ++ post ≠ [] →
  free_loop fuel u head head s =
  if (fuel <=? length pre)%nat then OutOfFuel
  else Done ((head_addr post, last_addr NULL pre), s).
Proof.
  intros Hseg Hpre Hpost Hne.
  rewrite (free_loop_skip pre fuel u head head (head_addr post) s Hseg Hpre).
  destruct (fuel <=? length pre)%nat eqn:E; [reflexivity |].
  apply Nat.leb_gt in E.
  destruct (fuel - length pre)%nat as [| f] eqn:Ef; [lia |].
  destruct post as [| c post].
  - cbn [head_addr]. rewrite free_loop_end.
    destruct (rev_case pre) as [-> | (pre0 & p & ->)]; [contradiction |].
    rewrite !last_addr_snoc. reflexivity.
  - apply Forall_cons in Hpost as [[Hc Hu] _]. cbn [head_addr] in *.
    destruct (rev_case pre) as [-> | (pre0 & p & ->)].
    + cbn [seg] in Hseg. subst head. cbn [last_addr foldl].
      rewrite free_loop_stop by (try assumption; left; reflexivity).
      rewrite Z.eqb_refl. reflexivity.
    + rewrite !last_addr_snoc.
      apply Forall_app in Hpre as [_ Hp]. apply Forall_cons in Hp as [(_ & _ & _ & Hp) _].
      rewrite free_loop_stop by (try assumption; right; exact Hp).
      replace (p.1 =? c.1) with false by (symmetry; apply Z.eqb_neq; lia).
      reflexivity.
Qed.

Lemma bind_fuel {A B} (c : M A) (k : A → M B) s :
  c s = OutOfFuel → bind c k s = OutOfFuel.
Proof. intros H. unfold bind. rewrite H. reflexivity. Qed.

Lemma freeMemory_core fuel s fl l1 b l2 :
  Inv s fl (l1 ++ b :: l2) →
  (freeMemory fuel (b.1 + header_size) s = OutOfFuel ∧ (fuel <= length fl)%nat) ∨
  (∃ s', freeMemory fuel (b.1 + header_size) s = Done (tt, s') ∧
         Inv s' (insert_block b fl) (l1 ++ l2) ∧
         host s' = host s ∧ is_initialised s' = is_initialised s).
Proof.
  intros HI.
  pose proof (Inv_initialised _ _ _ HI ltac:(destruct l1; discriminate)) as Hi.
  pose proof HI as [Hh Hc Hfok Hg Hlok Hlhdr Hlf Hll _].
  pose proof Hh as (Hlen16 & _ & _ & _).
  assert (Hlen : bytes (host s) < 2 ^ 32) by (unfold host_ok in Hh; lia).
  apply Forall_app in Hlok as [Hlok1 Hlok2]. apply Forall_cons in Hlok2 as [Hb Hlok2].
  apply Forall_app in Hlhdr as [_ Hlhdr2]. apply Forall_cons in Hlhdr2 as [Hbh _].
  apply Forall_app in Hlf as [Hlf1 Hlf2]. apply Forall_cons in Hlf2 as [Hbf Hlf2].
  apply pairwise_disjoint_remove in Hll as [_ Hlb].
  assert (Hlok : Forall (block_ok (bytes (host s))) (l1 ++ l2))
    by (apply Forall_app; split; assumption).
  assert (Hlf : Forall (λ l, Forall (disjoint l) fl) (l1 ++ l2))
    by (apply Forall_app; split; assumption).
  clear Hlok1 Hlok2 Hlf1 Hlf2.
  destruct b as [u usz]. cbn [fst snd] in *.
  pose proof Hb as (Hu8 & Hum & Husz & Huszm & Huend). cbn [fst snd] in *.
  unfold freeMemory.
  rewrite (bind_done _ _ _ _ _ (ensureInitialised_done s Hi)).
  replace (u + header_size =? NULL) with false
    by (symmetry; apply Z.eqb_neq; consts; lia).
  replace (wrap (u + header_size - header_size)) with u
    by (rewrite wrap_small; consts; lia).
  rewrite bind_get_free_list.
  destruct (decide (fl = [])) as [-> | Hne].
  - right. unfold chain in Hc. simpl in Hc. rewrite Hc. cbn [Z.eqb NULL].
    exists (with_free_list u s). split; [reflexivity |].
    split; [| split; reflexivity].
    apply (Inv_after_free s _ [] l1 (u, usz) l2 HI); try reflexivity.
    + fields. unfold chain. destruct Hbh as [Hn Hs]. simpl in *.
      repeat split; consts; try assumption; lia.
    + fields. apply Forall_forall. intros; split; reflexivity.
  - destruct (seg_head _ _ _ _ Hc Hne) as [Hhead Hhead0].
    replace (free_list s =? NULL) with false by (symmetry; apply Z.eqb_neq; exact Hhead0).
    destruct (split_position u usz fl 0 Hg Hbf Husz) as (pre & post & -> & Hpre & Hpost).
    apply chain_app in Hc as [Hseg Hpc].
    apply Forall_app in Hfok as [Hpreok Hpostok].
    pose proof Hg as Hg'. apply gapped_app in Hg' as [Hgpre Hgpost].
    assert (Hloop : free_loop fuel u (free_list s) (free_list s) s =
                    if (fuel <=? length pre)%nat then OutOfFuel
                    else Done ((head_addr post, last_addr NULL pre), s)).
    { apply free_loop_result; try assumption.
      - clear Hseg. forall_lia.
      - clear Hpc. consts. forall_lia. }
    destruct (fuel <=? length pre)%nat eqn:Efuel.
    { left. split; [apply bind_fuel; exact Hloop |].
      apply Nat.leb_le in Efuel. rewrite length_app. lia. }
    right.
    rewrite (bind_done _ _ _ _ _ Hloop).
    destruct (attach_current_spec s u usz post Hpc Hpostok Hb Hbh Hpost Hlen)
      as (mA & HA & HchA & HsA).
    rewrite (bind_done _ _ _ _ _ HA).
    assert (Hfront : post = [] ∨ u < head_addr post).
    { destruct post as [| c post]; [left; reflexivity | right].
      apply Forall_cons in Hpost as [Hc _]. simpl. lia. }
    assert (HliveA : Forall (λ l, l.1 ≠ u ∧ l.1 + 4 ≠ u ∧ l.1 ≠ u + 4) (l1 ++ l2)).
    { clear Hlf. forall_lia. }
    destruct (rev_case pre) as [-> | (pre0 & p & ->)].
    + (* the freed block becomes the head *)
      cbn [last_addr foldl]. unfold free_attach_previous. cbn [Z.eqb NULL].
      eexists. split; [reflexivity |].
      split; [| split; reflexivity].
      apply (Inv_after_free s _ _ l1 (u, usz) l2 HI); try reflexivity.
      * fields. simpl. rewrite insert_block_front by exact Hfront. exact HchA.
      * fields. eapply Forall_impl; [exact HliveA |].
        intros l (H1 & H2 & H3). split; apply HsA; lia.
    + (* the freed block goes behind [p] *)
      rewrite last_addr_snoc.
      apply Forall_app in Hpre as [Hpre0 Hp]. apply Forall_cons in Hp as [Hp _].
      apply Forall_app in Hpreok as [Hpre0ok Hpok]. apply Forall_cons in Hpok as [Hpok _].
      apply seg_app in Hseg as (mid & Hseg0 & Hsegp).
      destruct Hsegp as (-> & Hp0 & Hpsz & Hpnext).
      pose proof (merge_next_ok _ _ _ Hb Hpostok) as HLok.
      assert (HLg : gapped_lax u (merge_next (u, usz) post)).
      { apply merge_next_lax; cbn [fst snd]; [lia | lia |].
        destruct post as [| c post]; [exact I |].
        apply Forall_cons in Hpost as [Hc _].
        destruct Hgpost as (_ & Hc2 & Hgpost). repeat split; assumption. }
      pose proof (head_addr_merge_next (u, usz) post) as HLhead.
      destruct (merge_next (u, usz) post) as [| [u' usz'] tl] eqn:EL.
      { exfalso. eapply merge_next_nonempty. exact EL. }
      cbn [head_addr fst] in HLhead. subst u'.
      apply Forall_cons in HLok as [Hu'ok _].
      destruct HLg as (_ & Husz' & Htlg). cbn [fst snd] in Husz', Htlg.
      apply gapped_above in Htlg.
      assert (Hgp : gapped 0 (pre0 ++ [p])) by exact Hgpre.
      apply gapped_app in Hgpre as [Hgpre0 Hgp'].
      apply gapped_before in Hgpre0.
      destruct Hgp' as (Hp1 & Hp2 & _).
      assert (Hp' : p.1 + 8 + p.2 <= u) by exact Hp.
      assert (HpszA : rd mA (p.1 + 4) = p.2).
      { rewrite HsA by (unfold block_ok in Hpok; lia). exact Hpsz. }
      destruct (attach_previous_spec (with_mem mA s) p u usz' tl) as (mB & HB & HchB & HsB);
        fields; try assumption.
      { clear Hseg0 HchA. forall_lia. }
      rewrite HB. fields.
      eexists. split; [reflexivity |].
      split; [| split; reflexivity].
      apply (Inv_after_free s _ _ l1 (u, usz) l2 HI); try reflexivity.
      * fields. rewrite <- app_assoc. cbn [app].
        rewrite (insert_block_behind (u, usz) p post pre0 0 Hgp); [| | exact Hfront].
        2:{ cbn [fst]. apply Forall_app. split; [| constructor; [lia | constructor]].
            clear Hseg0. forall_lia. }
        rewrite EL. apply chain_app. rewrite head_addr_merge_next.
        split; [| exact HchB].
        assert (Hpre0far : Forall (λ c, c.1 + 8 + c.2 < p.1) pre0).
        { clear Hseg0. forall_lia. }
        eapply seg_same_but; [exact HsB | |].
        { clear Hseg0. unfold block_ok in Hpok. forall_lia. }
        eapply seg_same_but; [exact HsA | | exact Hseg0].
        clear Hseg0. forall_lia.
      * fields.
        assert (Hlp : Forall (λ l, disjoint l p) (l1 ++ l2)).
        { eapply Forall_impl; [exact Hlf |]. intros l Hl.
          rewrite Forall_forall in Hl. apply Hl.
          apply elem_of_app. left. apply elem_of_app. right. constructor. }
        rewrite Forall_forall in *. intros l Hl.
        specialize (HliveA l Hl). specialize (Hlp l Hl). specialize (Hlok l Hl).
        unfold block_ok, disjoint in *.
        split; (rewrite HsB by lia); apply HsA; lia.
Qed.

(** What [freeMemory] does with a block the client holds, given enough
    fuel for the scan. *)
Lemma freeMemory_held fuel s fl l1 b l2 :
  Inv s fl (l1 ++ b :: l2) →
  (length fl < fuel)%nat →
  ∃ s', freeMemory fuel (b.1 + header_size) s = Done (tt, s') ∧
        Inv s' (insert_block b fl) (l1 ++ l2) ∧
        host s' = host s ∧ is_initialised s' = is_initialised s.
Proof.
  intros HI Hfuel.
  destruct (freeMemory_core fuel s fl l1 b l2 HI) as [[_ H] | H]; [lia | exact H].
Qed.

Lemma freeMemory_held_inv fuel s fl l1 b l2 s' :
  Inv s fl (l1 ++ b :: l2) →
  freeMemory fuel (b.1 + header_size) s = Done (tt, s') →
  Inv s' (insert_block b fl) (l1 ++ l2) ∧
  host s' = host s ∧ is_initialised s' = is_initialised s.
Proof.
  intros HI Hrun.
  destruct (freeMemory_core fuel s fl l1 b l2 HI) as [[H _] | (s'' & H & H')].
  - rewrite H in Hrun. discriminate.
  - rewrite H in Hrun. inversion Hrun; subst s''. exact H'.
Qed.

(** ** The guard and the invariant *)

Lemma Inv_boot len cap :
  16 <= len → len mod 8 = 0 → len <= cap → cap < 2 ^ 32 →
  Inv (boot len cap) [] [].
Proof.
  intros H1 H2 H3 H4. constructor.
  - repeat split; assumption.
  - reflexivity.
  - constructor.
  - exact I.
  - constructor.
  - constructor.
  - constructor.
  - exact I.
  - intros _. split; reflexivity.
Qed.

Lemma ensureInitialised_inv s fl live :
  Inv s fl live →
  ∃ s1 fl1, ensureInitialised s = Done (tt, s1) ∧ Inv s1 fl1 live ∧
            is_initialised s1 ≠ 0 ∧ host s1 = host s ∧
            (is_initialised s ≠ 0 → s1 = s ∧ fl1 = fl) ∧
            (is_initialised s = 0 → fl1 = [(8, bytes (host s) - 16)] ∧ live = []).
Proof.
  intros HI. destruct (Z.eq_dec (is_initialised s) 0) as [E | E].
  - destruct (inv_fresh _ _ _ HI E) as [-> ->].
    pose proof (inv_host _ _ _ HI) as Hh. pose proof Hh as (H1 & H2 & H3 & H4).
    eexists. exists [(8, bytes (host s) - 16)].
    split; [apply ensureInitialised_first; [exact E | lia] |].
    split; [| split; [fields; lia | split; [reflexivity | split; [contradiction |]]]].
    + constructor; fields.
      * exact Hh.
      * unfold chain. simpl. rdsimp. consts. repeat split; lia.
      * constructor; [| constructor]. unfold block_ok. simpl. zlia.
      * simpl. lia.
      * constructor.
      * constructor.
      * constructor.
      * exact I.
      * discriminate.
    + intros _. split; reflexivity.
  - exists s, fl. split; [apply ensureInitialised_done; exact E |].
    split; [exact HI |]. split; [exact E |]. split; [reflexivity |].
    split; [intros _; split; reflexivity | intros E'; contradiction].
Qed.

Lemma Inv_calls s fl live h :
  Inv s fl live → bytes h = bytes (host s) → capacity h = capacity (host s) →
  Inv (with_host h s) fl live.
Proof.
  intros [Hh Hc Hfok Hg Hlok Hlhdr Hlf Hll Hfr] Hb Hcap.
  constructor; fields; try assumption; try (rewrite Hb; assumption).
  unfold host_ok in *. rewrite Hb, Hcap. exact Hh.
Qed.

(** ** [freeMemory] of the null pointer *)

Lemma freeMemory_null fuel s : freeMemory fuel NULL s = ensureInitialised s.
Proof.
  unfold freeMemory, bind.
  destruct (ensureInitialised s) as [[[] s'] | |]; reflexivity.
Qed.

(** ** [reportFreeMemory] *)

Lemma total_size_bound len fl : ∀ lo,
  gapped lo fl → Forall (block_ok len) fl → 0 <= total_size fl ∧ lo + total_size fl <= Z.max lo len.
Proof.
  induction fl as [| b fl IH]; intros lo Hg Hok.
  - simpl. lia.
  - destruct Hg as (H1 & H2 & Hg). apply Forall_cons in Hok as [Hb Hok].
    destruct (IH _ Hg Hok) as [IH1 IH2]. unfold block_ok in Hb.
    cbn [total_size]. lia.
Qed.

Lemma total_size_app l1 l2 : total_size (l1 ++ l2) = total_size l1 + total_size l2.
Proof. induction l1 as [| b l1 IH]; simpl; [reflexivity |]. rewrite IH. lia. Qed.

Lemma report_loop_spec fl : ∀ fuel cur total s lo,
  chain (mem s) cur fl →
  Forall (block_ok (bytes (host s))) fl →
  gapped lo fl → 0 <= lo → bytes (host s) < 2 ^ 32 →
  0 <= total <= lo →
  report_loop fuel cur total s =
  if (fuel <=? length fl)%nat then OutOfFuel else Done (total + total_size fl, s).
Proof.
  induction fl as [| b fl IH]; intros fuel cur total s lo Hch Hok Hg Hlo Hlen Ht.
  - unfold chain in Hch. simpl in Hch. subst cur.
    destruct fuel; [reflexivity |]. simpl. rewrite Z.add_0_r. reflexivity.
  - destruct Hch as (-> & Hb0 & Hsz & Hch).
    pose proof Hok as Hok0. apply Forall_cons in Hok as [Hb Hok].
    pose proof Hg as (Hb1 & Hb2 & Hg').
    destruct fuel as [| fuel]; [reflexivity |].
    cbn [report_loop length Nat.leb total_size].
    replace (b.1 =? NULL) with false by (symmetry; apply Z.eqb_neq; exact Hb0).
    unfold block_ok in Hb.
    exec. rewrite Hsz.
    rewrite wrap_small by lia.
    rewrite (IH fuel (rd (mem s) b.1) (total + b.2) s (b.1 + 8 + b.2) Hch Hok Hg')
      by lia.
    rewrite Z.add_assoc. reflexivity.
Qed.

Lemma reportFreeMemory_core fuel s fl live :
  Inv s fl live → is_initialised s ≠ 0 →
  (reportFreeMemory fuel s = OutOfFuel ∧ (fuel <= length fl)%nat) ∨
  reportFreeMemory fuel s = Done (total_size fl, s).
Proof.
  intros HI Hi. unfold reportFreeMemory.
  rewrite (bind_done _ _ _ _ _ (ensureInitialised_done s Hi)).
  rewrite bind_get_free_list.
  pose proof HI as [Hh Hc Hfok Hg _ _ _ _ _].
  destruct (decide (fl = [])) as [-> | Hne].
  - right. unfold chain in Hc. simpl in Hc. rewrite Hc. reflexivity.
  - destruct (seg_head _ _ _ _ Hc Hne) as [_ Hhead0].
    replace (free_list s =? NULL) with false by (symmetry; apply Z.eqb_neq; exact Hhead0).
    rewrite (report_loop_spec fl fuel (free_list s) 0 s 0 Hc Hfok Hg)
      by (unfold host_ok in Hh; lia).
    destruct (fuel <=? length fl)%nat eqn:E.
    + left. split; [reflexivity | apply Nat.leb_le; exact E].
    + right. reflexivity.
Qed.

(** ** Growth *)

Lemma blocks_for_spec n :
  0 <= n < 2 ^ 32 →
  (wrap (n + 8) = 0 ∧ blocks_for n = 0) ∨
  (0 < wrap (n + 8) ∧ 1 <= blocks_for n <= 65536 ∧
   wrap (n + 8) <= blocks_for n * 65536 < wrap (n + 8) + 65536).
Proof.
  intros Hn. unfold blocks_for. consts.
  pose proof (wrap_range (n + 8)) as Hw.
  set (b := wrap (n + 8)) in *.
  assert (Hq : 0 <= b / 65536 < 65536) by zlia.
  rewrite (wrap_small (b / 65536 * 65536)) by zlia.
  destruct (b / 65536 * 65536 <? b) eqn:E.
  - apply Z.ltb_lt in E. right. rewrite wrap_small by lia. zlia.
  - apply Z.ltb_ge in E. destruct (Z.eq_dec b 0) as [E0 | E0].
    + left. rewrite E0. split; reflexivity.
    + right. zlia.
Qed.

Lemma grow_fail k h :
  capacity h < bytes h + k * BLKSIZ →
  grow k h = (0, {| bytes := bytes h; capacity := capacity h;
                    calls := calls h ++ [(k, 0)] |}).
Proof.
  intros H. unfold grow.
  replace (bytes h + k * BLKSIZ <=? capacity h) with false
    by (symmetry; apply Z.leb_gt; exact H).
  reflexivity.
Qed.

Lemma grow_ok k h :
  bytes h + k * BLKSIZ <= capacity h →
  grow k h = (wrap (bytes h + k * BLKSIZ),
              {| bytes := bytes h + k * BLKSIZ; capacity := capacity h;
                 calls := calls h ++ [(k, wrap (bytes h + k * BLKSIZ))] |}).
Proof.
  intros H. unfold grow.
  replace (bytes h + k * BLKSIZ <=? capacity h) with true
    by (symmetry; apply Z.leb_le; exact H).
  reflexivity.
Qed.

Lemma bind_call_grow {B} b (k : Z → M B) s :
  bind (call_grow b) k s = k (grow b (host s)).1 (with_host (grow b (host s)).2 s).
Proof. unfold bind, call_grow. destruct (grow b (host s)). reflexivity. Qed.

Lemma bind_call_memoryBytesLength {B} (k : Z → M B) s :
  bind call_memoryBytesLength k s = k (wrap (bytes (host s))) s.
Proof. reflexivity. Qed.

(** A refused growth request returns the null pointer; only the provider's
    record of calls changes. *)
Lemma getMoreMemory_refused fuel n s :
  capacity (host s) < bytes (host s) + blocks_for n * BLKSIZ →
  getMoreMemory fuel n s =
  Done (NULL, with_host (grow (blocks_for n) (host s)).2 s).
Proof.
  intros H. unfold getMoreMemory.
  rewrite bind_call_memoryBytesLength, bind_call_grow.
  rewrite (grow_fail _ _ H). reflexivity.
Qed.

Lemma getMoreMemory_no_pages fuel n s :
  blocks_for n = 0 → 16 <= bytes (host s) <= capacity (host s) →
  capacity (host s) < 2 ^ 32 →
  getMoreMemory fuel n s = Trap.
Proof.
  intros Hk Hlen Hcap. unfold getMoreMemory.
  rewrite bind_call_memoryBytesLength, bind_call_grow. rewrite Hk.
  rewrite grow_ok by (consts; lia). cbn [fst snd].
  rewrite Z.mul_0_l, Z.add_0_r. rewrite !wrap_small by lia.
  replace (bytes (host s) =? 0) with false by (symmetry; apply Z.eqb_neq; lia).
  unfold bind, set_size. rewrite store_trap; [reflexivity |]. fields. lia.
Qed.

Lemma getMoreMemory_grown fuel n s fl live :
  Inv s fl live → is_initialised s ≠ 0 →
  1 <= blocks_for n →
  bytes (host s) + blocks_for n * BLKSIZ <= capacity (host s) →
  (getMoreMemory fuel n s = OutOfFuel ∧ (fuel <= length fl)%nat) ∨
  ∃ s', getMoreMemory fuel n s = Done (free_list s', s') ∧
        free_list s' ≠ NULL ∧
        Inv s' (insert_block (bytes (host s), blocks_for n * BLKSIZ - 8) fl) live ∧
        host s' = (grow (blocks_for n) (host s)).2 ∧
        is_initialised s' = is_initialised s.
Proof.
  intros HI Hi Hk Hcap.
  pose proof HI as [Hh Hc Hfok Hg Hlok Hlhdr Hlf Hll Hfr].
  pose proof Hh as (Hlen16 & Hlen8 & Hlencap & Hcap32).
  set (k := blocks_for n) in *. set (len := bytes (host s)) in *.
  unfold getMoreMemory. fold k.
  rewrite bind_call_memoryBytesLength, bind_call_grow.
  rewrite (grow_ok _ _ Hcap). cbn [fst snd]. fold len.
  consts.
  rewrite (wrap_small len) by lia.
  rewrite (wrap_small (len + k * 65536)) by lia.
  replace (len + k * 65536 =? 0) with false by (symmetry; apply Z.eqb_neq; lia).
  exec.
  rewrite (wrap_small (len + k * 65536 - len - 8)) by lia.
  rewrite (wrap_small (len + 8)) by lia.
  replace (len + k * 65536 - len - 8) with (k * 65536 - 8) by lia.
  match goal with |- context [bind (freeMemory fuel _) _ ?s2] => set (s2' := s2) end.
  assert (HI2 : Inv s2' fl ([] ++ (len, k * 65536 - 8) :: live)).
  { subst s2'. constructor; fields.
    - unfold host_ok. fields. repeat split; try lia. zlia.
    - eapply seg_same_but; [apply same_but_both | | exact Hc].
      clear Hc. fold len in Hfok. forall_lia.
    - fold len in Hfok. clear Hc. forall_lia.
    - exact Hg.
    - constructor.
      + unfold block_ok. cbn [fst snd]. zlia.
      + fold len in Hlok. forall_lia.
    - constructor.
      + unfold allocated. cbn [fst snd]. rdsimp. consts. split; reflexivity.
      + fold len in Hlok.
        rewrite Forall_forall in *. intros l Hl.
        specialize (Hlok l Hl). specialize (Hlhdr l Hl). unfold block_ok in Hlok.
        eapply allocated_same_but; [apply same_but_both | | | | exact Hlhdr]; lia.
    - constructor; [| exact Hlf].
      fold len in Hfok. clear Hc. forall_lia.
    - split; [| exact Hll]. fold len in Hlok. forall_lia.
    - intros E. contradiction. }
  change (len + 8) with ((len, k * 65536 - 8).1 + header_size).
  destruct (freeMemory_core fuel s2' fl [] _ live HI2) as [[Hf Hfuel] | (s3 & Hf & HI3 & Hh3 & Hi3)].
  - left. split; [| exact Hfuel]. apply bind_fuel. exact Hf.
  - right. rewrite (bind_done _ _ _ _ _ Hf).
    exists s3. split; [reflexivity |].
    split; [| split; [exact HI3 | split; [exact Hh3 | exact Hi3]]].
    pose proof (inv_chain _ _ _ HI3) as Hc3.
    eapply seg_head; [exact Hc3 |].
    cbn [app]. destruct fl as [| c fl']; [discriminate |].
    cbn [insert_block]. destruct (_ <? _); apply merge_next_nonempty.
Qed.

(** ** The first-fit scan *)

Lemma alloc_loop_skip mid : ∀ fuel r bph cur prev t s,
  seg (mem s) cur t mid →
  Forall (λ b, 0 <= b.1 ∧ b.1 + 8 <= bytes (host s) ∧ b.1 mod 4 = 0 ∧ b.2 < r) mid →
  alloc_loop fuel r bph cur prev s =
  if (fuel <=? length mid)%nat then OutOfFuel
  else alloc_loop (fuel - length mid) r bph t (last_addr prev mid) s.
Proof.
  induction mid as [| b mid IH]; intros fuel r bph cur prev t s Hseg HF.
  - simpl in *. subst t. destruct fuel; reflexivity.
  - destruct Hseg as (-> & Hb & Hsz & Hseg).
    apply Forall_cons in HF as [(Hb1 & Hb2 & Hb4 & Hb3) HF].
    destruct fuel as [| fuel]; [reflexivity |].
    cbn [alloc_loop length Nat.leb Nat.sub].
    replace (b.1 =? NULL) with false by (symmetry; apply Z.eqb_neq; exact Hb).
    exec. rewrite Hsz.
    replace (b.2 =? r) with false by (symmetry; apply Z.eqb_neq; lia).
    replace (r <? b.2) with false by (symmetry; apply Z.ltb_ge; lia).
    exec.
    rewrite (IH fuel r bph (rd (mem s) b.1) b.1 t s Hseg HF).
    reflexivity.
Qed.

(** No block is large enough: the scan runs off the end and leaves the
    state as it was. *)
Lemma alloc_loop_no_fit fuel r bph s fl :
  chain (mem s) (free_list s) fl →
  Forall (block_ok (bytes (host s))) fl →
  Forall (λ b, b.2 < r) fl →
  alloc_loop fuel r bph (free_list s) (free_list s) s =
  if (fuel <=? length fl)%nat then OutOfFuel else Done (None, s).
Proof.
  intros Hc Hok Hsmall.
  rewrite (alloc_loop_skip fl fuel r bph _ _ NULL s Hc) by (clear Hc; forall_lia).
  destruct (fuel <=? length fl)%nat eqn:E; [reflexivity |].
  apply Nat.leb_gt in E.
  destruct (fuel - length fl)%nat eqn:Ef; [lia |]. reflexivity.
Qed.

Lemma first_fit_cases r (fl : list block) :
  Forall (λ b, b.2 < r) fl ∨
  ∃ pre b post, fl = pre ++ b :: post ∧ Forall (λ c, c.2 < r) pre ∧ r <= b.2.
Proof.
  induction fl as [| c fl IH]; [left; constructor |].
  destruct (Z_lt_le_dec c.2 r) as [Hlt | Hge].
  - destruct IH as [IH | (pre & b & post & -> & Hpre & Hb)].
    + left. constructor; assumption.
    + right. exists (c :: pre), b, post. repeat split; [constructor; assumption | exact Hb].
  - right. exists [], c, fl. repeat split; [constructor | exact Hge].
Qed.

Lemma taken_ok len r pre b post :
  Forall (block_ok len) (pre ++ b :: post) →
  0 <= r → r mod 8 = 0 → r <= b.2 →
  Forall (block_ok len) (taken r pre b post).
Proof.
  intros HF Hr Hr8 Hrb.
  apply Forall_app in HF as [Hpre HF]. apply Forall_cons in HF as [Hb Hpost].
  unfold taken. destruct (b.2 =? r) eqn:E.
  - destruct pre; [constructor |]. apply Forall_app. split; assumption.
  - apply Z.eqb_neq in E. apply Forall_app. split; [exact Hpre |].
    constructor; [| exact Hpost]. unfold block_ok in *. cbn [fst snd]. zlia.
Qed.

Lemma taken_gapped lo r pre b post :
  gapped lo (pre ++ b :: post) →
  0 <= r → r mod 8 = 0 → b.2 mod 8 = 0 → r <= b.2 →
  gapped lo (taken r pre b post).
Proof.
  intros Hg Hr Hr8 Hb8 Hrb.
  apply gapped_app in Hg as [Hpre (Hb1 & Hb2 & Hpost)].
  unfold taken. destruct (b.2 =? r) eqn:E.
  - destruct pre as [| c pre]; [exact I |]. apply gapped_app. split; [exact Hpre |].
    eapply gapped_weaken; [| exact Hpost]. lia.
  - apply Z.eqb_neq in E. apply gapped_app. split; [exact Hpre |].
    cbn [gapped fst snd]. repeat split; [lia | zlia |].
    eapply gapped_weaken; [| exact Hpost]. lia.
Qed.

Lemma taken_disjoint l r pre b post :
  Forall (disjoint l) (pre ++ b :: post) →
  0 <= r → r mod 8 = 0 → b.2 mod 8 = 0 → r <= b.2 →
  Forall (disjoint l) (taken r pre b post).
Proof.
  intros HF Hr Hr8 Hb8 Hrb.
  apply Forall_app in HF as [Hpre HF]. apply Forall_cons in HF as [Hb Hpost].
  unfold taken. destruct (b.2 =? r) eqn:E.
  - destruct pre; [constructor |]. apply Forall_app. split; assumption.
  - apply Z.eqb_neq in E. apply Forall_app. split; [exact Hpre |].
    constructor; [| exact Hpost]. unfold disjoint in *. cbn [fst snd]. zlia.
Qed.

Lemma taken_disjoint_self lo r pre b post :
  gapped lo (pre ++ b :: post) →
  0 <= r → r mod 8 = 0 → b.2 mod 8 = 0 → r <= b.2 →
  Forall (disjoint (b.1, r)) (taken r pre b post).
Proof.
  intros Hg Hr Hr8 Hb8 Hrb.
  apply gapped_app in Hg as [Hpre (Hb1 & Hb2 & Hpost)].
  pose proof (gapped_last_end _ _ Hpre) as Hlo.
  apply gapped_before in Hpre. apply gapped_above in Hpost.
  assert (Hpre' : Forall (disjoint (b.1, r)) pre) by forall_lia.
  assert (Hpost' : Forall (disjoint (b.1, r)) post) by forall_lia.
  unfold taken. destruct (b.2 =? r) eqn:E.
  - destruct pre; [constructor |]. apply Forall_app. split; assumption.
  - apply Z.eqb_neq in E. apply Forall_app. split; [exact Hpre' |].
    constructor; [| exact Hpost']. unfold disjoint. cbn [fst snd]. lia.
Qed.

Lemma taken_exact_head r b post : b.2 = r → taken r [] b post = [].
Proof. intros E. unfold taken. rewrite E, Z.eqb_refl. reflexivity. Qed.

Lemma taken_exact_interior r pre b post :
  b.2 = r → pre ≠ [] → taken r pre b post = pre ++ post.
Proof. intros E H. unfold taken. rewrite E, Z.eqb_refl. destruct pre; [contradiction | reflexivity]. Qed.

Lemma taken_split r pre b post :
  b.2 ≠ r → taken r pre b post = pre ++ (b.1 + (r + 8), b.2 - (r + 8)) :: post.
Proof.
  intros E. unfold taken.
  replace (b.2 =? r) with false by (symmetry; apply Z.eqb_neq; exact E). reflexivity.
Qed.

Lemma Inv_after_alloc s s' r pre b post live :
  Inv s (pre ++ b :: post) live →
  0 <= r → r mod 8 = 0 → r <= b.2 →
  host s' = host s →
  is_initialised s' = is_initialised s →
  chain (mem s') (free_list s') (taken r pre b post) →
  allocated (mem s') (b.1, r) →
  Forall (λ l, rd (mem s') l.1 = rd (mem s) l.1 ∧
               rd (mem s') (l.1 + 4) = rd (mem s) (l.1 + 4)) live →
  Inv s' (taken r pre b post) ((b.1, r) :: live).
Proof.
  intros HI Hr Hr8 Hrb Hhost Hinit Hch Halloc Hagree.
  destruct HI as [Hh Hc Hfok Hg Hlok Hlhdr Hlf Hll Hfr].
  assert (Hb : block_ok (bytes (host s)) b).
  { apply Forall_app in Hfok as [_ H]. apply Forall_cons in H as [H _]. exact H. }
  pose proof Hb as (Hb1 & Hb2 & Hb3 & Hb4 & Hb5).
  constructor.
  - rewrite Hhost. exact Hh.
  - exact Hch.
  - rewrite Hhost. apply taken_ok; assumption.
  - apply taken_gapped; assumption.
  - rewrite Hhost. constructor; [| exact Hlok].
    unfold block_ok. cbn [fst snd]. repeat split; try assumption; lia.
  - constructor; [exact Halloc |].
    rewrite Forall_forall in *. intros l Hl.
    destruct (Hagree l Hl) as [E1 E2].
    eapply allocated_agree; [exact E1 | exact E2 | apply Hlhdr; exact Hl].
  - constructor.
    + eapply taken_disjoint_self; eassumption.
    + eapply Forall_impl; [exact Hlf |]. intros l Hl.
      apply taken_disjoint; assumption.
  - split; [| exact Hll].
    rewrite Forall_forall in *. intros l Hl.
    specialize (Hlf l Hl). rewrite Forall_forall in Hlf.
    assert (Hd : disjoint l b) by (apply Hlf; apply elem_of_app; right; constructor).
    specialize (Hlok l Hl). unfold disjoint, block_ok in *. cbn [fst snd]. lia.
  - rewrite Hinit. intros E. apply Hfr in E as [E _].
    destruct pre; discriminate.
Qed.

Ltac forall_pt :=
  rewrite ?Forall_forall in *;
  let x := fresh "x" in
  let Hx := fresh "Hx" in
  intros x Hx;
  repeat match goal with
         | H : ∀ y, y ∈ _ → _ |- _ => pose proof (H x Hx); clear H
         end;
  destruct x; unfold block_ok, disjoint in *; cbn [fst snd] in *.

Lemma head_addr_elem (l : list block) : l ≠ [] → ∃ c, c ∈ l ∧ head_addr l = c.1.
Proof. destruct l as [| c l]; [congruence |]. intros _. exists c. split; [constructor | reflexivity]. Qed.

Lemma alloc_loop_fit fuel r s pre b post live :
  Inv s (pre ++ b :: post) live →
  0 <= r → r mod 8 = 0 → r <= b.2 →
  Forall (λ c, c.2 < r) pre →
  (alloc_loop fuel r (wrap (r + header_size)) (free_list s) (free_list s) s = OutOfFuel
   ∧ (fuel <= length pre)%nat) ∨
  ∃ s', alloc_loop fuel r (wrap (r + header_size)) (free_list s) (free_list s) s
        = Done (Some (b.1 + 8), s') ∧
        Inv s' (taken r pre b post) ((b.1, r) :: live) ∧
        host s' = host s ∧ is_initialised s' = is_initialised s.
Proof.
  intros HI Hr Hr8 Hrb Hsmall.
  pose proof HI as [Hh Hc Hfok Hg Hlok Hlhdr Hlf Hll Hfr].
  assert (Hlen : bytes (host s) < 2 ^ 32) by (unfold host_ok in Hh; lia).
  apply chain_app in Hc as [Hseg Hbc]. cbn [head_addr] in Hseg, Hbc.
  destruct Hbc as (_ & Hb0 & Hbsz & Hpc).
  pose proof (chain_head _ _ _ Hpc) as Hnext.
  apply Forall_app in Hfok as [Hpreok Hfok]. apply Forall_cons in Hfok as [Hbok Hpostok].
  apply gapped_app in Hg as [Hgpre (Hb1 & Hb2 & Hgpost)].
  pose proof (gapped_before _ _ Hgpre) as Hprebefore.
  pose proof (gapped_above _ _ Hgpost) as Hpostabove.
  assert (Hlb : Forall (λ l, disjoint l b) live).
  { eapply Forall_impl; [exact Hlf |]. intros l Hl.
    rewrite Forall_forall in Hl. apply Hl. apply elem_of_app. right. constructor. }
  rewrite (alloc_loop_skip pre fuel r _ _ _ b.1 s Hseg) by (clear Hseg; forall_lia).
  destruct (fuel <=? length pre)%nat eqn:Efuel.
  { left. split; [reflexivity | apply Nat.leb_le; exact Efuel]. }
  right. apply Nat.leb_gt in Efuel.
  destruct (fuel - length pre)%nat as [| f] eqn:Ef; [lia |].
  destruct b as [a T]. cbn [fst snd] in *.
  pose proof Hbok as (Ha8 & Ham & HT0 & HTm & Haend). cbn [fst snd] in *.
  cbn [alloc_loop].
  replace (a =? NULL) with false by (symmetry; apply Z.eqb_neq; exact Hb0).
  consts. exec. rewrite Hbsz.
  rewrite (wrap_small (r + 8)) by lia.
  rewrite (wrap_small (a + 8)) by lia.
  destruct (T =? r) eqn:E.
  - (* exact match *)
    apply Z.eqb_eq in E. subst r. exec.
    destruct (rev_case pre) as [-> | (pre0 & p & ->)].
    + cbn [seg] in Hseg. rewrite <- Hseg. rewrite Z.eqb_refl.
      exec. eexists. split; [reflexivity |].
      split; [| split; reflexivity].
      apply (Inv_after_alloc s _ T [] (free_list s, T) post live); try assumption;
        try reflexivity; fields.
      * rewrite Hseg. exact HI.
      * rewrite taken_exact_head by reflexivity. reflexivity.
      * unfold allocated. cbn [fst snd]. rdsimp. rewrite <- Hseg in Hbsz. tauto.
      * rewrite <- Hseg in Hlb. clear Hlf. forall_pt. split; rdsimp; reflexivity.
    + destruct (head_addr_elem (pre0 ++ [p]) ltac:(destruct pre0; discriminate))
        as (c & Hcin & Hchead).
      destruct (seg_head _ _ _ _ Hseg ltac:(destruct pre0; discriminate)) as [Hhead _].
      assert (Hca : c.1 < a).
      { rewrite Forall_forall in Hprebefore, Hpreok.
        specialize (Hprebefore c Hcin). specialize (Hpreok c Hcin).
        unfold block_ok in Hpreok. lia. }
      replace (a =? free_list s) with false by (symmetry; apply Z.eqb_neq; lia).
      rewrite last_addr_snoc.
      pose proof Hpreok as Hpreok'.
      apply Forall_app in Hpreok' as [Hpre0ok Hpok]. apply Forall_cons in Hpok as [Hpok _].
      pose proof Hprebefore as Hpb.
      apply Forall_app in Hpb as [_ Hpb]. apply Forall_cons in Hpb as [Hpb _].
      unfold block_ok in Hpok.
      exec. eexists. split; [reflexivity |].
      split; [| split; reflexivity].
      apply (Inv_after_alloc s _ T (pre0 ++ [p]) (a, T) post live); try assumption;
        try reflexivity; fields.
      * rewrite taken_exact_interior by (try reflexivity; destruct pre0; discriminate).
        apply chain_app. split.
        -- apply seg_app in Hseg as (mid & Hseg0 & Hsegp).
           destruct Hsegp as (-> & Hp0 & Hpsz & _).
           apply seg_app. exists p.1. split.
           ++ eapply seg_agree; [| exact Hseg0].
              apply gapped_app in Hgpre as [Hgpre0 (Hp1 & _)].
              apply gapped_before in Hgpre0.
              clear Hseg0 Hprebefore Hpreok Hsmall.
              forall_pt. split; rdsimp; reflexivity.
           ++ cbn [seg]. rdsimp. repeat split; assumption.
        -- unfold chain. rewrite <- Hnext.
           eapply seg_agree; [| exact Hpc].
           clear Hpc. forall_pt. split; rdsimp; reflexivity.
      * unfold allocated. cbn [fst snd]. rdsimp. tauto.
      * assert (Hlp : Forall (λ l, disjoint l p) live).
        { eapply Forall_impl; [exact Hlf |]. intros l Hl.
          rewrite Forall_forall in Hl. apply Hl.
          apply elem_of_app. left. apply elem_of_app. right. constructor. }
        clear Hlf. forall_pt. split; rdsimp; reflexivity.
  - (* a larger block is split *)
    apply Z.eqb_neq in E.
    replace (r <? T) with true by (symmetry; apply Z.ltb_lt; lia).
    assert (HrT : r + 8 <= T) by zlia.
    rewrite (wrap_small (a + (r + 8))) by lia.
    rewrite (wrap_small (T - (r + 8))) by lia.
    exec. rdsimp.
    destruct (rev_case pre) as [-> | (pre0 & p & ->)].
    + cbn [seg] in Hseg. rewrite <- Hseg. rewrite Z.eqb_refl.
      exec. eexists. split; [reflexivity |].
      split; [| split; reflexivity].
      apply (Inv_after_alloc s _ r [] (free_list s, T) post live); try assumption;
        try reflexivity; fields.
      * rewrite Hseg. exact HI.
      * rewrite taken_split by (cbn [snd]; lia). cbn [app fst snd].
        unfold chain. cbn [seg fst snd]. rdsimp. consts.
        repeat split; try lia.
        rewrite Hseg.
        eapply seg_agree; [| exact Hpc].
        clear Hpc. forall_pt. split; rdsimp; reflexivity.
      * unfold allocated. cbn [fst snd]. rdsimp. split; reflexivity.
      * rewrite <- Hseg in Hlb. clear Hlf. forall_pt. split; rdsimp; reflexivity.
    + destruct (head_addr_elem (pre0 ++ [p]) ltac:(destruct pre0; discriminate))
        as (c & Hcin & Hchead).
      destruct (seg_head _ _ _ _ Hseg ltac:(destruct pre0; discriminate)) as [Hhead _].
      assert (Hca : c.1 < a).
      { rewrite Forall_forall in Hprebefore, Hpreok.
        specialize (Hprebefore c Hcin). specialize (Hpreok c Hcin).
        unfold block_ok in Hpreok. lia. }
      replace (a =? free_list s) with false by (symmetry; apply Z.eqb_neq; lia).
      rewrite last_addr_snoc.
      pose proof Hpreok as Hpreok'.
      apply Forall_app in Hpreok' as [Hpre0ok Hpok]. apply Forall_cons in Hpok as [Hpok _].
      pose proof Hprebefore as Hpb.
      apply Forall_app in Hpb as [_ Hpb]. apply Forall_cons in Hpb as [Hpb _].
      unfold block_ok in Hpok.
      exec. eexists. split; [reflexivity |].
      split; [| split; reflexivity].
      apply (Inv_after_alloc s _ r (pre0 ++ [p]) (a, T) post live); try assumption;
        try reflexivity; fields.
      * rewrite taken_split by (cbn [snd]; lia). cbn [fst snd].
        apply chain_app. cbn [head_addr fst]. split.
        -- apply seg_app in Hseg as (mid & Hseg0 & Hsegp).
           destruct Hsegp as (-> & Hp0 & Hpsz & _).
           apply seg_app. exists p.1. split.
           ++ eapply seg_agree; [| exact Hseg0].
              apply gapped_app in Hgpre as [Hgpre0 (Hp1 & _)].
              apply gapped_before in Hgpre0.
              clear Hseg0 Hprebefore Hpreok Hsmall.
              forall_pt. split; rdsimp; reflexivity.
           ++ cbn [seg]. rdsimp. repeat split; assumption.
        -- unfold chain. cbn [seg fst snd]. rdsimp. consts.
           repeat split; try lia.
           eapply seg_agree; [| exact Hpc].
           clear Hpc. forall_pt. split; rdsimp; reflexivity.
      * unfold allocated. cbn [fst snd]. rdsimp. split; reflexivity.
      * assert (Hlp : Forall (λ l, disjoint l p) live).
        { eapply Forall_impl; [exact Hlf |]. intros l Hl.
          rewrite Forall_forall in Hl. apply Hl.
          apply elem_of_app. left. apply elem_of_app. right. constructor. }
        clear Hlf. forall_pt. split; rdsimp; reflexivity.
Qed.

(** ** [allocateMemory] *)

Lemma bind_assoc {A B C} (c : M A) (k : A → M B) (k' : B → M C) s :
  bind (bind c k) k' s = bind c (λ a, bind (k a) k') s.
Proof. unfold bind. destruct (c s) as [[a s'] | |]; reflexivity. Qed.

Lemma bind_trap {A B} (c : M A) (k : A → M B) s :
  c s = Trap → bind c k s = Trap.
Proof. intros H. unfold bind. rewrite H. reflexivity. Qed.

Lemma Inv_nonempty_initialised s fl live : Inv s fl live → fl ≠ [] → is_initialised s ≠ 0.
Proof. intros HI Hl E. apply (inv_fresh _ _ _ HI) in E as [E _]. contradiction. Qed.

(** A request served from the free list, without growth. *)
Lemma allocateMemory_fit fuel n s pre b post live :
  Inv s (pre ++ b :: post) live →
  0 <= n < 2 ^ 32 →
  padded n <= b.2 →
  Forall (λ c, c.2 < padded n) pre →
  (length pre < fuel)%nat →
  ∃ s', allocateMemory fuel n s = Done (b.1 + 8, s') ∧
        Inv s' (taken (padded n) pre b post) ((b.1, padded n) :: live) ∧
        host s' = host s ∧ is_initialised s' = is_initialised s.
Proof.
  intros HI Hn Hrb Hsmall Hfuel.
  pose proof (Inv_nonempty_initialised _ _ _ HI ltac:(destruct pre; discriminate)) as Hi.
  pose proof (inv_chain _ _ _ HI) as Hc.
  destruct (seg_head _ _ _ _ Hc ltac:(destruct pre; discriminate)) as [_ Hhead0].
  destruct fuel as [| f]; [lia |].
  cbn [allocateMemory].
  rewrite (bind_done _ _ _ _ _ (ensureInitialised_done s Hi)).
  rewrite bind_get_free_list.
  replace (free_list s =? NULL) with false by (symmetry; apply Z.eqb_neq; exact Hhead0).
  rewrite bind_ret. cbn [negb]. rewrite bind_get_free_list.
  pose proof (padded_range n) as Hr. pose proof (padded_mod8 n) as Hr8.
  destruct (alloc_loop_fit (S f) (padded n) s pre b post live HI ltac:(lia) Hr8 Hrb Hsmall)
    as [[_ Hbad] | (s' & Hrun & HI' & Hh' & Hi')]; [lia |].
  rewrite (bind_done _ _ _ _ _ Hrun).
  exists s'. split; [reflexivity |]. split; [exact HI' |]. split; assumption.
Qed.

(** Every call that returns leaves the invariant in place; a non-null
    result is a block the client now holds. *)
Lemma allocateMemory_inv : ∀ fuel n s fl live p s',
  Inv s fl live →
  0 <= n < 2 ^ 32 →
  allocateMemory fuel n s = Done (p, s') →
  ∃ fl', Inv s' fl'
           (if p =? NULL then live
            else (p - header_size, rd (mem s') (p - header_size + 4)) :: live).
Proof.
  induction fuel as [| f IH]; intros n s fl live p s' HI Hn Hrun; [discriminate |].
  cbn [allocateMemory] in Hrun.
  destruct (ensureInitialised_inv s fl live HI) as (s1 & fl1 & Hinit & HI1 & Hi1 & Hh1 & _).
  rewrite (bind_done _ _ _ _ _ Hinit) in Hrun.
  rewrite bind_get_free_list in Hrun.
  pose proof (padded_range n) as Hr. pose proof (padded_mod8 n) as Hr8.
  set (r := padded n) in *.
  pose proof (wrap_range (r + header_size)) as Hbph.
  set (bph := wrap (r + header_size)) in *.
  pose proof (inv_host _ _ _ HI1) as (Hlen16 & Hlen8 & Hlencap & Hcap32).
  (* the list the scan starts from *)
  assert (Hstage :
    (p = NULL ∧ ∃ fl', Inv s' fl' live) ∨
    ∃ s2 fl2, Inv s2 fl2 live ∧ is_initialised s2 ≠ 0 ∧
      bind (alloc_loop (S f) r bph (free_list s2) (free_list s2))
        (λ found, match found with
                  | Some p => ret p
                  | None =>
                      bind (getMoreMemory (S f) r)
                        (λ more, if more =? NULL then ret NULL
                                 else allocateMemory f bph)
                  end) s2 = Done (p, s')).
  { destruct (free_list s1 =? NULL) eqn:Ehead.
    - apply Z.eqb_eq in Ehead.
      pose proof (inv_chain _ _ _ HI1) as Hc1. rewrite Ehead in Hc1.
      apply chain_null in Hc1. subst fl1.
      rewrite bind_assoc in Hrun.
      destruct (blocks_for_spec bph ltac:(lia)) as [[_ Hk] | (_ & Hk & _)].
      { rewrite (bind_trap _ _ _ (getMoreMemory_no_pages (S f) bph s1 Hk
                   ltac:(lia) Hcap32)) in Hrun. discriminate. }
      destruct (Z_lt_le_dec (capacity (host s1)) (bytes (host s1) + blocks_for bph * BLKSIZ))
        as [Hno | Hyes].
      + rewrite (bind_done _ _ _ _ _ (getMoreMemory_refused (S f) bph s1 Hno)) in Hrun.
        rewrite bind_assoc, bind_set_free_list, bind_ret in Hrun.
        cbn in Hrun. inversion Hrun; subst p s'.
        left. split; [reflexivity |]. exists [].
        rewrite (grow_fail _ _ Hno). cbn [snd].
        replace (with_free_list NULL _) with
          (with_host {| bytes := bytes (host s1); capacity := capacity (host s1);
                        calls := calls (host s1) ++ [(blocks_for bph, 0)] |} s1)
          by (destruct s1; cbn in *; subst; reflexivity).
        apply Inv_calls; [exact HI1 | reflexivity | reflexivity].
      + destruct (getMoreMemory_grown (S f) bph s1 [] live HI1 Hi1 ltac:(lia) Hyes)
          as [[Hbad _] | (s2 & Hg & Hfl2 & HI2 & Hh2 & Hi2)].
        { rewrite (bind_fuel _ _ _ Hbad) in Hrun. discriminate. }
        rewrite (bind_done _ _ _ _ _ Hg) in Hrun.
        rewrite bind_assoc, bind_set_free_list, bind_ret in Hrun.
        replace (free_list s2 =? NULL) with false in Hrun
          by (symmetry; apply Z.eqb_neq; exact Hfl2).
        cbn [negb] in Hrun. rewrite with_free_list_id in Hrun.
        rewrite bind_get_free_list in Hrun.
        right. exists s2. eexists. split; [exact HI2 |].
        split; [rewrite Hi2; exact Hi1 | exact Hrun].
    - rewrite bind_ret in Hrun. cbn [negb] in Hrun.
      rewrite bind_get_free_list in Hrun.
      right. exists s1, fl1. split; [exact HI1 |]. split; [exact Hi1 | exact Hrun]. }
  destruct Hstage as [[-> Hdone] | (s2 & fl2 & HI2 & Hi2 & Hscan)]; [exact Hdone |].
  clear Hrun HI Hinit HI1 Hi1 Hh1 Hlen16 Hlen8 Hlencap Hcap32 s fl s1 fl1.
  pose proof (inv_host _ _ _ HI2) as (Hlen16 & Hlen8 & Hlencap & Hcap32).
  destruct (first_fit_cases r fl2) as [Hnone | (pre & b & post & -> & Hsmall & Hrb)].
  - (* nothing fits: grow and retry *)
    rewrite (bind_done _ _ _ (None : option Z) s2) in Hscan.
    2:{ rewrite (alloc_loop_no_fit (S f) r bph s2 fl2 (inv_chain _ _ _ HI2)
                  (inv_free_ok _ _ _ HI2) Hnone).
        destruct (S f <=? length fl2)%nat eqn:E; [| reflexivity].
        exfalso.
        rewrite (bind_fuel _ _ s2) in Hscan; [discriminate |].
        rewrite (alloc_loop_no_fit (S f) r bph s2 fl2 (inv_chain _ _ _ HI2)
                  (inv_free_ok _ _ _ HI2) Hnone). rewrite E. reflexivity. }
    destruct (blocks_for_spec r ltac:(lia)) as [[_ Hk] | (_ & Hk & _)].
    { rewrite (bind_trap _ _ _ (getMoreMemory_no_pages (S f) r s2 Hk
                 ltac:(lia) Hcap32)) in Hscan. discriminate. }
    destruct (Z_lt_le_dec (capacity (host s2)) (bytes (host s2) + blocks_for r * BLKSIZ))
      as [Hno | Hyes].
    + rewrite (bind_done _ _ _ _ _ (getMoreMemory_refused (S f) r s2 Hno)) in Hscan.
      cbn in Hscan. inversion Hscan; subst p s'.
      exists fl2. cbn [Z.eqb NULL].
      rewrite (grow_fail _ _ Hno). cbn [snd].
      apply Inv_calls; [exact HI2 | reflexivity | reflexivity].
    + destruct (getMoreMemory_grown (S f) r s2 fl2 live HI2 Hi2 ltac:(lia) Hyes)
        as [[Hbad _] | (s3 & Hg & Hfl3 & HI3 & Hh3 & Hi3)].
      { rewrite (bind_fuel _ _ _ Hbad) in Hscan. discriminate. }
      rewrite (bind_done _ _ _ _ _ Hg) in Hscan.
      replace (free_list s3 =? NULL) with false in Hscan
        by (symmetry; apply Z.eqb_neq; exact Hfl3).
      eapply IH; [exact HI3 | | exact Hscan]. lia.
  - (* served from the list *)
    destruct (alloc_loop_fit (S f) r s2 pre b post live HI2 ltac:(lia) Hr8 Hrb Hsmall)
      as [[Hbad _] | (s3 & Hfit & HI3 & Hh3 & Hi3)].
    { fold bph in Hbad. rewrite (bind_fuel _ _ _ Hbad) in Hscan. discriminate. }
    fold bph in Hfit. rewrite (bind_done _ _ _ _ _ Hfit) in Hscan.
    cbn in Hscan. inversion Hscan; subst p s'.
    pose proof (inv_free_ok _ _ _ HI2) as Hok.
    apply Forall_app in Hok as [_ Hok]. apply Forall_cons in Hok as [Hbok _].
    unfold block_ok in Hbok.
    replace (b.1 + 8 =? NULL) with false by (symmetry; apply Z.eqb_neq; consts; lia).
    pose proof (inv_live_hdr _ _ _ HI3) as Hhdr.
    apply Forall_cons in Hhdr as [[_ Hsz] _]. cbn [fst snd] in Hsz.
    consts. replace (b.1 + 8 - 8) with b.1 by lia. rewrite Hsz.
    eexists. exact HI3.
Qed.

Lemma reportFreeMemory_total fuel s fl live :
  Inv s fl live → is_initialised s ≠ 0 → (length fl < fuel)%nat →
  reportFreeMemory fuel s = Done (total_size fl, s).
Proof.
  intros HI Hi Hfuel.
  destruct (reportFreeMemory_core fuel s fl live HI Hi) as [[_ H] | H]; [lia | exact H].
Qed.

(** ** Every operation preserves the invariant *)

Lemma getMoreMemory_inv fuel n s fl live p s' :
  Inv s fl live → is_initialised s ≠ 0 → 0 <= n < 2 ^ 32 →
  getMoreMemory fuel n s = Done (p, s') →
  ∃ fl', Inv s' fl' live.
Proof.
  intros HI Hi Hn Hrun.
  pose proof (inv_host _ _ _ HI) as (Hlen16 & Hlen8 & Hlencap & Hcap32).
  destruct (blocks_for_spec n Hn) as [[_ Hk] | (_ & Hk & _)].
  { rewrite getMoreMemory_no_pages in Hrun by (try assumption; lia). discriminate. }
  destruct (Z_lt_le_dec (capacity (host s)) (bytes (host s) + blocks_for n * BLKSIZ))
    as [Hno | Hyes].
  - rewrite (getMoreMemory_refused fuel n s Hno) in Hrun.
    inversion Hrun; subst p s'. exists fl.
    rewrite (grow_fail _ _ Hno). cbn [snd].
    apply Inv_calls; [exact HI | reflexivity | reflexivity].
  - destruct (getMoreMemory_grown fuel n s fl live HI Hi ltac:(lia) Hyes)
      as [[Hbad _] | (s2 & Hg & _ & HI2 & _)].
    + rewrite Hbad in Hrun. discriminate.
    + rewrite Hg in Hrun. inversion Hrun; subst. eexists. exact HI2.
Qed.

Lemma step_inv s live s' live' fl :
  Inv s fl live → step (s, live) (s', live') → ∃ fl', Inv s' fl' live'.
Proof.
  intros HI Hstep. inversion Hstep; subst.
  - eapply allocateMemory_inv; eassumption.
  - match goal with H : freeMemory _ _ _ = _ |- _ =>
      destruct (freeMemory_held_inv _ _ _ _ _ _ _ HI H) as (HI' & _) end.
    eexists. exact HI'.
  - match goal with H : freeMemory _ _ _ = _ |- _ => rewrite freeMemory_null in H;
      rename H into Hrun end.
    destruct (ensureInitialised_inv _ _ _ HI) as (s1 & fl1 & Hinit & HI1 & _).
    rewrite Hinit in Hrun. inversion Hrun; subst. eexists. exact HI1.
  - match goal with H : reportFreeMemory _ _ = _ |- _ => rename H into Hrun end.
    destruct (ensureInitialised_inv _ _ _ HI) as (s1 & fl1 & Hinit & HI1 & Hi1 & _).
    unfold reportFreeMemory in Hrun.
    rewrite (bind_done _ _ _ _ _ Hinit) in Hrun.
    assert (Hrep : reportFreeMemory fuel s1 = Done (t, s')).
    { unfold reportFreeMemory.
      rewrite (bind_done _ _ _ _ _ (ensureInitialised_done s1 Hi1)). exact Hrun. }
    destruct (reportFreeMemory_core fuel s1 fl1 live' HI1 Hi1) as [[Hbad _] | Hgood].
    + rewrite Hbad in Hrep. discriminate.
    + rewrite Hgood in Hrep. inversion Hrep; subst. eexists. exact HI1.
  - eapply getMoreMemory_inv; eassumption.
Qed.

Lemma reachable_inv len cap s live :
  16 <= len → len mod 8 = 0 → len <= cap → cap < 2 ^ 32 →
  reachable len cap s live → ∃ fl, Inv s fl live.
Proof.
  intros H1 H2 H3 H4 Hreach. induction Hreach as [| s live s' live' _ IH Hstep].
  - exists []. apply Inv_boot; assumption.
  - destruct IH as (fl & HI). eapply step_inv; eassumption.
Qed.

Lemma Inv_sorted s fl live : Inv s fl live → free_list_sorted s.
Proof.
  intros HI. exists fl. split; [exact (inv_chain _ _ _ HI) |].
  eapply gapped_increasing. exact (inv_gapped _ _ _ HI).
Qed.

(** * The claims *)

(** Closed goals about concrete states: take the structure apart, then
    evaluate the atoms. *)
Ltac concrete :=
  repeat constructor;
  try (vm_compute; first [reflexivity | discriminate | exact I]).

(** ** C1: an exact match is unlinked and every other block stays *)

(** An exact match behind the head is unlinked, and every other block
    stays in the list. *)
Lemma exact_match_interior_is_unlinked fuel n s pre b post live :
  Inv s (pre ++ b :: post) live →
  0 <= n < 2 ^ 32 → padded n = b.2 → pre ≠ [] →
  Forall (λ c, c.2 < padded n) pre →
  (length pre < fuel)%nat →
  ∃ s', allocateMemory fuel n s = Done (b.1 + header_size, s') ∧
        Inv s' (pre ++ post) (b :: live).
Proof.
  intros HI Hn Hr Hpre Hsmall Hfuel.
  destruct (allocateMemory_fit fuel n s pre b post live HI Hn ltac:(lia) Hsmall Hfuel)
    as (s' & Halloc & HI' & _).
  rewrite taken_exact_interior in HI' by (try assumption; lia).
  rewrite Hr in HI'. replace (b.1, b.2) with b in HI' by (destruct b; reflexivity).
  exists s'. split; assumption.
Qed.

(** An exact match at the head empties the list, whatever followed it. *)
Lemma exact_match_at_head_empties_list fuel n s b post live :
  Inv s (b :: post) live →
  0 <= n < 2 ^ 32 → padded n = b.2 →
  (0 < fuel)%nat →
  ∃ s', allocateMemory fuel n s = Done (b.1 + header_size, s') ∧
        Inv s' [] (b :: live) ∧ free_list s' = NULL.
Proof.
  intros HI Hn Hr Hfuel.
  destruct (allocateMemory_fit fuel n s [] b post live HI Hn ltac:(lia)
              ltac:(constructor) Hfuel) as (s' & Halloc & HI' & _).
  rewrite taken_exact_head in HI' by lia.
  rewrite Hr in HI'. replace (b.1, b.2) with b in HI' by (destruct b; reflexivity).
  exists s'. split; [exact Halloc |]. split; [exact HI' |].
  exact (inv_chain _ _ _ HI').
Qed.

(** C1, evaluated where it fails.  The free list holds the block at 8
    (8 bytes) followed by the block at 40 (65488 bytes).  A request for 8
    bytes matches the head exactly; [allocateMemory] returns its payload
    pointer 16 and sets the list head to null, so the block at 40 is no
    longer in the free list and [reportFreeMemory] answers 0. *)
Theorem exact_match_at_head_drops_successors :
  chain (mem head_with_successor) (free_list head_with_successor)
        [(8, 8); (40, 65488)] ∧
  value (reportFreeMemory 3) head_with_successor = Some 65496 ∧
  value (allocateMemory 3 8) head_with_successor = Some 16 ∧
  free_list (after (allocateMemory 3 8) head_with_successor) = NULL ∧
  chain (mem (after (allocateMemory 3 8) head_with_successor))
        (free_list (after (allocateMemory 3 8) head_with_successor)) [] ∧
  value (reportFreeMemory 3) (after (allocateMemory 3 8) head_with_successor) = Some 0.
Proof.
  vm_compute. repeat split; discriminate.
Qed.

(** ** C2: one growth call, one retry of the same request *)

(** What the code does when the scan finds no block and the store can
    grow: one [grow] call for the padded request, then a new call of
    [allocateMemory] for the padded request plus one header. *)
Lemma retry_after_growth f n s fl live :
  Inv s fl live → fl ≠ [] →
  0 <= n < 2 ^ 32 →
  Forall (λ c, c.2 < padded n) fl →
  (length fl < S f)%nat →
  1 <= blocks_for (padded n) →
  bytes (host s) + blocks_for (padded n) * BLKSIZ <= capacity (host s) →
  ∃ s2, getMoreMemory (S f) (padded n) s = Done (free_list s2, s2) ∧
        host s2 = (grow (blocks_for (padded n)) (host s)).2 ∧
        allocateMemory (S f) n s
        = allocateMemory f (wrap (padded n + header_size)) s2.
Proof.
  intros HI Hne Hn Hsmall Hfuel Hk Hcap.
  pose proof (Inv_nonempty_initialised _ _ _ HI Hne) as Hi.
  destruct (seg_head _ _ _ _ (inv_chain _ _ _ HI) Hne) as [_ Hhead0].
  destruct (getMoreMemory_grown (S f) (padded n) s fl live HI Hi Hk Hcap)
    as [[_ Hbad] | (s2 & Hg & Hfl2 & _ & Hh2 & _)]; [lia |].
  exists s2. split; [exact Hg |]. split; [exact Hh2 |].
  cbn [allocateMemory].
  rewrite (bind_done _ _ _ _ _ (ensureInitialised_done s Hi)), bind_get_free_list.
  replace (free_list s =? NULL) with false by (symmetry; apply Z.eqb_neq; exact Hhead0).
  rewrite bind_ret. cbn [negb]. rewrite bind_get_free_list.
  rewrite (bind_done _ _ _ (None : option Z) s).
  2:{ rewrite (alloc_loop_no_fit (S f) _ _ s fl (inv_chain _ _ _ HI)
                (inv_free_ok _ _ _ HI) Hsmall).
      replace (S f <=? length fl)%nat with false
        by (symmetry; apply Nat.leb_gt; exact Hfuel).
      reflexivity. }
  rewrite (bind_done _ _ _ _ _ Hg).
  replace (free_list s2 =? NULL) with false by (symmetry; apply Z.eqb_neq; exact Hfl2).
  reflexivity.
Qed.

(** C2, evaluated where it fails.  The free list holds one 8-byte block and
    the request is 65528 bytes.  The scan finds nothing, one page is added
    (a block of exactly 65528 bytes), and the retry asks for 65536 bytes,
    not 65528: the new block does not fit, a second growth call adds two
    more pages, and a third call of [allocateMemory] serves 65544 bytes. *)
Theorem retry_asks_for_more_and_grows_again :
  chain (mem small_block_only) (free_list small_block_only) [(8, 8)] ∧
  calls (host small_block_only) = [] ∧
  value (allocateMemory 5 65528) small_block_only = Some 65544 ∧
  calls (host (after (allocateMemory 5 65528) small_block_only))
  = [(1, 131072); (2, 262144)] ∧
  rd (mem (after (allocateMemory 5 65528) small_block_only)) (65536 + 4) = 65544.
Proof.
  vm_compute. repeat split; discriminate.
Qed.

(** ** C3: accounting of one allocation and the matching free *)

Lemma join_nil L : join [] L = L.
Proof. reflexivity. Qed.

Lemma join_snoc pre p L : join (pre ++ [p]) L = pre ++ merge_next p L.
Proof. unfold join. rewrite rev_app_distr. simpl. rewrite rev_involutive. reflexivity. Qed.

Lemma insert_block_join b pre post lo :
  gapped lo pre →
  Forall (λ c, c.1 < b.1) pre →
  (post = [] ∨ b.1 < head_addr post) →
  insert_block b (pre ++ post) = join pre (merge_next b post).
Proof.
  intros Hg Hlt Hpost. destruct (rev_case pre) as [-> | (pre0 & p & ->)].
  - rewrite join_nil. apply insert_block_front. exact Hpost.
  - rewrite join_snoc, <- app_assoc. cbn [app].
    eapply insert_block_behind; eassumption.
Qed.

Lemma join_far pre L :
  L ≠ [] → Forall (λ c, c.1 + 8 + c.2 ≠ head_addr L) pre → join pre L = pre ++ L.
Proof.
  intros HL Hpre. destruct (rev_case pre) as [-> | (pre0 & p & ->)]; [reflexivity |].
  rewrite join_snoc, <- app_assoc. cbn [app].
  apply Forall_app in Hpre as [_ Hp]. apply Forall_cons in Hp as [Hp _].
  rewrite merge_next_far by (try assumption; congruence). reflexivity.
Qed.

(** Freeing the allocated part of a split puts the original block back. *)
Lemma insert_block_undo_split lo r pre b post :
  gapped lo (pre ++ b :: post) →
  0 <= r → r + 8 <= b.2 →
  insert_block (b.1, r) (pre ++ (b.1 + (r + 8), b.2 - (r + 8)) :: post)
  = pre ++ b :: post.
Proof.
  intros Hg Hr HrT. destruct b as [a T]. cbn [fst snd] in *.
  apply gapped_app in Hg as [Hpre (Hb1 & Hb2 & Hpost)].
  pose proof (gapped_last_end _ _ Hpre) as Hlo.
  pose proof (gapped_before _ _ Hpre) as Hbefore.
  pose proof (gapped_above _ _ Hpre) as Habove.
  rewrite (insert_block_join _ _ _ lo Hpre).
  - cbn [merge_next fst snd].
    replace (a + (r + 8) =? a + 8 + r) with true by (symmetry; apply Z.eqb_eq; lia).
    replace (r + (T - (r + 8) + 8)) with T by lia.
    apply join_far; [discriminate |]. cbn [head_addr fst]. forall_lia.
  - cbn [fst]. forall_lia.
  - right. cbn [head_addr fst]. lia.
Qed.

(** Freeing a block that was handed out whole puts it back where it was. *)
Lemma insert_block_undo_exact lo pre b post :
  gapped lo (pre ++ b :: post) →
  insert_block b (pre ++ post) = pre ++ b :: post.
Proof.
  intros Hg. apply gapped_app in Hg as [Hpre (Hb1 & Hb2 & Hpost)].
  pose proof (gapped_before _ _ Hpre) as Hbefore.
  pose proof (gapped_above _ _ Hpre) as Habove.
  pose proof (gapped_above _ _ Hpost) as Hpostabove.
  rewrite (insert_block_join _ _ _ lo Hpre).
  - rewrite merge_next_apart by forall_lia.
    apply join_far; [discriminate |]. cbn [head_addr]. forall_lia.
  - forall_lia.
  - destruct post as [| c post]; [left; reflexivity | right].
    apply Forall_cons in Hpostabove as [Hc _]. simpl. lia.
Qed.

(** C3, as amended.  A request served from the free list, first-fit block
    [b], rounded size [S].  When [b] is strictly larger than [S] it is
    split and [reportFreeMemory] decreases by exactly [S + 8]; when [b] has
    exactly [S] bytes and is not a head with successors it is handed out
    whole and [reportFreeMemory] decreases by exactly [S].  Freeing the
    returned pointer right away increases it by the same amount. *)
Theorem allocation_accounting fuel n s pre b post live :
  Inv s (pre ++ b :: post) live →
  0 <= n < 2 ^ 32 →
  padded n <= b.2 →
  (padded n = b.2 → pre ≠ [] ∨ post = []) →
  Forall (λ c, c.2 < padded n) pre →
  (length (pre ++ b :: post) < fuel)%nat →
  let cost := if padded n <? b.2 then padded n + header_size else padded n in
  ∃ total s' s'',
    reportFreeMemory fuel s = Done (total, s) ∧
    allocateMemory fuel n s = Done (b.1 + header_size, s') ∧
    reportFreeMemory fuel s' = Done (total - cost, s') ∧
    freeMemory fuel (b.1 + header_size) s' = Done (tt, s'') ∧
    reportFreeMemory fuel s'' = Done (total, s'').
Proof.
  intros HI Hn Hrb Hexact Hsmall Hfuel cost.
  pose proof (Inv_nonempty_initialised _ _ _ HI ltac:(destruct pre; discriminate)) as Hi.
  pose proof (inv_gapped _ _ _ HI) as Hg.
  pose proof (inv_free_ok _ _ _ HI) as Hok.
  apply Forall_app in Hok as [_ Hok]. apply Forall_cons in Hok as [Hbok _].
  unfold block_ok in Hbok.
  pose proof (padded_range n) as Hr. pose proof (padded_mod8 n) as Hr8.
  rewrite length_app in Hfuel. cbn [length] in Hfuel.
  destruct (allocateMemory_fit fuel n s pre b post live HI Hn Hrb Hsmall ltac:(lia))
    as (s' & Halloc & HI' & Hh' & Hi').
  assert (Hrestore :
    ∃ fl', taken (padded n) pre b post = fl' ∧
           (length fl' <= length pre + length post + 1)%nat ∧
           total_size fl' = total_size (pre ++ b :: post) - cost ∧
           insert_block (b.1, padded n) fl' = pre ++ b :: post).
  { subst cost. destruct (padded n <? b.2) eqn:E.
    - apply Z.ltb_lt in E. eexists. split; [apply taken_split; lia |].
      split; [rewrite length_app; cbn [length]; lia |].
      split; [rewrite !total_size_app; cbn [total_size snd]; consts; lia |].
      apply (insert_block_undo_split 0); [exact Hg | lia | zlia].
    - apply Z.ltb_ge in E. assert (Eq : padded n = b.2) by lia.
      exists (pre ++ post). split.
      + destruct (Hexact Eq) as [Hpre | ->].
        * apply taken_exact_interior; [lia | exact Hpre].
        * destruct pre; [apply taken_exact_head; lia |].
          apply taken_exact_interior; [lia | discriminate].
      + split; [rewrite length_app; lia |].
        split; [rewrite !total_size_app; cbn [total_size]; lia |].
        rewrite Eq. replace (b.1, b.2) with b by (destruct b; reflexivity).
        apply (insert_block_undo_exact 0). exact Hg. }
  destruct Hrestore as (fl' & Hfl' & Hlen' & Htotal' & Hins').
  rewrite Hfl' in HI'.
  destruct (freeMemory_held fuel s' fl' [] (b.1, padded n) live HI' ltac:(lia))
    as (s'' & Hfree & HI'' & Hh'' & Hi'').
  cbn [fst app] in Hfree, HI''. rewrite Hins' in HI''.
  exists (total_size (pre ++ b :: post)), s', s''.
  split; [apply (reportFreeMemory_total fuel s _ live HI Hi);
          rewrite length_app; cbn [length]; lia |].
  split; [exact Halloc |].
  split; [rewrite <- Htotal'; apply (reportFreeMemory_total fuel s' _ _ HI'); lia |].
  split; [exact Hfree |].
  apply (reportFreeMemory_total fuel s'' _ live HI'');
    [lia | rewrite length_app; cbn [length]; lia].
Qed.

Lemma initialised_store_inv : Inv initialised_store [(8, 65520)] [].
Proof. concrete. Qed.

Lemma allocation_accounting_witness :
  Inv initialised_store ([] ++ (8, 65520) :: []) [] ∧
  padded 8 <= (8, 65520).2 ∧
  ∃ total s' s'',
    reportFreeMemory 2 initialised_store = Done (total, initialised_store) ∧
    allocateMemory 2 8 initialised_store = Done (16, s') ∧
    reportFreeMemory 2 s' = Done (total - 16, s') ∧
    freeMemory 2 16 s' = Done (tt, s'') ∧
    reportFreeMemory 2 s'' = Done (total, s'').
Proof.
  assert (H1 : Inv initialised_store ([] ++ (8, 65520) :: []) [])
    by exact initialised_store_inv.
  assert (H2 : padded 8 <= (8, 65520).2) by (vm_compute; discriminate).
  split; [exact H1 |]. split; [exact H2 |].
  exact (allocation_accounting 2 8 initialised_store [] (8, 65520) [] [] H1
           ltac:(lia) H2 ltac:(intros _; right; reflexivity)
           ltac:(constructor) ltac:(simpl; lia)).
Defined.

(** C3 as stated fails on an exact fit.  The free list is the single block
    at 8 of 65520 bytes and the request is 65520 bytes: the block is
    handed out whole, [reportFreeMemory] goes from 65520 to 0, a decrease
    of [S] and not of [S + 8]. *)
Lemma exact_fit_accounting_counterexample :
  chain (mem initialised_store) (free_list initialised_store) [(8, 65520)] ∧
  padded 65520 = 65520 ∧
  value (reportFreeMemory 2) initialised_store = Some 65520 ∧
  value (allocateMemory 2 65520) initialised_store = Some 16 ∧
  value (reportFreeMemory 2) (after (allocateMemory 2 65520) initialised_store) = Some 0 ∧
  65520 - 0 ≠ padded 65520 + header_size.
Proof. concrete. Qed.

(** ** C4: a refused growth request changes nothing *)

Lemma load_inv a s v s' : load a s = Done (v, s') → s' = s.
Proof. unfold load. destruct (in_bounds a s); [| discriminate]. intros H. inversion H. reflexivity. Qed.

Ltac peel H :=
  repeat (let a := fresh "a" in let st := fresh "st" in
          apply bind_inv in H as (a & st & _ & H)).

(** A scan that finds nothing has written nothing. *)
Lemma alloc_loop_none_pure : ∀ fuel r bph current previous s s',
  alloc_loop fuel r bph current previous s = Done (None, s') → s' = s.
Proof.
  induction fuel as [| f IH]; intros r bph current previous s s' H; [discriminate |].
  cbn [alloc_loop] in H.
  destruct (current =? NULL); [inversion H; reflexivity |].
  apply bind_inv in H as (csz & s1 & H1 & H).
  apply load_inv in H1. subst s1.
  destruct (csz =? r).
  - exfalso. apply bind_inv in H as (head & s1 & _ & H).
    destruct (current =? head); peel H; discriminate.
  - destruct (r <? csz).
    + exfalso. peel H. discriminate.
    + apply bind_inv in H as (nx & s1 & H1 & H).
      apply load_inv in H1. subst s1. eapply IH. exact H.
Qed.

Lemma getMoreMemory_failed fuel n s :
  (grow (blocks_for n) (host s)).1 = 0 →
  getMoreMemory fuel n s = Done (NULL, with_host (grow (blocks_for n) (host s)).2 s).
Proof.
  intros H. unfold getMoreMemory.
  rewrite bind_call_memoryBytesLength, bind_call_grow, H. reflexivity.
Qed.

Lemma grow_log k h : calls (grow k h).2 = calls h ++ [(k, (grow k h).1)].
Proof. unfold grow. destruct (_ <=? _); reflexivity. Qed.

(** The growth attempts are the requests the provider receives: on a
    well-formed allocator, a call that returns has extended the provider's
    record by one entry for each attempt, in order, with the page count
    asked for and the answer given in the state the attempt was entered
    in. *)
Lemma growth_attempts_log : ∀ fuel n s fl live p s',
  Inv s fl live →
  0 <= n < 2 ^ 32 →
  allocateMemory fuel n s = Done (p, s') →
  calls (host s') =
  calls (host s) ++
  map (λ a : Z * state, (blocks_for a.1, (grow (blocks_for a.1) (host a.2)).1))
      (growth_attempts fuel n s).
Proof.
  induction fuel as [| f IH]; intros n s fl live p s' HI Hn Hrun; [discriminate |].
  cbn [allocateMemory growth_attempts] in *.
  destruct (ensureInitialised_inv s fl live HI) as (s1 & fl1 & Hinit & HI1 & Hi1 & Hh1 & _).
  rewrite (bind_done _ _ _ _ _ Hinit) in Hrun. rewrite Hinit.
  rewrite bind_get_free_list in Hrun. rewrite <- Hh1.
  pose proof (padded_range n) as Hr. pose proof (padded_mod8 n) as Hr8.
  set (r := padded n) in *.
  pose proof (wrap_range (r + header_size)) as Hbph.
  set (bph := wrap (r + header_size)) in *.
  pose proof (inv_host _ _ _ HI1) as (Hlen16 & Hlen8 & Hlencap & Hcap32).
  assert (Hstage : ∀ s2 fl2,
    Inv s2 fl2 live → is_initialised s2 ≠ 0 →
    bind (alloc_loop (S f) r bph (free_list s2) (free_list s2))
      (λ found, match found with
                | Some p => ret p
                | None =>
                    bind (getMoreMemory (S f) r)
                      (λ more, if more =? NULL then ret NULL
                               else allocateMemory f bph)
                end) s2 = Done (p, s') →
    calls (host s') =
    calls (host s2) ++
    map (λ a : Z * state, (blocks_for a.1, (grow (blocks_for a.1) (host a.2)).1))
        (scan_attempts (growth_attempts f) (S f) r bph s2)).
  { clear Hrun HI Hinit HI1 Hi1 Hh1 Hlen16 Hlen8 Hlencap Hcap32 s fl s1 fl1.
    intros s2 fl2 HI2 Hi2 Hscan. unfold scan_attempts.
    pose proof (inv_host _ _ _ HI2) as (Hlen16 & Hlen8 & Hlencap & Hcap32).
    destruct (first_fit_cases r fl2) as [Hnone | (pre & b & post & -> & Hsmall & Hrb)].
    - assert (Hloop : alloc_loop (S f) r bph (free_list s2) (free_list s2) s2
                      = Done (None, s2)).
      { rewrite (alloc_loop_no_fit (S f) r bph s2 fl2 (inv_chain _ _ _ HI2)
                   (inv_free_ok _ _ _ HI2) Hnone).
        destruct (S f <=? length fl2)%nat eqn:E; [| reflexivity].
        exfalso.
        rewrite (bind_fuel _ _ s2) in Hscan; [discriminate |].
        rewrite (alloc_loop_no_fit (S f) r bph s2 fl2 (inv_chain _ _ _ HI2)
                   (inv_free_ok _ _ _ HI2) Hnone). rewrite E. reflexivity. }
      rewrite (bind_done _ _ _ _ _ Hloop) in Hscan. rewrite Hloop.
      destruct (blocks_for_spec r ltac:(lia)) as [[_ Hk] | (Hw & Hk & _)].
      { rewrite (bind_trap _ _ _ (getMoreMemory_no_pages (S f) r s2 Hk
                   ltac:(lia) Hcap32)) in Hscan. discriminate. }
      destruct (Z_lt_le_dec (capacity (host s2)) (bytes (host s2) + blocks_for r * BLKSIZ))
        as [Hno | Hyes].
      + rewrite (getMoreMemory_refused (S f) r s2 Hno).
        rewrite (bind_done _ _ _ _ _ (getMoreMemory_refused (S f) r s2 Hno)) in Hscan.
        cbn in Hscan. inversion Hscan; subst p s'.
        cbn [Z.eqb NULL map fst snd]. fields. apply grow_log.
      + destruct (getMoreMemory_grown (S f) r s2 fl2 live HI2 Hi2 ltac:(lia) Hyes)
          as [[Hbad _] | (s3 & Hg & Hfl3 & HI3 & Hh3 & Hi3)].
        { rewrite (bind_fuel _ _ _ Hbad) in Hscan. discriminate. }
        rewrite (bind_done _ _ _ _ _ Hg) in Hscan. rewrite Hg.
        replace (free_list s3 =? NULL) with false in *
          by (symmetry; apply Z.eqb_neq; exact Hfl3).
        assert (Ebph : bph = r + 8).
        { subst bph. consts. unfold wrap in *. zlia. }
        rewrite (IH bph s3 _ live p s' HI3 ltac:(lia) Hscan).
        rewrite Hh3, grow_log. cbn [map fst snd].
        rewrite <- app_assoc. reflexivity.
    - destruct (alloc_loop_fit (S f) r s2 pre b post live HI2 ltac:(lia) Hr8 Hrb Hsmall)
        as [[Hbad _] | (s3 & Hfit & HI3 & Hh3 & Hi3)].
      { fold bph in Hbad. rewrite (bind_fuel _ _ _ Hbad) in Hscan. discriminate. }
      fold bph in Hfit. rewrite (bind_done _ _ _ _ _ Hfit) in Hscan. rewrite Hfit.
      cbn in Hscan. inversion Hscan; subst p s'.
      cbn [map]. rewrite app_nil_r, Hh3. reflexivity. }
  destruct (free_list s1 =? NULL) eqn:Ehead.
  - apply Z.eqb_eq in Ehead.
    pose proof (inv_chain _ _ _ HI1) as Hc1. rewrite Ehead in Hc1.
    apply chain_null in Hc1. subst fl1.
    rewrite bind_assoc in Hrun.
    destruct (blocks_for_spec bph ltac:(lia)) as [[_ Hk] | (_ & Hk & _)].
    { rewrite (bind_trap _ _ _ (getMoreMemory_no_pages (S f) bph s1 Hk
                 ltac:(lia) Hcap32)) in Hrun. discriminate. }
    destruct (Z_lt_le_dec (capacity (host s1)) (bytes (host s1) + blocks_for bph * BLKSIZ))
      as [Hno | Hyes].
    + rewrite (getMoreMemory_refused (S f) bph s1 Hno).
      rewrite (bind_done _ _ _ _ _ (getMoreMemory_refused (S f) bph s1 Hno)) in Hrun.
      rewrite bind_assoc, bind_set_free_list, bind_ret in Hrun.
      cbn in Hrun. inversion Hrun; subst p s'.
      cbn [Z.eqb NULL map fst snd]. fields. apply grow_log.
    + destruct (getMoreMemory_grown (S f) bph s1 [] live HI1 Hi1 ltac:(lia) Hyes)
        as [[Hbad _] | (s2 & Hg & Hfl2 & HI2 & Hh2 & Hi2)].
      { rewrite (bind_fuel _ _ _ Hbad) in Hrun. discriminate. }
      rewrite (bind_done _ _ _ _ _ Hg) in Hrun. rewrite Hg.
      rewrite bind_assoc, bind_set_free_list, bind_ret in Hrun.
      replace (free_list s2 =? NULL) with false in *
        by (symmetry; apply Z.eqb_neq; exact Hfl2).
      cbn [negb] in Hrun. rewrite with_free_list_id in *.
      rewrite bind_get_free_list in Hrun.
      rewrite (Hstage s2 _ HI2 ltac:(rewrite Hi2; exact Hi1) Hrun).
      rewrite Hh2, grow_log. cbn [map fst snd].
      rewrite <- app_assoc. reflexivity.
  - rewrite bind_ret in Hrun. cbn [negb] in Hrun.
    rewrite bind_get_free_list in Hrun.
    exact (Hstage s1 fl1 HI1 Hi1 Hrun).
Qed.

(** The part of a call that follows the guard and the refill of an empty
    list: the scan, and what is done with its result. *)
Lemma scan_failure f r bph s2 k sb
    (IH : ∀ n s, (k, sb) ∈ growth_attempts f n s →
                 ∃ s', allocateMemory f n s = Done (NULL, s') ∧
                       mem s' = mem sb ∧ free_list s' = free_list sb ∧
                       is_initialised s' = is_initialised sb ∧
                       host s' = (grow (blocks_for k) (host sb)).2) :
  (k, sb) ∈ scan_attempts (growth_attempts f) (S f) r bph s2 →
  (grow (blocks_for k) (host sb)).1 = 0 →
  ∃ s', bind (alloc_loop (S f) r bph (free_list s2) (free_list s2))
          (λ found, match found with
                    | Some p => ret p
                    | None =>
                        bind (getMoreMemory (S f) r)
                          (λ more, if more =? NULL then ret NULL
                                   else allocateMemory f bph)
                    end) s2 = Done (NULL, s') ∧
        mem s' = mem sb ∧ free_list s' = free_list sb ∧
        is_initialised s' = is_initialised sb ∧
        host s' = (grow (blocks_for k) (host sb)).2.
Proof.
  intros Hin Hfail. unfold scan_attempts in Hin.
  destruct (alloc_loop (S f) r bph (free_list s2) (free_list s2) s2)
    as [[[p |] s3] | |] eqn:Hscan; try (inversion Hin; fail).
  rewrite (bind_done _ _ _ _ _ Hscan).
  apply elem_of_cons in Hin as [Hhere | Hin].
  - inversion Hhere; subst k sb.
    rewrite (bind_done _ _ _ _ _ (getMoreMemory_failed (S f) r s3 Hfail)).
    cbn [Z.eqb NULL]. eexists. split; [reflexivity |]. fields.
    repeat split; reflexivity.
  - destruct (getMoreMemory (S f) r s3) as [[more s4] | |] eqn:Hmore;
      try (inversion Hin; fail).
    rewrite (bind_done _ _ _ _ _ Hmore).
    destruct (more =? NULL); [inversion Hin |].
    apply IH. exact Hin.
Qed.

(** C4.  Every call of [getMoreMemory] that a call of [allocateMemory]
    makes is a growth attempt: the one for an empty list (for the padded
    request plus a header), the one after a scan without a fit (for the
    padded request), and those of the retries.  When [grow] answers 0 to
    any of them, [allocateMemory] returns null, and memory, the list head
    and the initialisation flag are what they were when that attempt was
    entered; the provider has only recorded the request. *)
Theorem growth_failure_leaves_free_list : ∀ fuel n s k sb,
  (k, sb) ∈ growth_attempts fuel n s →
  (grow (blocks_for k) (host sb)).1 = 0 →
  ∃ s', allocateMemory fuel n s = Done (NULL, s') ∧
        mem s' = mem sb ∧ free_list s' = free_list sb ∧
        is_initialised s' = is_initialised sb ∧
        host s' = (grow (blocks_for k) (host sb)).2.
Proof.
  induction fuel as [| f IH]; intros n s k sb Hin Hfail; [inversion Hin |].
  cbn [growth_attempts allocateMemory] in *.
  destruct (ensureInitialised s) as [[[] s1] | |] eqn:Hinit; try (inversion Hin; fail).
  rewrite (bind_done _ _ _ _ _ Hinit), bind_get_free_list.
  destruct (free_list s1 =? NULL) eqn:Ehead.
  - apply Z.eqb_eq in Ehead. rewrite bind_assoc.
    apply elem_of_cons in Hin as [Hhere | Hin].
    + inversion Hhere; subst k sb.
      rewrite (bind_done _ _ _ _ _ (getMoreMemory_failed (S f) _ s1 Hfail)).
      rewrite bind_assoc, bind_set_free_list, bind_ret. cbn [Z.eqb NULL negb].
      eexists. split; [reflexivity |]. fields. rewrite Ehead.
      repeat split; reflexivity.
    + destruct (getMoreMemory (S f) (wrap (padded n + header_size)) s1)
        as [[more s2] | |] eqn:Hmore; try (inversion Hin; fail).
      rewrite (bind_done _ _ _ _ _ Hmore).
      rewrite bind_assoc, bind_set_free_list, bind_ret.
      destruct (more =? NULL) eqn:Emore; [inversion Hin |].
      cbn [negb]. rewrite bind_get_free_list.
      exact (scan_failure f (padded n) (wrap (padded n + header_size))
               (with_free_list more s2) k sb (λ n' s0 H, IH n' s0 k sb H Hfail)
               Hin Hfail).
  - rewrite bind_ret. cbn [negb]. rewrite bind_get_free_list.
    exact (scan_failure f (padded n) (wrap (padded n + header_size)) s1 k sb
             (λ n' s0 H, IH n' s0 k sb H Hfail) Hin Hfail).
Qed.

Lemma growth_failure_leaves_free_list_witness :
  (65536, after (getMoreMemory 5 65528) one_more_page)
    ∈ growth_attempts 5 65528 one_more_page ∧
  ∃ s', allocateMemory 5 65528 one_more_page = Done (NULL, s') ∧
        free_list s' = 8 ∧ rd (mem s') 8 = 65536 ∧ rd (mem s') 65540 = 65528.
Proof.
  assert (H1 : (65536, after (getMoreMemory 5 65528) one_more_page)
                 ∈ growth_attempts 5 65528 one_more_page).
  { vm_compute. right. left. }
  assert (H2 : (grow (blocks_for 65536)
                  (host (after (getMoreMemory 5 65528) one_more_page))).1 = 0)
    by (vm_compute; reflexivity).
  split; [exact H1 |].
  destruct (growth_failure_leaves_free_list 5 65528 one_more_page _ _ H1 H2)
    as (s' & Hrun & Hmem & Hhead & _).
  exists s'. split; [exact Hrun |].
  rewrite Hhead, Hmem. split; [| split]; vm_compute; reflexivity.
Defined.

(** ** C5: the two halves of a split coalesce *)

Lemma coalesce_pair lo pre post a r1 r2 :
  gapped lo pre → last_end lo pre < a →
  Forall (λ c, a + 8 + (r1 + (r2 + 8)) < c.1) post →
  0 <= r1 → 0 <= r2 →
  insert_block (a + (r1 + 8), r2) (insert_block (a, r1) (pre ++ post))
  = pre ++ (a, r1 + (r2 + 8)) :: post ∧
  insert_block (a, r1) (insert_block (a + (r1 + 8), r2) (pre ++ post))
  = pre ++ (a, r1 + (r2 + 8)) :: post.
Proof.
  intros Hg Hlast Hpost Hr1 Hr2.
  pose proof (gapped_before _ _ Hg) as Hbefore.
  pose proof (gapped_above _ _ Hg) as Habove.
  assert (Hfront : ∀ x, x <= a + (r1 + 8) → post = [] ∨ x < head_addr post).
  { intros x Hx. destruct post as [| c post]; [left; reflexivity | right].
    apply Forall_cons in Hpost as [Hc _]. simpl. lia. }
  assert (HX : insert_block (a, r1) (pre ++ post) = pre ++ (a, r1) :: post).
  { rewrite (insert_block_join _ _ _ lo Hg);
      [| cbn [fst]; forall_lia | apply Hfront; cbn [fst]; lia].
    rewrite merge_next_apart by (cbn [fst snd]; forall_lia).
    apply join_far; [discriminate |]. cbn [head_addr fst]. forall_lia. }
  assert (HY : insert_block (a + (r1 + 8), r2) (pre ++ post)
               = pre ++ (a + (r1 + 8), r2) :: post).
  { rewrite (insert_block_join _ _ _ lo Hg);
      [| cbn [fst]; forall_lia | apply Hfront; cbn [fst]; lia].
    rewrite merge_next_apart by (cbn [fst snd]; forall_lia).
    apply join_far; [discriminate |]. cbn [head_addr fst]. forall_lia. }
  assert (Hmerge : merge_next (a, r1) ((a + (r1 + 8), r2) :: post)
                   = (a, r1 + (r2 + 8)) :: post).
  { cbn [merge_next fst snd].
    replace (a + (r1 + 8) =? a + 8 + r1) with true by (symmetry; apply Z.eqb_eq; lia).
    reflexivity. }
  split.
  - rewrite HX.
    replace (pre ++ (a, r1) :: post) with ((pre ++ [(a, r1)]) ++ post)
      by (rewrite <- app_assoc; reflexivity).
    rewrite (insert_block_join _ _ _ lo).
    + rewrite merge_next_apart by (cbn [fst snd]; forall_lia).
      rewrite join_snoc, Hmerge. reflexivity.
    + apply gapped_app. split; [exact Hg |]. cbn [gapped fst snd]. tauto.
    + apply Forall_app. split; [cbn [fst]; forall_lia |].
      constructor; [cbn [fst]; lia | constructor].
    + apply Hfront. cbn [fst]. lia.
  - rewrite HY.
    rewrite (insert_block_join _ _ _ lo Hg);
      [| cbn [fst]; forall_lia | right; cbn [head_addr fst]; lia].
    rewrite Hmerge. apply join_far; [discriminate |]. cbn [head_addr fst]. forall_lia.
Qed.

(** C5.  A free block [b] is split by a request that is smaller than it,
    and the remainder is then handed out whole by an exact-fit request.
    Freeing the two blocks, in either order and with nothing in between,
    adds to the free list exactly one block, at the address of [b], whose
    size is the sum of the two sizes plus 8: the size [b] had. *)
Theorem split_pair_coalesces fuel n1 n2 s pre b post live :
  Inv s (pre ++ b :: post) live →
  0 <= n1 < 2 ^ 32 → 0 <= n2 < 2 ^ 32 →
  padded n1 < b.2 →
  padded n2 = b.2 - (padded n1 + header_size) →
  Forall (λ c, c.2 < padded n1) pre →
  Forall (λ c, c.2 < padded n2) pre →
  (length (pre ++ b :: post) < fuel)%nat →
  let ptr1 := b.1 + header_size in
  let ptr2 := b.1 + (padded n1 + header_size) + header_size in
  ∃ s1 s2 pre' post',
    allocateMemory fuel n1 s = Done (ptr1, s1) ∧
    allocateMemory fuel n2 s1 = Done (ptr2, s2) ∧
    Inv s2 (pre' ++ post')
        ((ptr2 - header_size, padded n2) :: (ptr1 - header_size, padded n1) :: live) ∧
    (∃ s3 s4, freeMemory fuel ptr1 s2 = Done (tt, s3) ∧
              freeMemory fuel ptr2 s3 = Done (tt, s4) ∧
              Inv s4 (pre' ++ (b.1, padded n1 + padded n2 + header_size) :: post') live) ∧
    (∃ s3 s4, freeMemory fuel ptr2 s2 = Done (tt, s3) ∧
              freeMemory fuel ptr1 s3 = Done (tt, s4) ∧
              Inv s4 (pre' ++ (b.1, padded n1 + padded n2 + header_size) :: post') live) ∧
    padded n1 + padded n2 + header_size = b.2.
Proof.
  intros HI Hn1 Hn2 Hrb Hr2 Hsmall1 Hsmall2 Hfuel ptr1 ptr2.
  pose proof (padded_range n1) as Hr1. pose proof (padded_mod8 n1) as Hr18.
  pose proof (padded_range n2) as Hr2r.
  set (r1 := padded n1) in *. set (r2 := padded n2) in *.
  pose proof (inv_gapped _ _ _ HI) as Hg.
  pose proof (inv_free_ok _ _ _ HI) as Hok.
  apply Forall_app in Hok as [_ Hok]. apply Forall_cons in Hok as [Hbok _].
  unfold block_ok in Hbok. destruct b as [a T]. cbn [fst snd] in *.
  subst ptr1 ptr2. consts.
  rewrite length_app in Hfuel. cbn [length] in Hfuel.
  destruct (allocateMemory_fit fuel n1 s pre (a, T) post live HI Hn1 ltac:(cbn [snd]; fold r1; lia)
              Hsmall1 ltac:(lia)) as (s1 & Ha1 & HI1 & _).
  fold r1 in HI1. rewrite taken_split in HI1 by (cbn [snd]; lia). cbn [fst snd] in HI1, Ha1.
  destruct (allocateMemory_fit fuel n2 s1 pre (a + (r1 + 8), T - (r1 + 8)) post _ HI1 Hn2
              ltac:(cbn [snd]; fold r2; lia) Hsmall2 ltac:(lia)) as (s2 & Ha2 & HI2 & _).
  fold r2 in HI2. cbn [fst snd] in HI2, Ha2.
  apply gapped_app in Hg as [Hgpre (Hb1 & Hb2 & Hgpost)]. cbn [fst snd] in *.
  pose proof (gapped_above _ _ Hgpost) as Hpostabove.
  (* the free list after the two allocations *)
  assert (Hshape : ∃ pre' post', taken r2 pre (a + (r1 + 8), T - (r1 + 8)) post = pre' ++ post' ∧
            gapped 0 pre' ∧ last_end 0 pre' < a ∧
            Forall (λ c, a + 8 + (r1 + (r2 + 8)) < c.1) post' ∧
            (length pre' + length post' <= length pre + length post)%nat).
  { destruct pre as [| c pre].
    - exists [], []. rewrite taken_exact_head by (cbn [snd]; lia).
      split; [reflexivity |]. split; [exact I |].
      split; [exact Hb1 |]. split; [constructor | cbn [length]; lia].
    - exists (c :: pre), post.
      rewrite taken_exact_interior by (try discriminate; cbn [snd]; lia).
      split; [reflexivity |]. split; [exact Hgpre |].
      split; [exact Hb1 |]. split; [forall_lia | lia]. }
  destruct Hshape as (pre' & post' & Hfl2 & Hgpre' & Hlast' & Hpost' & Hlen').
  rewrite Hfl2 in HI2.
  destruct (coalesce_pair 0 pre' post' a r1 r2 Hgpre' Hlast' Hpost' ltac:(lia) ltac:(lia))
    as [Horder1 Horder2].
  exists s1, s2, pre', post'.
  split; [exact Ha1 |]. split; [exact Ha2 |].
  split.
  { replace (a + (r1 + 8) + 8 - 8) with (a + (r1 + 8)) by lia.
    replace (a + 8 - 8) with a by lia. exact HI2. }
  assert (HlenX : ∀ x : block, length (pre' ++ x :: post') = S (length pre' + length post')).
  { intros x. rewrite length_app. cbn [length]. lia. }
  split; [| split].
  - destruct (freeMemory_held fuel s2 _ [(a + (r1 + 8), r2)] (a, r1) live HI2)
      as (s3 & Hf3 & HI3 & _); [rewrite length_app; lia |].
    cbn [fst app] in Hf3, HI3. consts.
    destruct (freeMemory_held fuel s3 _ [] (a + (r1 + 8), r2) live HI3)
      as (s4 & Hf4 & HI4 & _).
    { assert (Hins : insert_block (a, r1) (pre' ++ post') = pre' ++ (a, r1) :: post').
      { rewrite (insert_block_join _ _ _ 0 Hgpre').
        - rewrite merge_next_apart by (cbn [fst snd]; forall_lia).
          apply join_far; [discriminate |]. cbn [head_addr fst].
          pose proof (gapped_before _ _ Hgpre'). forall_lia.
        - cbn [fst]. pose proof (gapped_before _ _ Hgpre').
          pose proof (gapped_above _ _ Hgpre'). forall_lia.
        - destruct post' as [| c post']; [left; reflexivity | right].
          apply Forall_cons in Hpost' as [Hc _]. simpl. lia. }
      rewrite Hins, HlenX. lia. }
    cbn [fst app] in Hf4, HI4. consts.
    rewrite Horder1 in HI4.
    exists s3, s4. split; [exact Hf3 |]. split; [exact Hf4 |].
    replace (r1 + r2 + 8) with (r1 + (r2 + 8)) by lia. exact HI4.
  - destruct (freeMemory_held fuel s2 _ [] (a + (r1 + 8), r2) ((a, r1) :: live) HI2)
      as (s3 & Hf3 & HI3 & _); [rewrite length_app; lia |].
    cbn [fst app] in Hf3, HI3. consts.
    destruct (freeMemory_held fuel s3 _ [] (a, r1) live HI3)
      as (s4 & Hf4 & HI4 & _).
    { assert (Hins : insert_block (a + (r1 + 8), r2) (pre' ++ post')
                     = pre' ++ (a + (r1 + 8), r2) :: post').
      { rewrite (insert_block_join _ _ _ 0 Hgpre').
        - rewrite merge_next_apart by (cbn [fst snd]; forall_lia).
          apply join_far; [discriminate |]. cbn [head_addr fst].
          pose proof (gapped_before _ _ Hgpre'). forall_lia.
        - cbn [fst]. pose proof (gapped_before _ _ Hgpre').
          pose proof (gapped_above _ _ Hgpre'). forall_lia.
        - destruct post' as [| c post']; [left; reflexivity | right].
          apply Forall_cons in Hpost' as [Hc _]. simpl. lia. }
      rewrite Hins, HlenX. lia. }
    cbn [fst app] in Hf4, HI4. consts.
    rewrite Horder2 in HI4.
    exists s3, s4. split; [exact Hf3 |]. split; [exact Hf4 |].
    replace (r1 + r2 + 8) with (r1 + (r2 + 8)) by lia. exact HI4.
  - lia.
Qed.

Lemma split_pair_coalesces_witness :
  Inv initialised_store ([] ++ (8, 65520) :: []) [] ∧
  padded 8 < (8, 65520).2 ∧
  padded 65504 = (8, 65520).2 - (padded 8 + header_size) ∧
  ∃ s1 s2 pre' post',
    allocateMemory 2 8 initialised_store = Done (16, s1) ∧
    allocateMemory 2 65504 s1 = Done (32, s2) ∧
    Inv s2 (pre' ++ post') [(24, 65504); (8, 8)] ∧
    (∃ s3 s4, freeMemory 2 16 s2 = Done (tt, s3) ∧
              freeMemory 2 32 s3 = Done (tt, s4) ∧
              Inv s4 (pre' ++ (8, 65520) :: post') []) ∧
    (∃ s3 s4, freeMemory 2 32 s2 = Done (tt, s3) ∧
              freeMemory 2 16 s3 = Done (tt, s4) ∧
              Inv s4 (pre' ++ (8, 65520) :: post') []) ∧
    8 + 65504 + 8 = 65520.
Proof.
  assert (H1 : Inv initialised_store ([] ++ (8, 65520) :: []) [])
    by exact initialised_store_inv.
  assert (H2 : padded 8 < (8, 65520).2) by (vm_compute; reflexivity).
  assert (H3 : padded 65504 = (8, 65520).2 - (padded 8 + header_size))
    by (vm_compute; reflexivity).
  split; [exact H1 |]. split; [exact H2 |]. split; [exact H3 |].
  exact (split_pair_coalesces 2 8 65504 initialised_store [] (8, 65520) [] []
           H1 ltac:(lia) ltac:(lia) H2 H3 ltac:(constructor) ltac:(constructor)
           ltac:(simpl; lia)).
Defined.

(** ** C6: what a split leaves behind *)

Lemma chain_link m h pre x post :
  chain m h (pre ++ x :: post) → rd m x.1 = head_addr post.
Proof.
  intros H. apply chain_app in H as [_ H].
  destruct H as (_ & _ & _ & H). apply chain_head in H. exact H.
Qed.

(** C6.  When the first block that is large enough is strictly larger than
    the rounded request [S], the call returns its payload pointer and the
    free list is the old one with that block replaced, in place, by the
    remainder: a block at offset [S + 8] inside the original, of size
    [original - S - 8], whose link is the link the original had. *)
Theorem split_leaves_remainder fuel n s pre b post live :
  Inv s (pre ++ b :: post) live →
  0 <= n < 2 ^ 32 →
  padded n < b.2 →
  Forall (λ c, c.2 < padded n) pre →
  (length pre < fuel)%nat →
  let remainder := b.1 + (padded n + header_size) in
  ∃ s', allocateMemory fuel n s = Done (b.1 + header_size, s') ∧
        chain (mem s') (free_list s')
              (pre ++ (remainder, b.2 - padded n - header_size) :: post) ∧
        rd (mem s') remainder = rd (mem s) b.1 ∧
        allocated (mem s') (b.1, padded n) ∧
        Inv s' (pre ++ (remainder, b.2 - padded n - header_size) :: post)
            ((b.1, padded n) :: live).
Proof.
  intros HI Hn Hrb Hsmall Hfuel remainder. subst remainder. consts.
  destruct (allocateMemory_fit fuel n s pre b post live HI Hn ltac:(lia) Hsmall Hfuel)
    as (s' & Halloc & HI' & _).
  rewrite taken_split in HI' by lia.
  replace (b.2 - (padded n + 8)) with (b.2 - padded n - 8) in HI' by lia.
  pose proof (inv_chain _ _ _ HI') as Hc'.
  pose proof (inv_live_hdr _ _ _ HI') as Hhdr. apply Forall_cons in Hhdr as [Hhdr _].
  exists s'. split; [exact Halloc |]. split; [exact Hc' |].
  split; [| split; [exact Hhdr | exact HI']].
  apply chain_link in Hc'. cbn [fst] in Hc'. rewrite Hc'.
  symmetry. eapply chain_link. exact (inv_chain _ _ _ HI).
Qed.

Lemma split_leaves_remainder_witness :
  Inv initialised_store ([] ++ (8, 65520) :: []) [] ∧
  padded 100 < (8, 65520).2 ∧
  ∃ s', allocateMemory 1 100 initialised_store = Done (16, s') ∧
        chain (mem s') (free_list s') [(120, 65408)] ∧
        rd (mem s') 120 = rd (mem initialised_store) 8 ∧
        allocated (mem s') (8, 104) ∧
        Inv s' [(120, 65408)] [(8, 104)].
Proof.
  assert (H1 : Inv initialised_store ([] ++ (8, 65520) :: []) [])
    by exact initialised_store_inv.
  assert (H2 : padded 100 < (8, 65520).2) by (vm_compute; reflexivity).
  split; [exact H1 |]. split; [exact H2 |].
  exact (split_leaves_remainder 1 100 initialised_store [] (8, 65520) [] []
           H1 ltac:(lia) H2 ltac:(constructor) ltac:(simpl; lia)).
Defined.

(** ** C7: the free list is in ascending address order, always *)

(** C7.  In every state reached from a fresh store by [allocateMemory],
    [freeMemory] of a held block or of null, [reportFreeMemory] and growth,
    the addresses of the free list are strictly increasing from head to
    tail; so they are before and after every operation. *)
Theorem free_list_always_increasing len cap s live :
  16 <= len → len mod 8 = 0 → len <= cap → cap < 2 ^ 32 →
  reachable len cap s live →
  free_list_sorted s ∧
  ∀ s' live', step (s, live) (s', live') → free_list_sorted s'.
Proof.
  intros H1 H2 H3 H4 Hreach.
  destruct (reachable_inv len cap s live H1 H2 H3 H4 Hreach) as (fl & HI).
  split; [eapply Inv_sorted; exact HI |].
  intros s' live' Hstep.
  destruct (step_inv _ _ _ _ _ HI Hstep) as (fl' & HI').
  eapply Inv_sorted. exact HI'.
Qed.

Lemma free_list_always_increasing_witness :
  reachable 65536 65536 (after (allocateMemory 2 8) fixed_store) [(8, 8)] ∧
  free_list_sorted (after (allocateMemory 2 8) fixed_store) ∧
  ∀ s' live', step (after (allocateMemory 2 8) fixed_store, [(8, 8)]) (s', live') →
              free_list_sorted s'.
Proof.
  assert (H : reachable 65536 65536 (after (allocateMemory 2 8) fixed_store) [(8, 8)]).
  { eapply (reach_step 65536 65536 fixed_store []); [apply reach_boot |].
    apply (step_allocate 2 8 fixed_store [] 16 (after (allocateMemory 2 8) fixed_store));
      [lia | vm_compute; reflexivity]. }
  split; [exact H |].
  apply (free_list_always_increasing 65536 65536 _ _);
    [lia | reflexivity | lia | lia | exact H].
Defined.

(** ** C8: the guard runs its body once *)

Lemma repeat_guard_done k s :
  is_initialised s ≠ 0 → repeat_guard k s = Done (tt, s).
Proof.
  intros Hi. induction k as [| k IH]; [reflexivity |].
  cbn [repeat_guard]. rewrite (bind_done _ _ _ _ _ (ensureInitialised_done s Hi)).
  exact IH.
Qed.

(** The summing loop of [reportFreeMemory] only reads. *)
Lemma report_loop_state : ∀ fuel current total s t s',
  report_loop fuel current total s = Done (t, s') → s' = s.
Proof.
  induction fuel as [| f IH]; intros current total s t s' H; [discriminate |].
  cbn [report_loop] in H.
  destruct (current =? NULL); [inversion H; reflexivity |].
  apply bind_inv in H as (csz & s1 & H1 & H).
  apply load_inv in H1. subst s1.
  apply bind_inv in H as (nx & s1 & H1 & H).
  apply load_inv in H1. subst s1.
  eapply IH. exact H.
Qed.

(** *** Nothing clears the flag *)

Lemma flag_bind {A B} (c : M A) (k : A → M B) :
  keeps_flag c → (∀ a, keeps_flag (k a)) → keeps_flag (bind c k).
Proof.
  intros Hc Hk s b s' H Hi.
  apply bind_inv in H as (a & s1 & H1 & H2).
  eapply Hk; [exact H2 |]. eapply Hc; eassumption.
Qed.

Lemma flag_ret {A} (a : A) : keeps_flag (ret a).
Proof. intros s b s' H Hi. inversion H; subst. exact Hi. Qed.

Lemma flag_load a : keeps_flag (load a).
Proof.
  intros s v s' H Hi. unfold load in H.
  destruct (in_bounds a s); [| discriminate]. inversion H; subst. exact Hi.
Qed.

Lemma flag_store a v : keeps_flag (store a v).
Proof.
  intros s u s' H Hi. unfold store in H.
  destruct (in_bounds a s); [| discriminate]. inversion H; subst. exact Hi.
Qed.

Lemma flag_get_free_list : keeps_flag get_free_list.
Proof. intros s v s' H Hi. inversion H; subst. exact Hi. Qed.

Lemma flag_set_free_list p : keeps_flag (set_free_list p).
Proof. intros s v s' H Hi. inversion H; subst. exact Hi. Qed.

Lemma flag_call_memoryBytesLength : keeps_flag call_memoryBytesLength.
Proof. intros s v s' H Hi. inversion H; subst. exact Hi. Qed.

Lemma flag_call_grow k : keeps_flag (call_grow k).
Proof.
  intros s v s' H Hi. unfold call_grow in H.
  destruct (grow k (host s)) as [r h]. inversion H; subst. exact Hi.
Qed.

Ltac flag_step :=
  first
    [ apply flag_ret
    | apply flag_load | apply flag_store
    | apply flag_get_free_list | apply flag_set_free_list
    | apply flag_call_memoryBytesLength | apply flag_call_grow
    | match goal with |- keeps_flag (bind _ _) => apply flag_bind; [| intros ?] end
    | match goal with
      | |- keeps_flag (if ?b then _ else _) => destruct b
      | |- keeps_flag (let '(_, _) := ?p in _) => destruct p
      | |- keeps_flag (match ?o with Some _ => _ | None => _ end) => destruct o
      end ].

Ltac flag := unfold get_next, get_size, set_next, set_size; repeat flag_step.

(** The guard leaves the flag set, whatever state it is run in. *)
Lemma ensureInitialised_sets_flag s s' :
  ensureInitialised s = Done (tt, s') → is_initialised s' ≠ 0.
Proof.
  unfold ensureInitialised. destruct (is_initialised s =? 0) eqn:E.
  - intros H.
    assert (Hk : keeps_flag
                   (do bytes_length <- call_memoryBytesLength;
                    do _ <- set_size initial_offset
                              (wrap (bytes_length - (header_size + initial_offset)));
                    do _ <- set_next initial_offset NULL;
                    set_free_list initial_offset)) by flag.
    eapply Hk; [exact H |]. cbn. discriminate.
  - intros H. inversion H; subst. apply Z.eqb_neq. exact E.
Qed.

Lemma flag_ensureInitialised : keeps_flag ensureInitialised.
Proof. intros s [] s' H _. eapply ensureInitialised_sets_flag. exact H. Qed.

Lemma flag_free_loop fuel : ∀ u c p, keeps_flag (free_loop fuel u c p).
Proof.
  induction fuel as [| f IH]; intros u c p; [intros s a s' H; discriminate |].
  cbn [free_loop]. flag. apply IH.
Qed.

Lemma flag_freeMemory fuel ptr : keeps_flag (freeMemory fuel ptr).
Proof.
  unfold freeMemory, free_attach_current, free_attach_previous.
  apply flag_bind; [apply flag_ensureInitialised | intros _].
  flag. apply flag_free_loop.
Qed.

Lemma flag_getMoreMemory fuel n : keeps_flag (getMoreMemory fuel n).
Proof. unfold getMoreMemory. flag. apply flag_freeMemory. Qed.

Lemma flag_alloc_loop fuel : ∀ r bph c p, keeps_flag (alloc_loop fuel r bph c p).
Proof.
  induction fuel as [| f IH]; intros r bph c p; [intros s a s' H; discriminate |].
  cbn [alloc_loop]. flag. apply IH.
Qed.

Lemma flag_allocateMemory fuel : ∀ n, keeps_flag (allocateMemory fuel n).
Proof.
  induction fuel as [| f IH]; intros n; [intros s a s' H; discriminate |].
  cbn [allocateMemory].
  apply flag_bind; [apply flag_ensureInitialised | intros _].
  flag; first [apply flag_getMoreMemory | apply flag_alloc_loop | apply IH].
Qed.

Lemma flag_report_loop fuel : ∀ c t, keeps_flag (report_loop fuel c t).
Proof.
  induction fuel as [| f IH]; intros c t; [intros s a s' H; discriminate |].
  cbn [report_loop]. flag. apply IH.
Qed.

Lemma flag_reportFreeMemory fuel : keeps_flag (reportFreeMemory fuel).
Proof.
  unfold reportFreeMemory.
  apply flag_bind; [apply flag_ensureInitialised | intros _].
  flag. apply flag_report_loop.
Qed.

(** Every operation begins with the guard, so it ends with the flag set. *)
Lemma guarded_sets_flag {A} (rest : M A) s a s' :
  keeps_flag rest →
  bind ensureInitialised (λ _, rest) s = Done (a, s') → is_initialised s' ≠ 0.
Proof.
  intros Hk H. apply bind_inv in H as ([] & s1 & H1 & H2).
  eapply Hk; [exact H2 |]. eapply ensureInitialised_sets_flag. exact H1.
Qed.

(** C8.  The guard runs its body at most once.
    - In every state in which the flag is set, whatever memory and the free
      list hold, the guard changes nothing, however often it is run; nor
      does [freeMemory] of null, which is the guard alone, nor
      [reportFreeMemory], which is the guard followed by reads.
    - Every operation that returns leaves the flag set, in whatever state
      it was called; so the guard that opens every later operation is one
      of those that change nothing.
    - On a store of at least 16 bytes the first run of the guard sets the
      flag and installs one free block at the reserved-region boundary, of
      size length - 8 - 8, with no successor; running the guard any number
      of times gives that same state, in which [reportFreeMemory] keeps
      answering the size of that block. *)
Theorem guard_runs_once :
  (∀ s, is_initialised s ≠ 0 →
        ensureInitialised s = Done (tt, s) ∧
        (∀ k, repeat_guard k s = Done (tt, s)) ∧
        (∀ fuel, freeMemory fuel NULL s = Done (tt, s)) ∧
        (∀ fuel t s', reportFreeMemory fuel s = Done (t, s') → s' = s)) ∧
  (∀ s s',
        ensureInitialised s = Done (tt, s') ∨
        (∃ fuel n p, allocateMemory fuel n s = Done (p, s')) ∨
        (∃ fuel ptr, freeMemory fuel ptr s = Done (tt, s')) ∨
        (∃ fuel t, reportFreeMemory fuel s = Done (t, s')) →
        is_initialised s' ≠ 0) ∧
  (∀ s, is_initialised s = 0 →
        16 <= bytes (host s) < 2 ^ 32 →
        ∃ s1,
          ensureInitialised s = Done (tt, s1) ∧
          is_initialised s1 ≠ 0 ∧
          host s1 = host s ∧
          free_list s1 = initial_offset ∧
          chain (mem s1) (free_list s1)
                [(initial_offset, bytes (host s) - header_size - initial_offset)] ∧
          (∀ k, repeat_guard (S k) s = Done (tt, s1)) ∧
          (∀ k, repeat_guard k s1 = Done (tt, s1)) ∧
          (∀ fuel, freeMemory fuel NULL s1 = Done (tt, s1)) ∧
          (∀ fuel, (1 < fuel)%nat →
                   reportFreeMemory fuel s1
                   = Done (bytes (host s) - header_size - initial_offset, s1))).
Proof.
  split; [| split].
  - intros s Hi.
    split; [apply ensureInitialised_done; exact Hi |].
    split; [intros k; apply repeat_guard_done; exact Hi |].
    split.
    { intros fuel. rewrite freeMemory_null. apply ensureInitialised_done. exact Hi. }
    intros fuel t s' H. unfold reportFreeMemory in H.
    rewrite (bind_done _ _ _ _ _ (ensureInitialised_done s Hi)) in H.
    rewrite bind_get_free_list in H.
    destruct (free_list s =? NULL); [inversion H; reflexivity |].
    eapply report_loop_state. exact H.
  - intros s s' [H | [(fuel & n & p & H) | [(fuel & ptr & H) | (fuel & t & H)]]].
    + eapply ensureInitialised_sets_flag. exact H.
    + destruct fuel as [| f]; [discriminate |].
      cbn [allocateMemory] in H.
      eapply guarded_sets_flag; [| exact H].
      flag; first [apply flag_getMoreMemory | apply flag_alloc_loop
                  | apply flag_allocateMemory].
    + unfold freeMemory in H.
      eapply guarded_sets_flag; [| exact H].
      unfold free_attach_current, free_attach_previous.
      flag. apply flag_free_loop.
    + unfold reportFreeMemory in H.
      eapply guarded_sets_flag; [| exact H].
      flag. apply flag_report_loop.
  - intros s H0 Hlen.
    pose proof (ensureInitialised_first s H0 Hlen) as Hfirst.
    set (s1 := {| mem := <[8 := 0]> (<[12 := bytes (host s) - 16]> (mem s));
                  free_list := 8; is_initialised := 1; host := host s |}) in *.
    assert (Hi1 : is_initialised s1 ≠ 0) by (subst s1; fields; lia).
    exists s1. split; [exact Hfirst |]. split; [exact Hi1 |].
    split; [reflexivity |]. split; [reflexivity |].
    split.
    { subst s1. fields. unfold chain. cbn [seg fst snd]. consts. rdsimp.
      repeat split; lia. }
    split.
    { intros k. cbn [repeat_guard]. rewrite (bind_done _ _ _ _ _ Hfirst).
      apply repeat_guard_done. exact Hi1. }
    split; [intros k; apply repeat_guard_done; exact Hi1 |].
    split.
    { intros fuel. rewrite freeMemory_null. apply ensureInitialised_done. exact Hi1. }
    intros fuel Hfuel. unfold reportFreeMemory.
    rewrite (bind_done _ _ _ _ _ (ensureInitialised_done s1 Hi1)).
    rewrite bind_get_free_list.
    destruct fuel as [| [| f]]; [lia | lia |].
    subst s1. fields. cbn [Z.eqb NULL report_loop]. consts.
    exec. rdsimp. cbn [Z.eqb].
    rewrite wrap_small by lia.
    replace (0 + (bytes (host s) - 16)) with (bytes (host s) - 8 - 8) by lia.
    reflexivity.
Qed.

Lemma guard_runs_once_witness :
  is_initialised fixed_store = 0 ∧
  16 <= bytes (host fixed_store) < 2 ^ 32 ∧
  (∃ s1,
    ensureInitialised fixed_store = Done (tt, s1) ∧
    is_initialised s1 ≠ 0 ∧
    free_list s1 = initial_offset ∧
    (∀ k, repeat_guard (S k) fixed_store = Done (tt, s1))) ∧
  is_initialised head_with_successor ≠ 0 ∧
  ensureInitialised head_with_successor = Done (tt, head_with_successor).
Proof.
  assert (H1 : is_initialised fixed_store = 0) by reflexivity.
  assert (H2 : 16 <= bytes (host fixed_store) < 2 ^ 32) by (cbn; lia).
  assert (H3 : is_initialised head_with_successor ≠ 0) by (vm_compute; discriminate).
  split; [exact H1 |]. split; [exact H2 |].
  split.
  - destruct (proj2 (proj2 guard_runs_once) fixed_store H1 H2)
      as (s1 & Ha & Hb & _ & Hc & _ & Hd & _).
    exists s1. split; [exact Ha |]. split; [exact Hb |]. split; [exact Hc | exact Hd].
  - split; [exact H3 |].
    exact (proj1 (proj1 guard_runs_once head_with_successor H3)).
Defined.

(** ** C9: freeing the null pointer *)

(** C9 as stated fails on an allocator that has not been used yet: the
    list head is null before [freeMemory] of null and 8 after it, because
    the call runs the guard, which installs the initial block. *)
Lemma free_null_initialises_counterexample :
  chain (mem fixed_store) (free_list fixed_store) [] ∧
  value (freeMemory 1 NULL) fixed_store = Some tt ∧
  free_list (after (freeMemory 1 NULL) fixed_store) = 8 ∧
  chain (mem (after (freeMemory 1 NULL) fixed_store))
        (free_list (after (freeMemory 1 NULL) fixed_store)) [(8, 65520)] ∧
  free_list (after (freeMemory 1 NULL) fixed_store) ≠ free_list fixed_store.
Proof. concrete. Qed.

(** C9, as amended.  [freeMemory] of null is the guard and nothing else;
    on an allocator that is already initialised it leaves the whole state,
    free list included, as it was. *)
Theorem free_null_changes_nothing fuel s :
  freeMemory fuel NULL s = ensureInitialised s ∧
  (is_initialised s ≠ 0 → freeMemory fuel NULL s = Done (tt, s)).
Proof.
  split; [apply freeMemory_null |].
  intros Hi. rewrite freeMemory_null. apply ensureInitialised_done. exact Hi.
Qed.

Lemma free_null_changes_nothing_witness :
  is_initialised initialised_store ≠ 0 ∧
  freeMemory 1 NULL initialised_store = Done (tt, initialised_store).
Proof.
  assert (H : is_initialised initialised_store ≠ 0) by (vm_compute; discriminate).
  split; [exact H |].
  exact (proj2 (free_null_changes_nothing 1 initialised_store) H).
Defined.

(** ** C10: a request for zero bytes *)

(** C10 as stated fails when the first free block has size 0.  The free
    list is the single block at 65528 of size 0; [allocateMemory 0] returns
    the non-null pointer 65536 and removes that block, and
    [reportFreeMemory] answers 0 before and after: nothing is subtracted. *)
Lemma zero_request_exact_fit_counterexample :
  chain (mem empty_block_only) (free_list empty_block_only) [(65528, 0)] ∧
  value (reportFreeMemory 2) empty_block_only = Some 0 ∧
  value (allocateMemory 2 0) empty_block_only = Some 65536 ∧
  value (reportFreeMemory 2) (after (allocateMemory 2 0) empty_block_only) = Some 0 ∧
  0 - 0 ≠ header_size.
Proof. concrete. Qed.

(** C10, as amended.  With a non-empty free list [allocateMemory 0] returns
    the payload pointer of the first free block, which is not null, and
    that block is now allocated with size 0.  When the first block was
    larger than 0 it is split and [reportFreeMemory] decreases by exactly
    8; when it had size 0 and was the only free block the list becomes
    empty and [reportFreeMemory] stays 0. *)
Theorem zero_byte_allocation fuel s b post live :
  Inv s (b :: post) live →
  (length (b :: post) < fuel)%nat →
  ∃ s',
    allocateMemory fuel 0 s = Done (b.1 + header_size, s') ∧
    b.1 + header_size ≠ NULL ∧
    allocated (mem s') (b.1, 0) ∧
    reportFreeMemory fuel s = Done (total_size (b :: post), s) ∧
    (0 < b.2 →
     chain (mem s') (free_list s') ((b.1 + header_size, b.2 - header_size) :: post) ∧
     reportFreeMemory fuel s' = Done (total_size (b :: post) - header_size, s')) ∧
    (b.2 = 0 → post = [] →
     free_list s' = NULL ∧ reportFreeMemory fuel s' = Done (0, s')).
Proof.
  intros HI Hfuel. cbn [length] in Hfuel.
  pose proof (Inv_nonempty_initialised _ _ _ HI ltac:(discriminate)) as Hi.
  pose proof (inv_free_ok _ _ _ HI) as Hok. apply Forall_cons in Hok as [Hbok _].
  unfold block_ok in Hbok.
  destruct (allocateMemory_fit fuel 0 s [] b post live HI ltac:(lia)
              ltac:(rewrite padded_zero; lia) ltac:(constructor) ltac:(simpl; lia))
    as (s' & Halloc & HI' & Hh' & Hi').
  rewrite padded_zero in HI'.
  pose proof (inv_live_hdr _ _ _ HI') as Hhdr. apply Forall_cons in Hhdr as [Hhdr _].
  exists s'. consts.
  split; [exact Halloc |]. split; [lia |]. split; [exact Hhdr |].
  split; [apply (reportFreeMemory_total fuel s _ live HI Hi); cbn [length]; lia |].
  split.
  - intros Hpos. rewrite taken_split in HI' by lia. cbn [app] in HI'.
    replace (b.1 + (0 + 8)) with (b.1 + 8) in HI' by lia.
    replace (b.2 - (0 + 8)) with (b.2 - 8) in HI' by lia.
    split; [exact (inv_chain _ _ _ HI') |].
    rewrite (reportFreeMemory_total fuel s' _ _ HI') by (cbn [length]; lia).
    cbn [total_size snd]. do 2 f_equal. lia.
  - intros Hzero ->. rewrite taken_exact_head in HI' by exact Hzero.
    pose proof (inv_chain _ _ _ HI') as Hc'.
    split; [exact Hc' |].
    apply (reportFreeMemory_total fuel s' _ _ HI'); [lia | cbn [length]; lia].
Qed.

Lemma zero_byte_allocation_witness :
  Inv initialised_store [(8, 65520)] [] ∧
  ∃ s',
    allocateMemory 2 0 initialised_store = Done (16, s') ∧
    16 ≠ NULL ∧
    allocated (mem s') (8, 0) ∧
    reportFreeMemory 2 initialised_store = Done (65520, initialised_store) ∧
    (0 < 65520 →
     chain (mem s') (free_list s') [(16, 65512)] ∧
     reportFreeMemory 2 s' = Done (65512, s')) ∧
    (65520 = 0 → @nil block = [] →
     free_list s' = NULL ∧ reportFreeMemory 2 s' = Done (0, s')).
Proof.
  split; [exact initialised_store_inv |].
  exact (zero_byte_allocation 2 initialised_store (8, 65520) [] []
           initialised_store_inv ltac:(simpl; lia)).
Defined.

(** * Further properties of the allocator *)

(** ** What holds in every reachable state *)

(** In every state the program reaches, the blocks the client holds do not
    overlap one another nor any free block, lie inside the store above the
    reserved 8 bytes, start on 8-byte boundaries, and still carry in their
    headers the size they were handed out with. *)
Theorem held_blocks_stay_apart len cap s live :
  16 <= len → len mod 8 = 0 → len <= cap → cap < 2 ^ 32 →
  reachable len cap s live →
  pairwise_disjoint live ∧
  Forall (block_ok (bytes (host s))) live ∧
  Forall (allocated (mem s)) live ∧
  ∃ fl, chain (mem s) (free_list s) fl ∧
        Forall (λ b, Forall (disjoint b) fl) live.
Proof.
  intros H1 H2 H3 H4 Hreach.
  destruct (reachable_inv len cap s live H1 H2 H3 H4 Hreach) as (fl & HI).
  split; [exact (inv_live_live _ _ _ HI) |].
  split; [exact (inv_live_ok _ _ _ HI) |].
  split; [exact (inv_live_hdr _ _ _ HI) |].
  exists fl. split; [exact (inv_chain _ _ _ HI) | exact (inv_live_free _ _ _ HI)].
Qed.

Lemma held_blocks_stay_apart_witness :
  reachable 65536 65536
    (after (do _ <- allocateMemory 2 8; allocateMemory 2 24) fixed_store)
    [(24, 24); (8, 8)] ∧
  pairwise_disjoint [(24, 24); (8, 8)].
Proof.
  assert (H : reachable 65536 65536
                (after (do _ <- allocateMemory 2 8; allocateMemory 2 24) fixed_store)
                [(24, 24); (8, 8)]).
  { eapply (reach_step 65536 65536 (after (allocateMemory 2 8) fixed_store) [(8, 8)]).
    - eapply (reach_step 65536 65536 fixed_store []); [apply reach_boot |].
      apply (step_allocate 2 8 fixed_store [] 16 (after (allocateMemory 2 8) fixed_store));
        [lia | vm_compute; reflexivity].
    - apply (step_allocate 2 24 (after (allocateMemory 2 8) fixed_store) [(8, 8)] 32
               (after (do _ <- allocateMemory 2 8; allocateMemory 2 24) fixed_store));
        [lia | vm_compute; reflexivity]. }
  split; [exact H |].
  exact (proj1 (held_blocks_stay_apart 65536 65536 _ _
                  ltac:(lia) ltac:(reflexivity) ltac:(lia) ltac:(lia) H)).
Defined.

Lemma gapped_separated lo fl :
  gapped lo fl →
  ∀ i j b c, (i < j)%nat → fl !! i = Some b → fl !! j = Some c →
             b.1 + 8 + b.2 < c.1.
Proof.
  revert lo. induction fl as [| d fl IH]; intros lo H i j b c Hij Hi Hj.
  - rewrite lookup_nil in Hi. discriminate.
  - destruct H as (H1 & H2 & H3).
    destruct j as [| j]; [lia |]. simpl in Hj.
    destruct i as [| i]; simpl in Hi.
    + inversion Hi; subst d.
      apply gapped_above in H3. rewrite Forall_forall in H3.
      apply list_elem_of_lookup_2 in Hj. apply H3 in Hj. lia.
    + eapply (IH _ H3 i j); [lia | eassumption | eassumption].
Qed.

(** In every state the program reaches, no free block touches or overlaps
    a later one: a free block ends strictly before the header of every free
    block behind it, so neighbours have always been merged. *)
Theorem free_blocks_never_touch len cap s live :
  16 <= len → len mod 8 = 0 → len <= cap → cap < 2 ^ 32 →
  reachable len cap s live →
  ∃ fl, chain (mem s) (free_list s) fl ∧
        ∀ i j b c, (i < j)%nat → fl !! i = Some b → fl !! j = Some c →
                   b.1 + header_size + b.2 < c.1.
Proof.
  intros H1 H2 H3 H4 Hreach.
  destruct (reachable_inv len cap s live H1 H2 H3 H4 Hreach) as (fl & HI).
  exists fl. split; [exact (inv_chain _ _ _ HI) |].
  exact (gapped_separated 0 fl (inv_gapped _ _ _ HI)).
Qed.

Lemma free_blocks_never_touch_witness :
  reachable 65536 65536 head_with_successor [(24, 8)] ∧
  ∃ fl, chain (mem head_with_successor) (free_list head_with_successor) fl ∧
        ∀ i j b c, (i < j)%nat → fl !! i = Some b → fl !! j = Some c →
                   b.1 + header_size + b.2 < c.1.
Proof.
  assert (H : reachable 65536 65536 head_with_successor [(24, 8)]).
  { eapply (reach_step 65536 65536
              (after (do _ <- allocateMemory 2 8; allocateMemory 2 8) fixed_store)
              ([(24, 8)] ++ (8, 8) :: [])).
    - eapply (reach_step 65536 65536 (after (allocateMemory 2 8) fixed_store) [(8, 8)]).
      + eapply (reach_step 65536 65536 fixed_store []); [apply reach_boot |].
        apply (step_allocate 2 8 fixed_store [] 16 (after (allocateMemory 2 8) fixed_store));
          [lia | vm_compute; reflexivity].
      + apply (step_allocate 2 8 (after (allocateMemory 2 8) fixed_store) [(8, 8)] 32
                 (after (do _ <- allocateMemory 2 8; allocateMemory 2 8) fixed_store));
          [lia | vm_compute; reflexivity].
    - apply (step_free 2 (8, 8) [(24, 8)] []
               (after (do _ <- allocateMemory 2 8; allocateMemory 2 8) fixed_store)
               head_with_successor).
      vm_compute. reflexivity. }
  split; [exact H |].
  exact (free_blocks_never_touch 65536 65536 _ _
           ltac:(lia) ltac:(reflexivity) ltac:(lia) ltac:(lia) H).
Defined.

(** ** What a successful allocation grants *)

(** Every call that returns either returns null, leaving the held blocks
    as they were, or returns the payload pointer of a new held block with
    room for at least the padded request; this holds through growth and
    the retries as well. *)
Lemma allocateMemory_grants : ∀ fuel n s fl live p s',
  Inv s fl live →
  0 <= n < 2 ^ 32 →
  allocateMemory fuel n s = Done (p, s') →
  (p = NULL ∧ ∃ fl', Inv s' fl' live) ∨
  (∃ fl' b, p = b.1 + header_size ∧ padded n <= b.2 ∧ Inv s' fl' (b :: live)).
Proof.
  induction fuel as [| f IH]; intros n s fl live p s' HI Hn Hrun; [discriminate |].
  cbn [allocateMemory] in Hrun.
  destruct (ensureInitialised_inv s fl live HI) as (s1 & fl1 & Hinit & HI1 & Hi1 & Hh1 & _).
  rewrite (bind_done _ _ _ _ _ Hinit) in Hrun.
  rewrite bind_get_free_list in Hrun.
  pose proof (padded_range n) as Hr. pose proof (padded_mod8 n) as Hr8.
  set (r := padded n) in *.
  pose proof (wrap_range (r + header_size)) as Hbph.
  set (bph := wrap (r + header_size)) in *.
  pose proof (inv_host _ _ _ HI1) as (Hlen16 & Hlen8 & Hlencap & Hcap32).
  (* the list the scan starts from *)
  assert (Hstage :
    (p = NULL ∧ ∃ fl', Inv s' fl' live) ∨
    ∃ s2 fl2, Inv s2 fl2 live ∧ is_initialised s2 ≠ 0 ∧
      bind (alloc_loop (S f) r bph (free_list s2) (free_list s2))
        (λ found, match found with
                  | Some p => ret p
                  | None =>
                      bind (getMoreMemory (S f) r)
                        (λ more, if more =? NULL then ret NULL
                                 else allocateMemory f bph)
                  end) s2 = Done (p, s')).
  { destruct (free_list s1 =? NULL) eqn:Ehead.
    - apply Z.eqb_eq in Ehead.
      pose proof (inv_chain _ _ _ HI1) as Hc1. rewrite Ehead in Hc1.
      apply chain_null in Hc1. subst fl1.
      rewrite bind_assoc in Hrun.
      destruct (blocks_for_spec bph ltac:(lia)) as [[_ Hk] | (_ & Hk & _)].
      { rewrite (bind_trap _ _ _ (getMoreMemory_no_pages (S f) bph s1 Hk
                   ltac:(lia) Hcap32)) in Hrun. discriminate. }
      destruct (Z_lt_le_dec (capacity (host s1)) (bytes (host s1) + blocks_for bph * BLKSIZ))
        as [Hno | Hyes].
      + rewrite (bind_done _ _ _ _ _ (getMoreMemory_refused (S f) bph s1 Hno)) in Hrun.
        rewrite bind_assoc, bind_set_free_list, bind_ret in Hrun.
        cbn in Hrun. inversion Hrun; subst p s'.
        left. split; [reflexivity |]. exists [].
        rewrite (grow_fail _ _ Hno). cbn [snd].
        replace (with_free_list NULL _) with
          (with_host {| bytes := bytes (host s1); capacity := capacity (host s1);
                        calls := calls (host s1) ++ [(blocks_for bph, 0)] |} s1)
          by (destruct s1; cbn in *; subst; reflexivity).
        apply Inv_calls; [exact HI1 | reflexivity | reflexivity].
      + destruct (getMoreMemory_grown (S f) bph s1 [] live HI1 Hi1 ltac:(lia) Hyes)
          as [[Hbad _] | (s2 & Hg & Hfl2 & HI2 & Hh2 & Hi2)].
        { rewrite (bind_fuel _ _ _ Hbad) in Hrun. discriminate. }
        rewrite (bind_done _ _ _ _ _ Hg) in Hrun.
        rewrite bind_assoc, bind_set_free_list, bind_ret in Hrun.
        replace (free_list s2 =? NULL) with false in Hrun
          by (symmetry; apply Z.eqb_neq; exact Hfl2).
        cbn [negb] in Hrun. rewrite with_free_list_id in Hrun.
        rewrite bind_get_free_list in Hrun.
        right. exists s2. eexists. split; [exact HI2 |].
        split; [rewrite Hi2; exact Hi1 | exact Hrun].
    - rewrite bind_ret in Hrun. cbn [negb] in Hrun.
      rewrite bind_get_free_list in Hrun.
      right. exists s1, fl1. split; [exact HI1 |]. split; [exact Hi1 | exact Hrun]. }
  destruct Hstage as [[-> Hdone] | (s2 & fl2 & HI2 & Hi2 & Hscan)];
    [left; split; [reflexivity | exact Hdone] |].
  clear Hrun HI Hinit HI1 Hi1 Hh1 Hlen16 Hlen8 Hlencap Hcap32 s fl s1 fl1.
  pose proof (inv_host _ _ _ HI2) as (Hlen16 & Hlen8 & Hlencap & Hcap32).
  destruct (first_fit_cases r fl2) as [Hnone | (pre & b & post & -> & Hsmall & Hrb)].
  - (* nothing fits: grow and retry *)
    rewrite (bind_done _ _ _ (None : option Z) s2) in Hscan.
    2:{ rewrite (alloc_loop_no_fit (S f) r bph s2 fl2 (inv_chain _ _ _ HI2)
                  (inv_free_ok _ _ _ HI2) Hnone).
        destruct (S f <=? length fl2)%nat eqn:E; [| reflexivity].
        exfalso.
        rewrite (bind_fuel _ _ s2) in Hscan; [discriminate |].
        rewrite (alloc_loop_no_fit (S f) r bph s2 fl2 (inv_chain _ _ _ HI2)
                  (inv_free_ok _ _ _ HI2) Hnone). rewrite E. reflexivity. }
    destruct (blocks_for_spec r ltac:(lia)) as [[_ Hk] | (Hw & Hk & _)].
    { rewrite (bind_trap _ _ _ (getMoreMemory_no_pages (S f) r s2 Hk
                 ltac:(lia) Hcap32)) in Hscan. discriminate. }
    destruct (Z_lt_le_dec (capacity (host s2)) (bytes (host s2) + blocks_for r * BLKSIZ))
      as [Hno | Hyes].
    + rewrite (bind_done _ _ _ _ _ (getMoreMemory_refused (S f) r s2 Hno)) in Hscan.
      cbn in Hscan. inversion Hscan; subst p s'.
      left. split; [reflexivity |]. exists fl2.
      rewrite (grow_fail _ _ Hno). cbn [snd].
      apply Inv_calls; [exact HI2 | reflexivity | reflexivity].
    + destruct (getMoreMemory_grown (S f) r s2 fl2 live HI2 Hi2 ltac:(lia) Hyes)
        as [[Hbad _] | (s3 & Hg & Hfl3 & HI3 & Hh3 & Hi3)].
      { rewrite (bind_fuel _ _ _ Hbad) in Hscan. discriminate. }
      rewrite (bind_done _ _ _ _ _ Hg) in Hscan.
      replace (free_list s3 =? NULL) with false in Hscan
        by (symmetry; apply Z.eqb_neq; exact Hfl3).
      assert (Ebph : bph = r + 8).
      { subst bph. consts. unfold wrap in *. zlia. }
      destruct (IH bph s3 _ live p s' HI3 ltac:(lia) Hscan)
        as [Hnull | (fl' & b & Hp & Hsz & HI')]; [left; exact Hnull |].
      right. exists fl', b. split; [exact Hp |]. split; [| exact HI'].
      rewrite padded_fixed in Hsz by (rewrite ?Ebph; zlia). lia.
  - (* served from the list *)
    destruct (alloc_loop_fit (S f) r s2 pre b post live HI2 ltac:(lia) Hr8 Hrb Hsmall)
      as [[Hbad _] | (s3 & Hfit & HI3 & Hh3 & Hi3)].
    { fold bph in Hbad. rewrite (bind_fuel _ _ _ Hbad) in Hscan. discriminate. }
    fold bph in Hfit. rewrite (bind_done _ _ _ _ _ Hfit) in Hscan.
    cbn in Hscan. inversion Hscan; subst p s'.
    right. exists (taken r pre b post), (b.1, r).
    split; [reflexivity |]. split; [cbn [snd]; lia | exact HI3].
Qed.

(** A non-null result of [allocateMemory], for a request of at most
    2^32 - 8 bytes, points to a payload of at least the requested size: the
    pointer is 8-byte aligned and lies above the reserved region, the
    payload ends inside the store, the header in front of it records its
    size, and the block overlaps no block the client already held. *)
Theorem allocation_is_usable fuel n s fl live p s' :
  Inv s fl live →
  0 <= n <= 2 ^ 32 - 8 →
  allocateMemory fuel n s = Done (p, s') →
  p ≠ NULL →
  ∃ size,
    rd (mem s') (p - 4) = size ∧ n <= size ∧
    p mod 8 = 0 ∧ 16 <= p ∧ p + size <= bytes (host s') ∧
    Forall (disjoint (p - header_size, size)) live.
Proof.
  intros HI Hn Hrun Hp.
  destruct (allocateMemory_grants fuel n s fl live p s' HI ltac:(lia) Hrun)
    as [[Hnull _] | (fl' & b & -> & Hsz & HI')]; [contradiction |].
  pose proof (inv_live_ok _ _ _ HI') as Hok. apply Forall_cons in Hok as [Hb _].
  pose proof (inv_live_hdr _ _ _ HI') as Hhdr. apply Forall_cons in Hhdr as [[_ Hhdr] _].
  pose proof (inv_live_live _ _ _ HI') as [Hdis _].
  pose proof (padded_ge n ltac:(lia) ltac:(lia)) as Hpad.
  unfold block_ok in Hb. consts.
  exists b.2. replace (b.1 + 8 - 4) with (b.1 + 4) by lia.
  split; [exact Hhdr |]. split; [lia |]. split; [zlia |].
  split; [lia |]. split; [lia |].
  replace (b.1 + 8 - 8, b.2) with b by (destruct b; cbn [fst snd]; f_equal; lia).
  exact Hdis.
Qed.

Lemma allocation_is_usable_witness :
  Inv initialised_store [(8, 65520)] [] ∧
  allocateMemory 2 100 initialised_store
  = Done (16, after (allocateMemory 2 100) initialised_store) ∧
  ∃ size,
    rd (mem (after (allocateMemory 2 100) initialised_store)) (16 - 4) = size ∧
    100 <= size ∧ 16 mod 8 = 0 ∧ 16 <= 16 ∧
    16 + size <= bytes (host (after (allocateMemory 2 100) initialised_store)) ∧
    Forall (disjoint (16 - header_size, size)) [].
Proof.
  assert (H : allocateMemory 2 100 initialised_store
              = Done (16, after (allocateMemory 2 100) initialised_store))
    by (vm_compute; reflexivity).
  split; [exact initialised_store_inv |]. split; [exact H |].
  exact (allocation_is_usable 2 100 initialised_store _ [] 16 _
           initialised_store_inv ltac:(lia) H ltac:(discriminate)).
Defined.

(** A request within 7 bytes of 2^32 is padded past 2^32 and wraps to 0:
    with a non-empty free list the call succeeds and hands out a block of
    size 0, the payload pointer of the first free block. *)
Theorem request_near_wraparound_gets_empty_block fuel n s b post live :
  Inv s (b :: post) live →
  2 ^ 32 - 8 < n < 2 ^ 32 →
  (0 < fuel)%nat →
  padded n = 0 ∧
  ∃ s', allocateMemory fuel n s = Done (b.1 + header_size, s') ∧
        allocated (mem s') (b.1, 0) ∧
        b.1 + header_size ≠ NULL.
Proof.
  intros HI Hn Hfuel.
  assert (Hpad : padded n = 0) by (unfold padded, wrap; zlia).
  split; [exact Hpad |].
  pose proof (inv_free_ok _ _ _ HI) as Hok. apply Forall_cons in Hok as [Hbok _].
  unfold block_ok in Hbok.
  destruct (allocateMemory_fit fuel n s [] b post live HI ltac:(lia)
              ltac:(rewrite Hpad; lia) ltac:(constructor) ltac:(simpl; lia))
    as (s' & Halloc & HI' & _).
  rewrite Hpad in HI'.
  pose proof (inv_live_hdr _ _ _ HI') as Hhdr. apply Forall_cons in Hhdr as [Hhdr _].
  exists s'. split; [exact Halloc |]. split; [exact Hhdr |]. consts. lia.
Qed.

Lemma request_near_wraparound_gets_empty_block_witness :
  Inv initialised_store [(8, 65520)] [] ∧
  2 ^ 32 - 8 < 4294967295 < 2 ^ 32 ∧
  padded 4294967295 = 0 ∧
  ∃ s', allocateMemory 1 4294967295 initialised_store = Done (16, s') ∧
        allocated (mem s') (8, 0) ∧
        16 ≠ NULL.
Proof.
  assert (H : 2 ^ 32 - 8 < 4294967295 < 2 ^ 32) by lia.
  split; [exact initialised_store_inv |]. split; [exact H |].
  exact (request_near_wraparound_gets_empty_block 1 4294967295 initialised_store
           (8, 65520) [] [] initialised_store_inv H ltac:(lia)).
Defined.

(** ** Allocate, free, allocate again *)

(** A block served from the free list and freed right away leaves the free
    list as it was before the allocation. *)
Lemma allocate_then_free_restores fuel n s pre b post live :
  Inv s (pre ++ b :: post) live →
  0 <= n < 2 ^ 32 →
  padded n <= b.2 →
  (padded n = b.2 → pre ≠ [] ∨ post = []) →
  Forall (λ c, c.2 < padded n) pre →
  (length (pre ++ b :: post) < fuel)%nat →
  ∃ s1 s2,
    allocateMemory fuel n s = Done (b.1 + header_size, s1) ∧
    freeMemory fuel (b.1 + header_size) s1 = Done (tt, s2) ∧
    Inv s2 (pre ++ b :: post) live.
Proof.
  intros HI Hn Hrb Hexact Hsmall Hfuel.
  pose proof (inv_gapped _ _ _ HI) as Hg.
  pose proof (inv_free_ok _ _ _ HI) as Hok.
  apply Forall_app in Hok as [_ Hok]. apply Forall_cons in Hok as [Hbok _].
  unfold block_ok in Hbok.
  pose proof (padded_range n) as Hr. pose proof (padded_mod8 n) as Hr8.
  rewrite length_app in Hfuel. cbn [length] in Hfuel.
  destruct (allocateMemory_fit fuel n s pre b post live HI Hn Hrb Hsmall ltac:(lia))
    as (s1 & Halloc & HI1 & _).
  assert (Hrestore :
    ∃ fl', taken (padded n) pre b post = fl' ∧
           (length fl' <= length pre + length post + 1)%nat ∧
           insert_block (b.1, padded n) fl' = pre ++ b :: post).
  { destruct (padded n <? b.2) eqn:E.
    - apply Z.ltb_lt in E. eexists. split; [apply taken_split; lia |].
      split; [rewrite length_app; cbn [length]; lia |].
      apply (insert_block_undo_split 0); [exact Hg | lia | zlia].
    - apply Z.ltb_ge in E. assert (Eq : padded n = b.2) by lia.
      exists (pre ++ post). split.
      + destruct (Hexact Eq) as [Hpre | ->].
        * apply taken_exact_interior; [lia | exact Hpre].
        * destruct pre; [apply taken_exact_head; lia |].
          apply taken_exact_interior; [lia | discriminate].
      + split; [rewrite length_app; lia |].
        rewrite Eq. replace (b.1, b.2) with b by (destruct b; reflexivity).
        apply (insert_block_undo_exact 0). exact Hg. }
  destruct Hrestore as (fl' & Hfl' & Hlen' & Hins').
  rewrite Hfl' in HI1.
  destruct (freeMemory_held fuel s1 fl' [] (b.1, padded n) live HI1 ltac:(lia))
    as (s2 & Hfree & HI2 & _).
  cbn [fst app] in Hfree, HI2. rewrite Hins' in HI2.
  exists s1, s2. split; [exact Halloc |]. split; [exact Hfree | exact HI2].
Qed.

(** Exact-fit reuse.  A request served from the free list (by a split, or
    by an exact fit that is not a head with successors), freed right away
    and made again, is served at the same address; in between, the free
    list is what it was before the first call. *)
Theorem freed_block_is_reused fuel n s pre b post live :
  Inv s (pre ++ b :: post) live →
  0 <= n < 2 ^ 32 →
  padded n <= b.2 →
  (padded n = b.2 → pre ≠ [] ∨ post = []) →
  Forall (λ c, c.2 < padded n) pre →
  (length (pre ++ b :: post) < fuel)%nat →
  ∃ p s1 s2 s3,
    allocateMemory fuel n s = Done (p, s1) ∧
    freeMemory fuel p s1 = Done (tt, s2) ∧
    chain (mem s2) (free_list s2) (pre ++ b :: post) ∧
    allocateMemory fuel n s2 = Done (p, s3).
Proof.
  intros HI Hn Hrb Hexact Hsmall Hfuel.
  destruct (allocate_then_free_restores fuel n s pre b post live HI Hn Hrb Hexact
              Hsmall Hfuel) as (s1 & s2 & Ha & Hf & HI2).
  rewrite length_app in Hfuel. cbn [length] in Hfuel.
  destruct (allocateMemory_fit fuel n s2 pre b post live HI2 Hn Hrb Hsmall ltac:(lia))
    as (s3 & Ha3 & _).
  exists (b.1 + header_size), s1, s2, s3.
  split; [exact Ha |]. split; [exact Hf |].
  split; [exact (inv_chain _ _ _ HI2) | exact Ha3].
Qed.

Lemma freed_block_is_reused_witness :
  Inv initialised_store ([] ++ (8, 65520) :: []) [] ∧
  padded 100 <= (8, 65520).2 ∧
  ∃ p s1 s2 s3,
    allocateMemory 2 100 initialised_store = Done (p, s1) ∧
    freeMemory 2 p s1 = Done (tt, s2) ∧
    chain (mem s2) (free_list s2) ([] ++ (8, 65520) :: []) ∧
    allocateMemory 2 100 s2 = Done (p, s3).
Proof.
  assert (H1 : Inv initialised_store ([] ++ (8, 65520) :: []) [])
    by exact initialised_store_inv.
  assert (H2 : padded 100 <= (8, 65520).2) by (vm_compute; discriminate).
  split; [exact H1 |]. split; [exact H2 |].
  exact (freed_block_is_reused 2 100 initialised_store [] (8, 65520) [] [] H1
           ltac:(lia) H2 ltac:(intros _; right; reflexivity)
           ltac:(constructor) ltac:(simpl; lia)).
Defined.

(** ** [reportFreeMemory] *)

(** [reportFreeMemory] writes nothing of its own: whatever memory holds,
    the state it returns in is the state the guard leaves, so on an
    initialised allocator it is the state it was called in. *)
Theorem reportFreeMemory_only_reads fuel s t s' :
  reportFreeMemory fuel s = Done (t, s') →
  ensureInitialised s = Done (tt, s') ∧
  (is_initialised s ≠ 0 → s' = s).
Proof.
  intros H. unfold reportFreeMemory in H.
  apply bind_inv in H as ([] & s1 & Hinit & H).
  rewrite bind_get_free_list in H.
  assert (Hs : s' = s1).
  { destruct (free_list s1 =? NULL); [inversion H; reflexivity |].
    eapply report_loop_state. exact H. }
  subst s1. split; [exact Hinit |].
  intros Hi. rewrite (ensureInitialised_done s Hi) in Hinit.
  inversion Hinit. reflexivity.
Qed.

Lemma reportFreeMemory_only_reads_witness :
  reportFreeMemory 3 head_with_successor = Done (65496, head_with_successor) ∧
  ensureInitialised head_with_successor = Done (tt, head_with_successor).
Proof.
  assert (H : reportFreeMemory 3 head_with_successor = Done (65496, head_with_successor))
    by (vm_compute; reflexivity).
  split; [exact H |].
  exact (proj1 (reportFreeMemory_only_reads 3 head_with_successor 65496
                  head_with_successor H)).
Defined.

Lemma free_space_fits lo len fl :
  gapped lo fl → Forall (block_ok len) fl → lo <= len →
  total_size fl + 8 * Z.of_nat (length fl) <= len - lo.
Proof.
  revert lo. induction fl as [| b fl IH]; intros lo Hg Hok Hlo.
  - simpl. lia.
  - destruct Hg as (H1 & H2 & Hg). apply Forall_cons in Hok as [Hb Hok].
    unfold block_ok in Hb.
    specialize (IH _ Hg Hok ltac:(lia)).
    cbn [total_size length]. lia.
Qed.

(** On a well-formed, initialised allocator [reportFreeMemory] returns,
    once the fuel exceeds the length of the free list, the sum of the
    payload sizes of the free blocks and leaves the state as it was; no
    other answer is ever returned; and the sum has not wrapped around:
    with one header per free block and the reserved 8 bytes it fits in the
    store. *)
Theorem reported_free_space_fits_store fuel s fl live :
  Inv s fl live →
  is_initialised s ≠ 0 →
  (length fl < fuel)%nat →
  reportFreeMemory fuel s = Done (total_size fl, s) ∧
  (∀ fuel' t s', reportFreeMemory fuel' s = Done (t, s') → t = total_size fl ∧ s' = s) ∧
  0 <= total_size fl ∧
  total_size fl + header_size * Z.of_nat (length fl) + initial_offset
  <= bytes (host s).
Proof.
  intros HI Hi Hfuel.
  split; [exact (reportFreeMemory_total fuel s fl live HI Hi Hfuel) |].
  split.
  { intros fuel' t s' Hrun.
    destruct (reportFreeMemory_core fuel' s fl live HI Hi) as [[Hbad _] | Hgood].
    - rewrite Hbad in Hrun. discriminate.
    - rewrite Hgood in Hrun. inversion Hrun; subst t s'. split; reflexivity. }
  pose proof (inv_gapped _ _ _ HI) as Hg.
  pose proof (inv_free_ok _ _ _ HI) as Hok.
  pose proof (inv_host _ _ _ HI) as (Hlen & _).
  destruct (total_size_bound _ _ _ Hg Hok) as [Hpos _].
  split; [exact Hpos |]. consts.
  destruct fl as [| b fl]; [simpl; lia |].
  destruct Hg as (H1 & H2 & Hg). apply Forall_cons in Hok as [Hb Hok].
  unfold block_ok in Hb.
  pose proof (free_space_fits _ _ _ Hg Hok ltac:(lia)) as Hfit.
  cbn [total_size length]. lia.
Qed.

Lemma reported_free_space_fits_store_witness :
  Inv initialised_store [(8, 65520)] [] ∧
  is_initialised initialised_store ≠ 0 ∧
  reportFreeMemory 2 initialised_store = Done (65520, initialised_store) ∧
  65520 + header_size * Z.of_nat (length [(8, 65520)]) + initial_offset
  <= bytes (host initialised_store).
Proof.
  assert (H1 : is_initialised initialised_store ≠ 0) by (vm_compute; discriminate).
  assert (H2 : Nat.lt (length [(8, 65520)]) 2%nat) by (cbn; lia).
  split; [exact initialised_store_inv |]. split; [exact H1 |].
  destruct (reported_free_space_fits_store 2 initialised_store [(8, 65520)] []
              initialised_store_inv H1 H2) as (Ha & _ & _ & Hb).
  split; [exact Ha | exact Hb].
Defined.

(** ** Growth *)

(** The page count covers the request and one header, and no smaller count
    does. *)
Lemma blocks_for_covers n :
  0 <= n < 2 ^ 32 - 8 →
  (blocks_for n - 1) * BLKSIZ < n + header_size <= blocks_for n * BLKSIZ.
Proof.
  intros Hn.
  destruct (blocks_for_spec n ltac:(lia)) as [[Hw _] | (Hw & Hk & Hb)].
  - exfalso. unfold wrap in Hw. zlia.
  - consts. rewrite wrap_small in Hb by lia. lia.
Qed.



Lemma insert_block_extends_tail lo pre p sz :
  gapped lo (pre ++ [p]) →
  insert_block (p.1 + 8 + p.2, sz) (pre ++ [p]) = pre ++ [(p.1, p.2 + (sz + 8))].
Proof.
  intros Hg.
  pose proof (gapped_above _ _ Hg) as Habove.
  replace (pre ++ [p]) with ((pre ++ [p]) ++ []) at 1 by apply app_nil_r.
  rewrite (insert_block_join _ _ _ lo Hg); [| | left; reflexivity].
  - rewrite join_snoc. cbn [merge_next fst snd]. rewrite Z.eqb_refl. reflexivity.
  - cbn [fst].
    pose proof (gapped_before _ _ Hg) as Hbefore. rewrite last_end_snoc in Hbefore.
    forall_lia.
Qed.

Lemma insert_block_appends lo fl a sz :
  gapped lo fl → Forall (λ c, c.1 + 8 + c.2 < a) fl →
  insert_block (a, sz) fl = fl ++ [(a, sz)].
Proof.
  intros Hg Hfar.
  pose proof (gapped_above _ _ Hg) as Habove.
  replace fl with (fl ++ []) at 1 by apply app_nil_r.
  rewrite (insert_block_join _ _ _ lo Hg); [| cbn [fst]; forall_lia | left; reflexivity].
  apply join_far; [discriminate |]. cbn [head_addr fst]. forall_lia.
Qed.

(** Growth next to a free tail.  When the last free block ends exactly at
    the end of the store and the provider grants the pages, [getMoreMemory]
    adds no block: the last free block grows by the whole size of the new
    pages, and the list head, which it returns, stays what it was. *)
Theorem growth_extends_free_tail fuel n s pre p live :
  Inv s (pre ++ [p]) live →
  0 <= n < 2 ^ 32 - 8 →
  p.1 + header_size + p.2 = bytes (host s) →
  bytes (host s) + blocks_for n * BLKSIZ <= capacity (host s) →
  (length (pre ++ [p]) < fuel)%nat →
  ∃ s', getMoreMemory fuel n s = Done (free_list s, s') ∧
        Inv s' (pre ++ [(p.1, p.2 + blocks_for n * BLKSIZ)]) live ∧
        bytes (host s') = bytes (host s) + blocks_for n * BLKSIZ.
Proof.
  intros HI Hn Hend Hcap Hfuel.
  pose proof (Inv_nonempty_initialised _ _ _ HI ltac:(destruct pre; discriminate)) as Hi.
  pose proof (blocks_for_covers n Hn) as Hk.
  assert (Hk1 : 1 <= blocks_for n) by (consts; lia).
  destruct (getMoreMemory_grown fuel n s _ live HI Hi Hk1 Hcap)
    as [[_ Hbad] | (s' & Hg & _ & HI' & Hh' & _)]; [lia |].
  consts. rewrite <- Hend in HI'.
  rewrite (insert_block_extends_tail 0 _ _ _ (inv_gapped _ _ _ HI)) in HI'.
  replace (blocks_for n * 65536 - 8 + 8) with (blocks_for n * 65536) in HI' by lia.
  pose proof (chain_head _ _ _ (inv_chain _ _ _ HI)) as Hhead.
  pose proof (chain_head _ _ _ (inv_chain _ _ _ HI')) as Hhead'.
  assert (Hsame : free_list s' = free_list s).
  { rewrite Hhead, Hhead'. destruct pre; reflexivity. }
  exists s'. rewrite <- Hsame. split; [exact Hg |]. split; [exact HI' |].
  rewrite Hh', (grow_ok _ _ Hcap). reflexivity.
Qed.

Lemma growth_extends_free_tail_witness :
  Inv (after ensureInitialised growable_store) ([] ++ [(8, 65520)]) [] ∧
  ∃ s', getMoreMemory 2 70000 (after ensureInitialised growable_store)
        = Done (free_list (after ensureInitialised growable_store), s') ∧
        Inv s' ([] ++ [(8, 65520 + blocks_for 70000 * BLKSIZ)]) [] ∧
        bytes (host s')
        = bytes (host (after ensureInitialised growable_store))
          + blocks_for 70000 * BLKSIZ.
Proof.
  assert (H1 : Inv (after ensureInitialised growable_store) ([] ++ [(8, 65520)]) [])
    by concrete.
  split; [exact H1 |].
  exact (growth_extends_free_tail 2 70000 (after ensureInitialised growable_store)
           [] (8, 65520) [] H1 ltac:(lia) ltac:(vm_compute; reflexivity)
           ltac:(vm_compute; discriminate) ltac:(simpl; lia)).
Defined.

(** Growth behind an allocated tail.  When every free block ends before
    the end of the store (or there is none) and the provider grants the
    pages, [getMoreMemory] appends one block at the old end of the store,
    of the size of the new pages less one header. *)
Theorem growth_appends_block fuel n s fl live :
  Inv s fl live →
  is_initialised s ≠ 0 →
  0 <= n < 2 ^ 32 - 8 →
  Forall (λ c, c.1 + header_size + c.2 < bytes (host s)) fl →
  bytes (host s) + blocks_for n * BLKSIZ <= capacity (host s) →
  (length fl < fuel)%nat →
  ∃ s', getMoreMemory fuel n s = Done (free_list s', s') ∧
        free_list s' ≠ NULL ∧
        Inv s' (fl ++ [(bytes (host s), blocks_for n * BLKSIZ - header_size)]) live ∧
        bytes (host s') = bytes (host s) + blocks_for n * BLKSIZ.
Proof.
  intros HI Hi Hn Hfar Hcap Hfuel.
  pose proof (blocks_for_covers n Hn) as Hk.
  assert (Hk1 : 1 <= blocks_for n) by (consts; lia).
  destruct (getMoreMemory_grown fuel n s _ live HI Hi Hk1 Hcap)
    as [[_ Hbad] | (s' & Hg & Hnn & HI' & Hh' & _)]; [lia |].
  consts.
  rewrite (insert_block_appends 0 _ _ _ (inv_gapped _ _ _ HI) Hfar) in HI'.
  exists s'. split; [exact Hg |]. split; [exact Hnn |]. split; [exact HI' |].
  rewrite Hh', (grow_ok _ _ Hcap). reflexivity.
Qed.

Lemma growth_appends_block_witness :
  Inv small_block_only [(8, 8)] [(24, 65504)] ∧
  is_initialised small_block_only ≠ 0 ∧
  ∃ s', getMoreMemory 2 100 small_block_only = Done (free_list s', s') ∧
        free_list s' ≠ NULL ∧
        Inv s' ([(8, 8)] ++ [(bytes (host small_block_only),
                               blocks_for 100 * BLKSIZ - header_size)])
            [(24, 65504)] ∧
        bytes (host s') = bytes (host small_block_only) + blocks_for 100 * BLKSIZ.
Proof.
  assert (H1 : Inv small_block_only [(8, 8)] [(24, 65504)]).
  { constructor.
    - concrete.
    - concrete.
    - concrete.
    - concrete.
    - concrete.
    - concrete.
    - constructor; [| constructor]. constructor; [| constructor].
      right. vm_compute. discriminate.
    - concrete.
    - intros H. vm_compute in H. discriminate. }
  assert (H2 : is_initialised small_block_only ≠ 0) by (vm_compute; discriminate).
  split; [exact H1 |]. split; [exact H2 |].
  exact (growth_appends_block 2 100 small_block_only [(8, 8)] [(24, 65504)] H1 H2
           ltac:(lia) ltac:(constructor; [vm_compute; reflexivity | constructor])
           ltac:(vm_compute; discriminate) ltac:(simpl; lia)).
Defined.

(** ** What the allocator never writes *)

(** The invariant only looks at the header words of the free and the held
    blocks. *)
Lemma Inv_agree s s' fl live :
  Inv s fl live →
  host s' = host s → free_list s' = free_list s →
  is_initialised s' = is_initialised s →
  Forall (λ c, rd (mem s') c.1 = rd (mem s) c.1 ∧
               rd (mem s') (c.1 + 4) = rd (mem s) (c.1 + 4)) (fl ++ live) →
  Inv s' fl live.
Proof.
  intros [Hh Hc Hfok Hg Hlok Hlhdr Hlf Hll Hfr] Hhost Hhead Hinit Hagree.
  apply Forall_app in Hagree as [Hafl Halive].
  constructor; rewrite ?Hhost, ?Hhead, ?Hinit; try assumption.
  - eapply seg_agree; [exact Hafl | exact Hc].
  - rewrite Forall_forall in *. intros l Hl.
    destruct (Halive l Hl) as [E1 E2].
    eapply allocated_agree; [exact E1 | exact E2 | apply Hlhdr; exact Hl].
Qed.

(** A word of a held block lies outside every free block. *)
Lemma held_word_off s fl live l x :
  Inv s fl live → l ∈ live → word_in x l →
  Forall (word_off x) fl ∧ x + 4 <= bytes (host s) ∧ 8 <= x.
Proof.
  intros HI Hl [H1 H2].
  pose proof (inv_live_ok _ _ _ HI) as Hlok.
  pose proof (inv_live_free _ _ _ HI) as Hlf.
  pose proof (inv_free_ok _ _ _ HI) as Hfok.
  rewrite Forall_forall in Hlok, Hlf.
  specialize (Hlok l Hl). specialize (Hlf l Hl).
  unfold block_ok in Hlok. consts.
  split; [| lia].
  unfold word_off. consts. clear HI. forall_pt. lia.
Qed.

(** The scan of [allocateMemory], when it serves the request from the list,
    writes only inside free blocks. *)
Lemma alloc_loop_fit_frame fuel r s pre b post live x :
  Inv s (pre ++ b :: post) live →
  0 <= r → r mod 8 = 0 → r <= b.2 →
  Forall (λ c, c.2 < r) pre →
  Forall (word_off x) (pre ++ b :: post) →
  (alloc_loop fuel r (wrap (r + header_size)) (free_list s) (free_list s) s = OutOfFuel
   ∧ (fuel <= length pre)%nat) ∨
  ∃ s', alloc_loop fuel r (wrap (r + header_size)) (free_list s) (free_list s) s
        = Done (Some (b.1 + 8), s') ∧
        rd (mem s') x = rd (mem s) x.
Proof.
  intros HI Hr Hr8 Hrb Hsmall Hx.
  pose proof HI as [Hh Hc Hfok Hg Hlok Hlhdr Hlf Hll Hfr].
  assert (Hlen : bytes (host s) < 2 ^ 32) by (unfold host_ok in Hh; lia).
  apply chain_app in Hc as [Hseg Hbc]. cbn [head_addr] in Hseg, Hbc.
  destruct Hbc as (_ & Hb0 & Hbsz & Hpc).
  apply Forall_app in Hfok as [Hpreok Hfok]. apply Forall_cons in Hfok as [Hbok Hpostok].
  apply Forall_app in Hx as [Hxpre Hxb]. apply Forall_cons in Hxb as [Hxb _].
  apply gapped_app in Hg as [Hgpre (Hb1 & Hb2 & Hgpost)].
  pose proof (gapped_before _ _ Hgpre) as Hprebefore.
  rewrite (alloc_loop_skip pre fuel r _ _ _ b.1 s Hseg) by (clear Hseg; forall_lia).
  destruct (fuel <=? length pre)%nat eqn:Efuel.
  { left. split; [reflexivity | apply Nat.leb_le; exact Efuel]. }
  right. apply Nat.leb_gt in Efuel.
  destruct (fuel - length pre)%nat as [| f] eqn:Ef; [lia |].
  destruct b as [a T]. unfold word_off in Hxb, Hxpre. cbn [fst snd] in *.
  pose proof Hbok as (Ha8 & Ham & HT0 & HTm & Haend). cbn [fst snd] in *.
  cbn [alloc_loop].
  replace (a =? NULL) with false by (symmetry; apply Z.eqb_neq; exact Hb0).
  consts. exec. rewrite Hbsz.
  rewrite (wrap_small (r + 8)) by lia.
  rewrite (wrap_small (a + 8)) by lia.
  destruct (T =? r) eqn:E.
  - (* exact match *)
    apply Z.eqb_eq in E. subst r. exec.
    destruct (rev_case pre) as [-> | (pre0 & p & ->)].
    + cbn [seg] in Hseg. rewrite <- Hseg. rewrite Z.eqb_refl.
      exec. eexists. split; [reflexivity |]. fields. rdsimp. reflexivity.
    + destruct (head_addr_elem (pre0 ++ [p]) ltac:(destruct pre0; discriminate))
        as (c & Hcin & Hchead).
      destruct (seg_head _ _ _ _ Hseg ltac:(destruct pre0; discriminate)) as [Hhead _].
      assert (Hca : c.1 < a).
      { rewrite Forall_forall in Hprebefore, Hpreok.
        specialize (Hprebefore c Hcin). specialize (Hpreok c Hcin).
        unfold block_ok in Hpreok. lia. }
      replace (a =? free_list s) with false by (symmetry; apply Z.eqb_neq; lia).
      rewrite last_addr_snoc.
      apply Forall_app in Hpreok as [Hpre0ok Hpok]. apply Forall_cons in Hpok as [Hpok _].
      apply Forall_app in Hprebefore as [_ Hpb]. apply Forall_cons in Hpb as [Hpb _].
      apply Forall_app in Hxpre as [_ Hxp]. apply Forall_cons in Hxp as [Hxp _].
      unfold block_ok in Hpok.
      exec. eexists. split; [reflexivity |]. fields. rdsimp. reflexivity.
  - (* a larger block is split *)
    apply Z.eqb_neq in E.
    replace (r <? T) with true by (symmetry; apply Z.ltb_lt; lia).
    assert (HrT : r + 8 <= T) by zlia.
    rewrite (wrap_small (a + (r + 8))) by lia.
    rewrite (wrap_small (T - (r + 8))) by lia.
    exec. rdsimp.
    destruct (rev_case pre) as [-> | (pre0 & p & ->)].
    + cbn [seg] in Hseg. rewrite <- Hseg. rewrite Z.eqb_refl.
      exec. eexists. split; [reflexivity |]. fields. rdsimp. reflexivity.
    + destruct (head_addr_elem (pre0 ++ [p]) ltac:(destruct pre0; discriminate))
        as (c & Hcin & Hchead).
      destruct (seg_head _ _ _ _ Hseg ltac:(destruct pre0; discriminate)) as [Hhead _].
      assert (Hca : c.1 < a).
      { rewrite Forall_forall in Hprebefore, Hpreok.
        specialize (Hprebefore c Hcin). specialize (Hpreok c Hcin).
        unfold block_ok in Hpreok. lia. }
      replace (a =? free_list s) with false by (symmetry; apply Z.eqb_neq; lia).
      rewrite last_addr_snoc.
      apply Forall_app in Hpreok as [Hpre0ok Hpok]. apply Forall_cons in Hpok as [Hpok _].
      apply Forall_app in Hprebefore as [_ Hpb]. apply Forall_cons in Hpb as [Hpb _].
      apply Forall_app in Hxpre as [_ Hxp]. apply Forall_cons in Hxp as [Hxp _].
      unfold block_ok in Hpok.
      exec. eexists. split; [reflexivity |]. fields. rdsimp. reflexivity.
Qed.

(** [freeMemory] writes only the header of the block it is given and the
    header of a free block. *)
Lemma freeMemory_frame fuel s fl l1 b l2 x :
  Inv s fl (l1 ++ b :: l2) →
  x + 4 <= b.1 ∨ b.1 + header_size <= x →
  Forall (λ c, x + 4 <= c.1 ∨ c.1 + header_size <= x) fl →
  (freeMemory fuel (b.1 + header_size) s = OutOfFuel ∧ (fuel <= length fl)%nat) ∨
  (∃ s', freeMemory fuel (b.1 + header_size) s = Done (tt, s') ∧
         rd (mem s') x = rd (mem s) x).
Proof.
  intros HI Hxb Hxfl.
  pose proof (Inv_initialised _ _ _ HI ltac:(destruct l1; discriminate)) as Hi.
  pose proof HI as [Hh Hc Hfok Hg Hlok Hlhdr Hlf Hll _].
  pose proof Hh as (Hlen16 & _ & _ & _).
  assert (Hlen : bytes (host s) < 2 ^ 32) by (unfold host_ok in Hh; lia).
  apply Forall_app in Hlok as [Hlok1 Hlok2]. apply Forall_cons in Hlok2 as [Hb Hlok2].
  apply Forall_app in Hlhdr as [_ Hlhdr2]. apply Forall_cons in Hlhdr2 as [Hbh _].
  apply Forall_app in Hlf as [Hlf1 Hlf2]. apply Forall_cons in Hlf2 as [Hbf Hlf2].
  clear Hlok1 Hlok2 Hlf1 Hlf2 Hll.
  destruct b as [u usz]. cbn [fst snd] in *.
  pose proof Hb as (Hu8 & Hum & Husz & Huszm & Huend). cbn [fst snd] in *.
  unfold freeMemory.
  rewrite (bind_done _ _ _ _ _ (ensureInitialised_done s Hi)).
  replace (u + header_size =? NULL) with false
    by (symmetry; apply Z.eqb_neq; consts; lia).
  replace (wrap (u + header_size - header_size)) with u
    by (rewrite wrap_small; consts; lia).
  rewrite bind_get_free_list.
  destruct (decide (fl = [])) as [-> | Hne].
  - right. unfold chain in Hc. simpl in Hc. rewrite Hc. cbn [Z.eqb NULL].
    exists (with_free_list u s). split; reflexivity.
  - destruct (seg_head _ _ _ _ Hc Hne) as [Hhead Hhead0].
    replace (free_list s =? NULL) with false by (symmetry; apply Z.eqb_neq; exact Hhead0).
    destruct (split_position u usz fl 0 Hg Hbf Husz) as (pre & post & -> & Hpre & Hpost).
    apply chain_app in Hc as [Hseg Hpc].
    apply Forall_app in Hfok as [Hpreok Hpostok].
    apply Forall_app in Hxfl as [Hxpre _].
    pose proof Hg as Hg'. apply gapped_app in Hg' as [Hgpre Hgpost].
    assert (Hloop : free_loop fuel u (free_list s) (free_list s) s =
                    if (fuel <=? length pre)%nat then OutOfFuel
                    else Done ((head_addr post, last_addr NULL pre), s)).
    { apply free_loop_result; try assumption.
      - clear Hseg. forall_lia.
      - clear Hpc. consts. forall_lia. }
    destruct (fuel <=? length pre)%nat eqn:Efuel.
    { left. split; [apply bind_fuel; exact Hloop |].
      apply Nat.leb_le in Efuel. rewrite length_app. lia. }
    right.
    rewrite (bind_done _ _ _ _ _ Hloop).
    destruct (attach_current_spec s u usz post Hpc Hpostok Hb Hbh Hpost Hlen)
      as (mA & HA & HchA & HsA).
    rewrite (bind_done _ _ _ _ _ HA).
    destruct (rev_case pre) as [-> | (pre0 & p & ->)].
    + (* the freed block becomes the head *)
      cbn [last_addr foldl]. unfold free_attach_previous. cbn [Z.eqb NULL].
      eexists. split; [reflexivity |]. fields. apply HsA; consts; lia.
    + (* the freed block goes behind [p] *)
      rewrite last_addr_snoc.
      apply Forall_app in Hpre as [Hpre0 Hp]. apply Forall_cons in Hp as [Hp _].
      apply Forall_app in Hpreok as [Hpre0ok Hpok]. apply Forall_cons in Hpok as [Hpok _].
      apply Forall_app in Hxpre as [_ Hxp]. apply Forall_cons in Hxp as [Hxp _].
      apply seg_app in Hseg as (mid & Hseg0 & Hsegp).
      destruct Hsegp as (-> & Hp0 & Hpsz & Hpnext).
      pose proof (merge_next_ok _ _ _ Hb Hpostok) as HLok.
      assert (HLg : gapped_lax u (merge_next (u, usz) post)).
      { apply merge_next_lax; cbn [fst snd]; [lia | lia |].
        destruct post as [| c post]; [exact I |].
        apply Forall_cons in Hpost as [Hc _].
        destruct Hgpost as (_ & Hc2 & Hgpost). repeat split; assumption. }
      pose proof (head_addr_merge_next (u, usz) post) as HLhead.
      destruct (merge_next (u, usz) post) as [| [u' usz'] tl] eqn:EL.
      { exfalso. eapply merge_next_nonempty. exact EL. }
      cbn [head_addr fst] in HLhead. subst u'.
      apply Forall_cons in HLok as [Hu'ok _].
      destruct HLg as (_ & Husz' & Htlg). cbn [fst snd] in Husz', Htlg.
      apply gapped_above in Htlg.
      assert (Hgp : gapped 0 (pre0 ++ [p])) by exact Hgpre.
      apply gapped_app in Hgpre as [Hgpre0 Hgp'].
      apply gapped_before in Hgpre0.
      destruct Hgp' as (Hp1 & Hp2 & _).
      assert (Hp' : p.1 + 8 + p.2 <= u) by exact Hp.
      assert (HpszA : rd mA (p.1 + 4) = p.2).
      { rewrite HsA by (unfold block_ok in Hpok; lia). exact Hpsz. }
      destruct (attach_previous_spec (with_mem mA s) p u usz' tl) as (mB & HB & HchB & HsB);
        fields; try assumption.
      { clear Hseg0 HchA. forall_lia. }
      rewrite HB. fields.
      eexists. split; [reflexivity |].
      consts. rewrite HsB by lia. apply HsA; lia.
Qed.

(** A successful growth leaves the words of the held blocks as they were. *)
Lemma getMoreMemory_frame fuel n s fl live l x :
  Inv s fl live → is_initialised s ≠ 0 →
  1 <= blocks_for n →
  bytes (host s) + blocks_for n * BLKSIZ <= capacity (host s) →
  l ∈ live → word_in x l →
  (getMoreMemory fuel n s = OutOfFuel ∧ (fuel <= length fl)%nat) ∨
  ∃ s', getMoreMemory fuel n s = Done (free_list s', s') ∧
        rd (mem s') x = rd (mem s) x.
Proof.
  intros HI Hi Hk Hcap Hl Hx.
  destruct (held_word_off s fl live l x HI Hl Hx) as (Hoff & Hxlen & Hx8).
  pose proof HI as [Hh Hc Hfok Hg Hlok Hlhdr Hlf Hll Hfr].
  pose proof Hh as (Hlen16 & Hlen8 & Hlencap & Hcap32).
  set (k := blocks_for n) in *. set (len := bytes (host s)) in *.
  unfold getMoreMemory. fold k.
  rewrite bind_call_memoryBytesLength, bind_call_grow.
  rewrite (grow_ok _ _ Hcap). cbn [fst snd]. fold len.
  consts.
  rewrite (wrap_small len) by lia.
  rewrite (wrap_small (len + k * 65536)) by lia.
  replace (len + k * 65536 =? 0) with false by (symmetry; apply Z.eqb_neq; lia).
  exec.
  rewrite (wrap_small (len + k * 65536 - len - 8)) by lia.
  rewrite (wrap_small (len + 8)) by lia.
  replace (len + k * 65536 - len - 8) with (k * 65536 - 8) by lia.
  match goal with |- context [bind (freeMemory fuel _) _ ?s2] => set (s2' := s2) end.
  assert (HI2 : Inv s2' fl ([] ++ (len, k * 65536 - 8) :: live)).
  { subst s2'. constructor; fields.
    - unfold host_ok. fields. repeat split; try lia. zlia.
    - eapply seg_same_but; [apply same_but_both | | exact Hc].
      clear Hc. fold len in Hfok. forall_lia.
    - fold len in Hfok. clear Hc. forall_lia.
    - exact Hg.
    - constructor.
      + unfold block_ok. cbn [fst snd]. zlia.
      + fold len in Hlok. forall_lia.
    - constructor.
      + unfold allocated. cbn [fst snd]. rdsimp. consts. split; reflexivity.
      + fold len in Hlok.
        rewrite Forall_forall in *. intros l' Hl'.
        specialize (Hlok l' Hl'). specialize (Hlhdr l' Hl'). unfold block_ok in Hlok.
        eapply allocated_same_but; [apply same_but_both | | | | exact Hlhdr]; lia.
    - constructor; [| exact Hlf].
      fold len in Hfok. clear Hc. forall_lia.
    - split; [| exact Hll]. fold len in Hlok. forall_lia.
    - intros E. contradiction. }
  change (len + 8) with ((len, k * 65536 - 8).1 + header_size).
  assert (Hxs2 : rd (mem s2') x = rd (mem s) x).
  { subst s2'. fields. rdsimp. reflexivity. }
  destruct (freeMemory_frame fuel s2' fl [] (len, k * 65536 - 8) live x HI2)
    as [[Hf Hfuel] | (s3 & Hf & Hx3)].
  - cbn [fst]. left. lia.
  - unfold word_off in Hoff. consts. clear Hc Hlok Hlhdr Hlf. forall_pt. lia.
  - left. split; [| exact Hfuel]. apply bind_fuel. exact Hf.
  - right. rewrite (bind_done _ _ _ _ _ Hf).
    exists s3. split; [reflexivity |]. rewrite Hx3. exact Hxs2.
Qed.

(** Whatever path [allocateMemory] takes, a word of a block the client
    holds is the same before and after the call. *)
Lemma allocateMemory_frame : ∀ fuel n s fl live p s' l x,
  Inv s fl live →
  0 <= n < 2 ^ 32 →
  allocateMemory fuel n s = Done (p, s') →
  l ∈ live → word_in x l →
  rd (mem s') x = rd (mem s) x.
Proof.
  induction fuel as [| f IH]; intros n s fl live p s' l x HI Hn Hrun Hl Hx;
    [discriminate |].
  cbn [allocateMemory] in Hrun.
  assert (Hi : is_initialised s ≠ 0).
  { apply (Inv_initialised _ _ _ HI). intros ->. inversion Hl. }
  rewrite (bind_done _ _ _ _ _ (ensureInitialised_done s Hi)) in Hrun.
  rewrite bind_get_free_list in Hrun.
  pose proof (padded_range n) as Hr. pose proof (padded_mod8 n) as Hr8.
  set (r := padded n) in *.
  pose proof (wrap_range (r + header_size)) as Hbph.
  set (bph := wrap (r + header_size)) in *.
  pose proof (inv_host _ _ _ HI) as (Hlen16 & Hlen8 & Hlencap & Hcap32).
  assert (Hstage :
    rd (mem s') x = rd (mem s) x ∨
    ∃ s2 fl2, Inv s2 fl2 live ∧ is_initialised s2 ≠ 0 ∧
      rd (mem s2) x = rd (mem s) x ∧
      bind (alloc_loop (S f) r bph (free_list s2) (free_list s2))
        (λ found, match found with
                  | Some p => ret p
                  | None =>
                      bind (getMoreMemory (S f) r)
                        (λ more, if more =? NULL then ret NULL
                                 else allocateMemory f bph)
                  end) s2 = Done (p, s')).
  { destruct (free_list s =? NULL) eqn:Ehead.
    - apply Z.eqb_eq in Ehead.
      pose proof (inv_chain _ _ _ HI) as Hc1. rewrite Ehead in Hc1.
      apply chain_null in Hc1. subst fl.
      rewrite bind_assoc in Hrun.
      destruct (blocks_for_spec bph ltac:(lia)) as [[_ Hk] | (_ & Hk & _)].
      { rewrite (bind_trap _ _ _ (getMoreMemory_no_pages (S f) bph s Hk
                   ltac:(lia) Hcap32)) in Hrun. discriminate. }
      destruct (Z_lt_le_dec (capacity (host s)) (bytes (host s) + blocks_for bph * BLKSIZ))
        as [Hno | Hyes].
      + rewrite (bind_done _ _ _ _ _ (getMoreMemory_refused (S f) bph s Hno)) in Hrun.
        rewrite bind_assoc, bind_set_free_list, bind_ret in Hrun.
        cbn in Hrun. inversion Hrun; subst p s'.
        left. reflexivity.
      + destruct (getMoreMemory_grown (S f) bph s [] live HI Hi ltac:(lia) Hyes)
          as [[Hbad _] | (s2 & Hg & Hfl2 & HI2 & Hh2 & Hi2)].
        { rewrite (bind_fuel _ _ _ Hbad) in Hrun. discriminate. }
        destruct (getMoreMemory_frame (S f) bph s [] live l x HI Hi ltac:(lia) Hyes Hl Hx)
          as [[Hbad _] | (s2' & Hg' & Hx2)].
        { rewrite Hbad in Hg. discriminate. }
        rewrite Hg in Hg'. inversion Hg'; subst s2'.
        rewrite (bind_done _ _ _ _ _ Hg) in Hrun.
        rewrite bind_assoc, bind_set_free_list, bind_ret in Hrun.
        replace (free_list s2 =? NULL) with false in Hrun
          by (symmetry; apply Z.eqb_neq; exact Hfl2).
        cbn [negb] in Hrun. rewrite with_free_list_id in Hrun.
        rewrite bind_get_free_list in Hrun.
        right. exists s2. eexists. split; [exact HI2 |].
        split; [rewrite Hi2; exact Hi |]. split; [exact Hx2 | exact Hrun].
    - rewrite bind_ret in Hrun. cbn [negb] in Hrun.
      rewrite bind_get_free_list in Hrun.
      right. exists s, fl. split; [exact HI |]. split; [exact Hi |].
      split; [reflexivity | exact Hrun]. }
  destruct Hstage as [Hdone | (s2 & fl2 & HI2 & Hi2 & Hx2 & Hscan)]; [exact Hdone |].
  rewrite <- Hx2.
  clear Hrun HI Hi Hx2 Hlen16 Hlen8 Hlencap Hcap32 s fl.
  pose proof (inv_host _ _ _ HI2) as (Hlen16 & Hlen8 & Hlencap & Hcap32).
  destruct (first_fit_cases r fl2) as [Hnone | (pre & b & post & -> & Hsmall & Hrb)].
  - (* nothing fits: grow and retry *)
    rewrite (bind_done _ _ _ (None : option Z) s2) in Hscan.
    2:{ rewrite (alloc_loop_no_fit (S f) r bph s2 fl2 (inv_chain _ _ _ HI2)
                  (inv_free_ok _ _ _ HI2) Hnone).
        destruct (S f <=? length fl2)%nat eqn:E; [| reflexivity].
        exfalso.
        rewrite (bind_fuel _ _ s2) in Hscan; [discriminate |].
        rewrite (alloc_loop_no_fit (S f) r bph s2 fl2 (inv_chain _ _ _ HI2)
                  (inv_free_ok _ _ _ HI2) Hnone). rewrite E. reflexivity. }
    destruct (blocks_for_spec r ltac:(lia)) as [[_ Hk] | (Hw & Hk & _)].
    { rewrite (bind_trap _ _ _ (getMoreMemory_no_pages (S f) r s2 Hk
                 ltac:(lia) Hcap32)) in Hscan. discriminate. }
    destruct (Z_lt_le_dec (capacity (host s2)) (bytes (host s2) + blocks_for r * BLKSIZ))
      as [Hno | Hyes].
    + rewrite (bind_done _ _ _ _ _ (getMoreMemory_refused (S f) r s2 Hno)) in Hscan.
      cbn in Hscan. inversion Hscan; subst p s'. reflexivity.
    + destruct (getMoreMemory_grown (S f) r s2 fl2 live HI2 Hi2 ltac:(lia) Hyes)
        as [[Hbad _] | (s3 & Hg & Hfl3 & HI3 & Hh3 & Hi3)].
      { rewrite (bind_fuel _ _ _ Hbad) in Hscan. discriminate. }
      destruct (getMoreMemory_frame (S f) r s2 fl2 live l x HI2 Hi2 ltac:(lia) Hyes Hl Hx)
        as [[Hbad _] | (s3' & Hg' & Hx3)].
      { rewrite Hbad in Hg. discriminate. }
      rewrite Hg in Hg'. inversion Hg'; subst s3'.
      rewrite (bind_done _ _ _ _ _ Hg) in Hscan.
      replace (free_list s3 =? NULL) with false in Hscan
        by (symmetry; apply Z.eqb_neq; exact Hfl3).
      rewrite <- Hx3.
      apply (IH bph s3 _ live p s' l x HI3 ltac:(lia) Hscan Hl Hx).
  - (* served from the list *)
    destruct (held_word_off s2 _ live l x HI2 Hl Hx) as (Hoff & _ & _).
    destruct (alloc_loop_fit_frame (S f) r s2 pre b post live x HI2 ltac:(lia) Hr8 Hrb
                Hsmall Hoff)
      as [[Hbad _] | (s3 & Hfit & Hx3)].
    { fold bph in Hbad. rewrite (bind_fuel _ _ _ Hbad) in Hscan. discriminate. }
    fold bph in Hfit. rewrite (bind_done _ _ _ _ _ Hfit) in Hscan.
    cbn in Hscan. inversion Hscan; subst p s'. exact Hx3.
Qed.

(** No call of the allocator changes a word (header or payload) of a block
    that the client holds before and after the call: not an allocation,
    whichever path it takes, not the release of another block, not a
    report, not a growth of the store. *)
Theorem held_words_survive_every_call s fl live s' live' l x :
  Inv s fl live →
  step (s, live) (s', live') →
  l ∈ live → l ∈ live' → word_in x l →
  rd (mem s') x = rd (mem s) x.
Proof.
  intros HI Hstep Hl Hl' Hx.
  assert (Hi : is_initialised s ≠ 0).
  { apply (Inv_initialised _ _ _ HI). intros ->. inversion Hl. }
  inversion Hstep; subst.
  - eapply allocateMemory_frame; eassumption.
  - match goal with H : freeMemory _ _ _ = _ |- _ => rename H into Hrun end.
    destruct (held_word_off s fl _ l x HI Hl Hx) as (Hoff & _ & _).
    pose proof (inv_free_ok _ _ _ HI) as Hfok.
    pose proof (inv_live_live _ _ _ HI) as Hll.
    apply pairwise_disjoint_remove in Hll as [_ Hlb].
    pose proof (inv_live_ok _ _ _ HI) as Hlok.
    assert (Hlok' : Forall (block_ok (bytes (host s))) (l1 ++ l2)).
    { apply Forall_app in Hlok as [H1 H2]. apply Forall_cons in H2 as [_ H2].
      apply Forall_app. split; assumption. }
    assert (Hxb : x + 4 <= b.1 ∨ b.1 + header_size <= x).
    { rewrite Forall_forall in Hlb, Hlok'.
      specialize (Hlb l Hl'). specialize (Hlok' l Hl').
      apply Forall_app in Hlok as [_ H2]. apply Forall_cons in H2 as [Hbok _].
      unfold word_in, disjoint, block_ok in *. consts. lia. }
    destruct (freeMemory_frame fuel s fl l1 b l2 x HI Hxb) as [[Hbad _] | (s2 & Hf & Hx2)].
    + unfold word_off in Hoff. consts. clear HI Hlok Hlok' Hlb. forall_pt. lia.
    + rewrite Hbad in Hrun. discriminate.
    + rewrite Hf in Hrun. inversion Hrun; subst. exact Hx2.
  - match goal with H : freeMemory _ _ _ = _ |- _ => rewrite freeMemory_null in H;
      rename H into Hrun end.
    rewrite (ensureInitialised_done s Hi) in Hrun. inversion Hrun; subst. reflexivity.
  - match goal with H : reportFreeMemory _ _ = _ |- _ => rename H into Hrun end.
    destruct (reportFreeMemory_core fuel s fl live' HI Hi) as [[Hbad _] | Hgood].
    + rewrite Hbad in Hrun. discriminate.
    + rewrite Hgood in Hrun. inversion Hrun; subst. reflexivity.
  - match goal with H : getMoreMemory _ _ _ = _ |- _ => rename H into Hrun end.
    pose proof (inv_host _ _ _ HI) as (Hlen16 & Hlen8 & Hlencap & Hcap32).
    destruct (blocks_for_spec n ltac:(lia)) as [[_ Hk] | (_ & Hk & _)].
    { rewrite (getMoreMemory_no_pages fuel n s Hk ltac:(lia) Hcap32) in Hrun.
      discriminate. }
    destruct (Z_lt_le_dec (capacity (host s)) (bytes (host s) + blocks_for n * BLKSIZ))
      as [Hno | Hyes].
    + rewrite (getMoreMemory_refused fuel n s Hno) in Hrun.
      inversion Hrun; subst. reflexivity.
    + destruct (getMoreMemory_frame fuel n s fl live' l x HI Hi ltac:(lia) Hyes Hl Hx)
        as [[Hbad _] | (s2 & Hg & Hx2)].
      * rewrite Hbad in Hrun. discriminate.
      * rewrite Hg in Hrun. inversion Hrun; subst. exact Hx2.
Qed.

Lemma held_words_survive_every_call_witness :
  ∃ s', step (small_block_only, [(24, 65504)])
             (s', [(65536, 112); (24, 65504)]) ∧
        rd (mem s') 28 = rd (mem small_block_only) 28.
Proof.
  assert (H1 : Inv small_block_only [(8, 8)] [(24, 65504)]).
  { constructor.
    - concrete.
    - concrete.
    - concrete.
    - concrete.
    - concrete.
    - concrete.
    - constructor; [| constructor]. constructor; [| constructor].
      right. vm_compute. discriminate.
    - concrete.
    - intros H. vm_compute in H. discriminate. }
  assert (H2 : step (small_block_only, [(24, 65504)])
                    (after (allocateMemory 3 100) small_block_only,
                     [(65536, 112); (24, 65504)])).
  { apply (step_allocate 3 100 small_block_only [(24, 65504)] 65544
             (after (allocateMemory 3 100) small_block_only));
      [lia | vm_compute; reflexivity]. }
  eexists. split; [exact H2 |].
  apply (held_words_survive_every_call small_block_only [(8, 8)] [(24, 65504)] _
           [(65536, 112); (24, 65504)] (24, 65504) 28 H1 H2).
  - constructor.
  - right. left.
  - split; vm_compute; discriminate.
Defined.

(** A word written inside the payload of a held block touches no header
    of a free or a held block. *)
Lemma store_in_held_inv s fl l1 b l2 x v :
  Inv s fl (l1 ++ b :: l2) →
  b.1 + header_size <= x → x + 4 <= b.1 + header_size + b.2 →
  Inv (with_mem (<[x := v]> (mem s)) s) fl (l1 ++ b :: l2).
Proof.
  intros HI Hlo Hhi. consts.
  pose proof (inv_live_ok _ _ _ HI) as Hlok.
  pose proof Hlok as Hlok'.
  apply Forall_app in Hlok' as [_ Hb]. apply Forall_cons in Hb as [Hb _].
  unfold block_ok in Hb.
  apply (Inv_agree s); try reflexivity; [exact HI |]. fields.
  pose proof (inv_free_ok _ _ _ HI) as Hfok.
  pose proof (inv_live_free _ _ _ HI) as Hlf.
  pose proof (inv_live_live _ _ _ HI) as Hll.
  apply Forall_app in Hlf as [_ Hbf]. apply Forall_cons in Hbf as [Hbf _].
  apply pairwise_disjoint_remove in Hll as [_ Hlb].
  apply Forall_app. split.
  - clear Hlok. forall_pt. split; rdsimp; reflexivity.
  - apply Forall_app in Hlok as [Hlok1 Hlok2]. apply Forall_cons in Hlok2 as [_ Hlok2].
    apply Forall_app in Hlb as [Hlb1 Hlb2].
    apply Forall_app. split; [| constructor].
    + clear Hfok Hbf Hlok2 Hlb2. forall_pt. split; rdsimp; reflexivity.
    + split; rdsimp; reflexivity.
    + clear Hfok Hbf Hlok1 Hlb1. forall_pt. split; rdsimp; reflexivity.
Qed.

(** The allocator never looks at what the client keeps in its blocks.  A
    word stored at a 4-byte boundary inside the payload of a held block
    changes none of its answers: [allocateMemory], served from the free
    list, returns the same pointer and leaves the same free list as without
    the store, and the stored word is still there afterwards;
    [freeMemory] of the block written to leaves the same free list;
    [reportFreeMemory] returns the same total. *)
Theorem client_write_does_not_steer_allocator fuel n s pre b post l1 h l2 x v :
  Inv s (pre ++ b :: post) (l1 ++ h :: l2) →
  h.1 + header_size <= x → x + 4 <= h.1 + header_size + h.2 → x mod 4 = 0 →
  0 <= n < 2 ^ 32 →
  padded n <= b.2 →
  Forall (λ c, c.2 < padded n) pre →
  (length (pre ++ b :: post) < fuel)%nat →
  ∃ sx,
    store x v s = Done (tt, sx) ∧
    (∃ s1 s2,
       allocateMemory fuel n s = Done (b.1 + header_size, s1) ∧
       allocateMemory fuel n sx = Done (b.1 + header_size, s2) ∧
       chain (mem s1) (free_list s1) (taken (padded n) pre b post) ∧
       chain (mem s2) (free_list s2) (taken (padded n) pre b post) ∧
       rd (mem s2) x = v) ∧
    (∃ s3 s4,
       freeMemory fuel (h.1 + header_size) s = Done (tt, s3) ∧
       freeMemory fuel (h.1 + header_size) sx = Done (tt, s4) ∧
       chain (mem s3) (free_list s3) (insert_block h (pre ++ b :: post)) ∧
       chain (mem s4) (free_list s4) (insert_block h (pre ++ b :: post))) ∧
    reportFreeMemory fuel s = Done (total_size (pre ++ b :: post), s) ∧
    reportFreeMemory fuel sx = Done (total_size (pre ++ b :: post), sx).
Proof.
  intros HI Hlo Hhi Hx4 Hn Hrb Hsmall Hfuel.
  pose proof (store_in_held_inv s _ l1 h l2 x v HI Hlo Hhi) as HIx.
  pose proof (Inv_initialised _ _ _ HI ltac:(destruct l1; discriminate)) as Hi.
  pose proof (inv_live_ok _ _ _ HI) as Hlok.
  apply Forall_app in Hlok as [_ Hh]. apply Forall_cons in Hh as [Hh _].
  unfold block_ok in Hh.
  assert (Hlenpre : (length pre < fuel)%nat).
  { rewrite length_app in Hfuel. lia. }
  exists (with_mem (<[x := v]> (mem s)) s).
  split; [apply store_ok; consts; lia |].
  split.
  { destruct (allocateMemory_fit fuel n s pre b post _ HI Hn Hrb Hsmall Hlenpre)
      as (s1 & Hrun1 & HI1 & _).
    destruct (allocateMemory_fit fuel n _ pre b post _ HIx Hn Hrb Hsmall Hlenpre)
      as (s2 & Hrun2 & HI2 & _).
    exists s1, s2. consts.
    split; [exact Hrun1 |]. split; [exact Hrun2 |].
    split; [exact (inv_chain _ _ _ HI1) |]. split; [exact (inv_chain _ _ _ HI2) |].
    rewrite (allocateMemory_frame fuel n _ _ _ _ s2 h x HIx Hn Hrun2).
    - fields. apply rd_insert_eq.
    - apply elem_of_app. right. left.
    - unfold word_in. consts. lia. }
  split.
  { destruct (freeMemory_held fuel s _ l1 h l2 HI Hfuel) as (s3 & Hrun3 & HI3 & _).
    destruct (freeMemory_held fuel _ _ l1 h l2 HIx Hfuel) as (s4 & Hrun4 & HI4 & _).
    exists s3, s4.
    split; [exact Hrun3 |]. split; [exact Hrun4 |].
    split; [exact (inv_chain _ _ _ HI3) | exact (inv_chain _ _ _ HI4)]. }
  split.
  - exact (reportFreeMemory_total fuel s _ _ HI Hi Hfuel).
  - exact (reportFreeMemory_total fuel _ _ _ HIx Hi Hfuel).
Qed.

Lemma client_write_does_not_steer_allocator_witness :
  Inv small_block_only ([] ++ (8, 8) :: []) ([] ++ (24, 65504) :: []) ∧
  ∃ sx, store 40 7 small_block_only = Done (tt, sx) ∧
        value (allocateMemory 3 8) sx = value (allocateMemory 3 8) small_block_only ∧
        value (reportFreeMemory 3) sx = Some 8.
Proof.
  assert (H1 : Inv small_block_only ([] ++ (8, 8) :: []) ([] ++ (24, 65504) :: [])).
  { constructor.
    - concrete.
    - concrete.
    - concrete.
    - concrete.
    - concrete.
    - concrete.
    - constructor; [| constructor]. constructor; [| constructor].
      right. vm_compute. discriminate.
    - concrete.
    - intros H. vm_compute in H. discriminate. }
  split; [exact H1 |].
  destruct (client_write_does_not_steer_allocator 3 8 small_block_only [] (8, 8) []
              [] (24, 65504) [] 40 7 H1)
    as (sx & Hst & (s1 & s2 & Ha1 & Ha2 & _) & _ & _ & Hrep).
  - vm_compute. discriminate.
  - vm_compute. discriminate.
  - reflexivity.
  - lia.
  - vm_compute. discriminate.
  - constructor.
  - cbn. lia.
  - exists sx. split; [exact Hst |]. unfold value.
    rewrite Ha1, Ha2, Hrep. split; reflexivity.
Defined.

(** [freeMemory] writes header words only: a word that is neither in the
    header of the released block nor in the header of a free block is left
    as it was.  In particular the payload of the released block and
    the payloads of the free blocks it is merged with keep their contents. *)
Theorem free_writes_only_headers fuel s fl l1 b l2 s' x :
  Inv s fl (l1 ++ b :: l2) →
  freeMemory fuel (b.1 + header_size) s = Done (tt, s') →
  x + 4 <= b.1 ∨ b.1 + header_size <= x →
  Forall (λ c, x + 4 <= c.1 ∨ c.1 + header_size <= x) fl →
  rd (mem s') x = rd (mem s) x.
Proof.
  intros HI Hrun Hxb Hxfl.
  destruct (freeMemory_frame fuel s fl l1 b l2 x HI Hxb Hxfl) as [[Hbad _] | (s2 & Hf & Hx2)].
  - rewrite Hbad in Hrun. discriminate.
  - rewrite Hf in Hrun. inversion Hrun; subst. exact Hx2.
Qed.

Lemma free_writes_only_headers_witness :
  Inv small_block_only [(8, 8)] ([] ++ (24, 65504) :: []) ∧
  rd (mem (after (freeMemory 3 32) small_block_only)) 32 = rd (mem small_block_only) 32.
Proof.
  assert (H1 : Inv small_block_only [(8, 8)] ([] ++ (24, 65504) :: [])).
  { constructor.
    - concrete.
    - concrete.
    - concrete.
    - concrete.
    - concrete.
    - concrete.
    - constructor; [| constructor]. constructor; [| constructor].
      right. vm_compute. discriminate.
    - concrete.
    - intros H. vm_compute in H. discriminate. }
  split; [exact H1 |].
  apply (free_writes_only_headers 3 small_block_only [(8, 8)] [] (24, 65504) []
           (after (freeMemory 3 32) small_block_only) 32 H1).
  - vm_compute. reflexivity.
  - right. vm_compute. discriminate.
  - constructor; [| constructor]. right. vm_compute. discriminate.
Defined.

(** ** The caller [addArrays] *)

(** The loop of [addArrays] from index [i] to [N]: the three arrays lie
    in the store at 4-byte boundaries, and each input either ends before
    the result or starts no lower than it, so that no element is read
    after the word it lies in has been written. *)
Lemma add_loop_spec N result array1 array2 : ∀ count i s,
  i + Z.of_nat count = N → 0 <= i →
  0 <= result → result + 4 * N <= bytes (host s) → result mod 4 = 0 →
  0 <= array1 → array1 + 4 * N <= bytes (host s) → array1 mod 4 = 0 →
  0 <= array2 → array2 + 4 * N <= bytes (host s) → array2 mod 4 = 0 →
  bytes (host s) < 2 ^ 32 →
  array1 + 4 * N <= result ∨ result <= array1 →
  array2 + 4 * N <= result ∨ result <= array2 →
  ∃ s', add_loop count i result array1 array2 s = Done (tt, s') ∧
        free_list s' = free_list s ∧ host s' = host s ∧
        is_initialised s' = is_initialised s ∧
        (∀ j, i <= j < N →
           rd (mem s') (result + 4 * j) =
           wrap (rd (mem s) (array1 + 4 * j) + rd (mem s) (array2 + 4 * j))) ∧
        (∀ x, x + 4 <= result + 4 * i ∨ result + 4 * N <= x →
           rd (mem s') x = rd (mem s) x).
Proof.
  induction count as [| count IH];
    intros i s HN Hi Hr0 Hr Hr4 Ha0 Ha Ha4 Hb0 Hb Hb4 Hlen Hd1 Hd2.
  - exists s. cbn [add_loop]. split; [reflexivity |].
    repeat split; try reflexivity. intros j Hj. lia.
  - cbn [add_loop].
    rewrite (wrap_small (array1 + 4 * i)) by lia.
    rewrite (wrap_small (array2 + 4 * i)) by lia.
    rewrite (wrap_small (result + 4 * i)) by lia.
    rewrite (bind_done _ _ _ _ _
               (load_ok (array1 + 4 * i) s ltac:(lia) ltac:(lia) ltac:(zlia))).
    rewrite (bind_done _ _ _ _ _
               (load_ok (array2 + 4 * i) s ltac:(lia) ltac:(lia) ltac:(zlia))).
    rewrite (bind_done _ _ _ _ _
               (store_ok (result + 4 * i) _ s ltac:(lia) ltac:(lia) ltac:(zlia))).
    match goal with |- context [add_loop count (i + 1) _ _ _ ?s1] => set (s1' := s1) end.
    destruct (IH (i + 1) s1' ltac:(lia) ltac:(lia) Hr0 Hr Hr4 Ha0 Ha Ha4 Hb0 Hb Hb4
                Hlen Hd1 Hd2)
      as (s' & Hrun & Hfl & Hh & Hin & Hsum & Hframe).
    exists s'. split; [exact Hrun |].
    subst s1'. fields.
    split; [exact Hfl |]. split; [exact Hh |]. split; [exact Hin |]. split.
    + intros j Hj. destruct (Z.eq_dec j i) as [-> | Hne].
      * rewrite Hframe by lia. rdsimp. reflexivity.
      * rewrite Hsum by lia. rdsimp. reflexivity.
    + intros x Hx. rewrite Hframe by lia. rdsimp. reflexivity.
Qed.

(** When the allocation succeeds, [addArrays] returns the new block with
    the element-wise sums, taken modulo [2 ^ 32], of two arrays of [int]s
    that lie, at 4-byte boundaries, in blocks the client holds; the inputs
    are left as they were and the allocator's invariant holds afterwards,
    with the result among the held blocks. *)
Theorem addArrays_sums fuel array1 array2 length s fl live a1 a2 p s1 :
  Inv s fl live →
  0 <= length → 4 * length <= 2 ^ 32 - 8 →
  a1 ∈ live → a1.1 + header_size <= array1 → array1 mod 4 = 0 →
  array1 + 4 * length <= a1.1 + header_size + a1.2 →
  a2 ∈ live → a2.1 + header_size <= array2 → array2 mod 4 = 0 →
  array2 + 4 * length <= a2.1 + header_size + a2.2 →
  allocateMemory fuel (4 * length) s = Done (p, s1) → p ≠ NULL →
  ∃ s', addArrays fuel array1 array2 length s = Done (p, s') ∧
        (∀ j, 0 <= j < length →
           rd (mem s') (p + 4 * j) =
           wrap (rd (mem s) (array1 + 4 * j) + rd (mem s) (array2 + 4 * j))) ∧
        (∀ j, 0 <= j < length →
           rd (mem s') (array1 + 4 * j) = rd (mem s) (array1 + 4 * j) ∧
           rd (mem s') (array2 + 4 * j) = rd (mem s) (array2 + 4 * j)) ∧
        ∃ fl' b, p = b.1 + header_size ∧ 4 * length <= b.2 ∧ Inv s' fl' (b :: live).
Proof.
  intros HI Hlen0 Hlen Ha1 Ha1lo Ha14 Ha1hi Ha2 Ha2lo Ha24 Ha2hi Hrun Hp.
  destruct (allocateMemory_grants fuel (4 * length) s fl live p s1 HI ltac:(lia) Hrun)
    as [[Hnull _] | (fl' & b & -> & Hsz & HI1)]; [contradiction |].
  pose proof (padded_ge (4 * length) ltac:(lia) ltac:(lia)) as Hpad.
  assert (Hin1 : ∀ j, 0 <= j < length →
            rd (mem s1) (array1 + 4 * j) = rd (mem s) (array1 + 4 * j)).
  { intros j Hj. apply (allocateMemory_frame fuel (4 * length) s fl live _ s1 a1 _ HI
                          ltac:(lia) Hrun Ha1).
    unfold word_in. consts. lia. }
  assert (Hin2 : ∀ j, 0 <= j < length →
            rd (mem s1) (array2 + 4 * j) = rd (mem s) (array2 + 4 * j)).
  { intros j Hj. apply (allocateMemory_frame fuel (4 * length) s fl live _ s1 a2 _ HI
                          ltac:(lia) Hrun Ha2).
    unfold word_in. consts. lia. }
  pose proof (inv_host _ _ _ HI1) as (Hlen16 & Hlen8 & Hlencap & Hcap32).
  pose proof (inv_live_ok _ _ _ HI1) as Hlok.
  pose proof (inv_live_live _ _ _ HI1) as [Hdis _].
  pose proof (inv_live_free _ _ _ HI1) as Hlf.
  pose proof Hlok as Hlok'. apply Forall_cons in Hlok' as [Hbok Hliveok].
  apply Forall_cons in Hlf as [Hbf _].
  pose proof Hdis as Hdis'. pose proof Hliveok as Hliveok'.
  rewrite Forall_forall in Hdis', Hliveok'.
  pose proof (Hdis' a1 Ha1) as Hd1. pose proof (Hliveok' a1 Ha1) as Hok1.
  pose proof (Hdis' a2 Ha2) as Hd2. pose proof (Hliveok' a2 Ha2) as Hok2.
  clear Hdis' Hliveok'.
  unfold block_ok, disjoint in Hbok, Hd1, Hok1, Hd2, Hok2. consts.
  destruct (add_loop_spec length (b.1 + 8) array1 array2 (Z.to_nat length) 0 s1)
    as (s' & Hloop & Hfl & Hh & Hi & Hsum & Hframe); try lia; try zlia.
  exists s'. split.
  { unfold addArrays. replace (length * 4) with (4 * length) by lia.
    rewrite (wrap_small (4 * length)) by lia.
    rewrite (bind_done _ _ _ _ _ Hrun).
    rewrite (bind_done _ _ _ _ _ Hloop). reflexivity. }
  split.
  { intros j Hj. rewrite Hsum by lia. rewrite Hin1, Hin2 by lia. reflexivity. }
  split.
  { intros j Hj. rewrite !Hframe by lia. split; [apply Hin1 | apply Hin2]; lia. }
  exists fl', b. split; [reflexivity |]. split; [lia |].
  apply (Inv_agree s1); [exact HI1 | exact Hh | exact Hfl | exact Hi |].
  pose proof (inv_free_ok _ _ _ HI1) as Hfok.
  apply Forall_app. split; [| constructor].
  - clear HI1 Hlok Hdis Hliveok. rewrite Forall_forall in *. intros c Hc.
    specialize (Hbf c Hc). specialize (Hfok c Hc).
    unfold block_ok, disjoint in Hbf, Hfok. split; apply Hframe; lia.
  - split; apply Hframe; lia.
  - clear HI1 Hlok Hbf Hfok. rewrite Forall_forall in *. intros c Hc.
    specialize (Hdis c Hc). specialize (Hliveok c Hc).
    unfold block_ok, disjoint in Hdis, Hliveok. split; apply Hframe; lia.
Qed.

Lemma addArrays_sums_witness :
  Inv two_arrays [(40, 65488)] [(24, 8); (8, 8)] ∧
  ∃ s', addArrays 2 16 32 2 two_arrays = Done (48, s') ∧
        rd (mem s') 48 = 11 ∧ rd (mem s') 52 = 22.
Proof.
  assert (H1 : Inv two_arrays [(40, 65488)] [(24, 8); (8, 8)]).
  { constructor.
    - concrete.
    - concrete.
    - concrete.
    - concrete.
    - concrete.
    - concrete.
    - constructor; [| constructor; [| constructor]];
        (constructor; [| constructor]); left; vm_compute; discriminate.
    - split; [| split; [constructor | exact I]].
      constructor; [| constructor]. right. vm_compute. discriminate.
    - intros H. vm_compute in H. discriminate. }
  split; [exact H1 |].
  destruct (addArrays_sums 2 16 32 2 two_arrays [(40, 65488)] [(24, 8); (8, 8)]
              (8, 8) (24, 8) 48 (after (allocateMemory 2 8) two_arrays) H1)
    as (s' & Hrun & Hsum & _).
  - lia.
  - lia.
  - right. left.
  - vm_compute. discriminate.
  - reflexivity.
  - vm_compute. discriminate.
  - left.
  - vm_compute. discriminate.
  - reflexivity.
  - vm_compute. discriminate.
  - vm_compute. reflexivity.
  - discriminate.
  - exists s'. split; [exact Hrun |].
    split; [exact (Hsum 0 ltac:(lia)) | exact (Hsum 1 ltac:(lia))].
Defined.

(** [addArrays] does not test what [allocateMemory] returns: when the
    allocation fails, the loop still runs and writes, for every index below
    [length], the sum of the two input elements at the addresses 0, 4,
    8, ...: over the reserved bytes below the first block, from the third
    element on over the header words that start at 8, and further up over
    whatever lies there, the inputs included; then null is returned.  Each
    element is read before the word it lies in is written, so the sums are
    those of the inputs as they were. *)
Theorem addArrays_writes_through_null fuel array1 array2 length s s1 :
  allocateMemory fuel (wrap (length * 4)) s = Done (NULL, s1) →
  0 <= length →
  0 <= array1 → array1 mod 4 = 0 → array1 + 4 * length <= bytes (host s1) →
  0 <= array2 → array2 mod 4 = 0 → array2 + 4 * length <= bytes (host s1) →
  bytes (host s1) < 2 ^ 32 →
  ∃ s', addArrays fuel array1 array2 length s = Done (NULL, s') ∧
        ∀ j, 0 <= j < length →
          rd (mem s') (4 * j) =
          wrap (rd (mem s1) (array1 + 4 * j) + rd (mem s1) (array2 + 4 * j)).
Proof.
  intros Hrun Hlen0 Ha1 Ha14 Ha1hi Ha2 Ha24 Ha2hi Hlen. consts.
  destruct (add_loop_spec length 0 array1 array2 (Z.to_nat length) 0 s1)
    as (s' & Hloop & _ & _ & _ & Hsum & _); try lia; try reflexivity.
  exists s'. split.
  - unfold addArrays. rewrite (bind_done _ _ _ _ _ Hrun).
    consts. rewrite (bind_done _ _ _ _ _ Hloop). reflexivity.
  - intros j Hj. exact (Hsum j ltac:(lia)).
Qed.

Lemma addArrays_writes_through_null_witness :
  ∃ s', addArrays 2 16 48 6 empty_block_only = Done (NULL, s') ∧
        rd (mem s') 8 =
        wrap (rd (mem empty_block_only) 24 + rd (mem empty_block_only) 56) ∧
        rd (mem s') 16 =
        wrap (rd (mem empty_block_only) 32 + rd (mem empty_block_only) 64).
Proof.
  destruct (addArrays_writes_through_null 2 16 48 6 empty_block_only
              (after (allocateMemory 2 24) empty_block_only))
    as (s' & Hrun & Hsum).
  - vm_compute. reflexivity.
  - lia.
  - lia.
  - reflexivity.
  - vm_compute. discriminate.
  - lia.
  - reflexivity.
  - vm_compute. discriminate.
  - vm_compute. reflexivity.
  - exists s'. split; [exact Hrun |].
    pose proof (Hsum 2 ltac:(lia)) as H2. pose proof (Hsum 4 ltac:(lia)) as H4.
    split; [exact H2 | exact H4].
Defined.

(** ** Termination of [allocateMemory] *)

(** With a free block at the very end of the store, a failed scan is
    followed by at most one growth: the grown tail block holds the retried
    request. *)
Lemma allocateMemory_tail fuel n s fl0 t live :
  Inv s (fl0 ++ [t]) live →
  t.1 + 8 + t.2 = bytes (host s) →
  0 <= n <= 2 ^ 32 - 65536 →
  (length fl0 + 2 < fuel)%nat →
  ∃ p s', allocateMemory fuel n s = Done (p, s').
Proof.
  intros HI Hend Hn Hfuel.
  pose proof (padded_ge n ltac:(lia) ltac:(lia)) as Hpad.
  pose proof (padded_mod8 n) as Hr8.
  assert (Hrmax : padded n <= 2 ^ 32 - 65536) by zlia.
  destruct (first_fit_cases (padded n) (fl0 ++ [t]))
    as [Hnone | (pre & b & post & E & Hsmall & Hrb)].
  2:{ assert (Hlen : (length pre <= length fl0)%nat).
      { apply (f_equal length) in E. rewrite !length_app in E. cbn in E. lia. }
      rewrite E in HI.
      destruct (allocateMemory_fit fuel n s pre b post live HI ltac:(lia) Hrb Hsmall
                  ltac:(lia)) as (s' & Hrun & _).
      eexists _, _. exact Hrun. }
  pose proof (Inv_nonempty_initialised _ _ _ HI ltac:(destruct fl0; discriminate)) as Hi.
  pose proof (inv_chain _ _ _ HI) as Hc.
  destruct (seg_head _ _ _ _ Hc ltac:(destruct fl0; discriminate)) as [_ Hhead0].
  pose proof (inv_host _ _ _ HI) as (Hlen16 & Hlen8 & Hlencap & Hcap32).
  destruct fuel as [| f]; [lia |].
  cbn [allocateMemory].
  rewrite (bind_done _ _ _ _ _ (ensureInitialised_done s Hi)).
  rewrite bind_get_free_list.
  replace (free_list s =? NULL) with false by (symmetry; apply Z.eqb_neq; exact Hhead0).
  rewrite bind_ret. cbn [negb]. rewrite bind_get_free_list.
  set (r := padded n) in *.
  assert (Ebph : wrap (r + header_size) = r + 8) by (consts; apply wrap_small; lia).
  rewrite Ebph.
  rewrite (bind_done _ _ _ (None : option Z) s).
  2:{ rewrite (alloc_loop_no_fit (S f) r _ s _ Hc (inv_free_ok _ _ _ HI) Hnone).
      replace (S f <=? length (fl0 ++ [t]))%nat with false; [reflexivity |].
      symmetry. apply Nat.leb_gt. rewrite length_app. cbn. lia. }
  pose proof (blocks_for_covers r ltac:(lia)) as Hk. consts.
  destruct (Z_lt_le_dec (capacity (host s)) (bytes (host s) + blocks_for r * BLKSIZ))
    as [Hno | Hyes].
  { rewrite (bind_done _ _ _ _ _ (getMoreMemory_refused (S f) r s Hno)).
    cbn. eexists _, _. reflexivity. }
  destruct (getMoreMemory_grown (S f) r s _ live HI Hi ltac:(lia) Hyes)
    as [[_ Hbad] | (s3 & Hg & Hfl3 & HI3 & Hh3 & Hi3)].
  { rewrite length_app in Hbad. cbn in Hbad. lia. }
  rewrite (bind_done _ _ _ _ _ Hg).
  consts. apply Z.eqb_neq in Hfl3. rewrite Hfl3.
  rewrite <- Hend in HI3.
  rewrite (insert_block_extends_tail 0 _ _ _ (inv_gapped _ _ _ HI)) in HI3.
  pose proof (inv_free_ok _ _ _ HI) as Hfok.
  apply Forall_app in Hfok as [_ Htok]. apply Forall_cons in Htok as [Htok _].
  unfold block_ok in Htok. consts.
  assert (Epad : padded (r + 8) = r + 8) by (apply padded_fixed; [lia | zlia]).
  destruct (first_fit_cases (padded (r + 8)) (fl0 ++ [(t.1, t.2 + (blocks_for r * 65536 - 8 + 8))]))
    as [Hnone' | (pre & b & post & E & Hsmall & Hrb)].
  { exfalso. apply Forall_app in Hnone' as [_ Hlast].
    apply Forall_cons in Hlast as [Hlast _]. cbn [snd] in Hlast. lia. }
  assert (Hlen : (length pre <= length fl0)%nat).
  { apply (f_equal length) in E. rewrite !length_app in E. cbn in E. lia. }
  rewrite E in HI3.
  destruct (allocateMemory_fit f (r + 8) s3 pre b post live HI3 ltac:(lia) Hrb Hsmall
              ltac:(lia)) as (s' & Hrun & _).
  eexists _, _. exact Hrun.
Qed.

(** [allocateMemory] returns for every request of at most
    [2 ^ 32 - 2 * 65536] bytes: it never reads or writes outside the store
    and the retry after a growth does not go on for ever.  With [k] blocks
    in the free list, fuel [k + 5] is enough for every scan and every
    retry. *)
Theorem allocateMemory_total fuel n s fl live :
  Inv s fl live →
  0 <= n <= 2 ^ 32 - 2 * 65536 →
  (length fl + 4 < fuel)%nat →
  ∃ p s', allocateMemory fuel n s = Done (p, s').
Proof.
  intros HI Hn Hfuel.
  pose proof (padded_ge n ltac:(lia) ltac:(lia)) as Hpad.
  pose proof (padded_mod8 n) as Hr8.
  assert (Hrmax : padded n <= 2 ^ 32 - 2 * 65536) by zlia.
  destruct fuel as [| f]; [lia |].
  cbn [allocateMemory].
  destruct (ensureInitialised_inv s fl live HI)
    as (s1 & fl1 & Hinit & HI1 & Hi1 & Hh1 & Hwas & Hfirst).
  assert (Hlen1 : (length fl1 <= length fl + 1)%nat).
  { destruct (Z.eq_dec (is_initialised s) 0) as [E | E].
    - destruct (Hfirst E) as [-> _]. cbn. lia.
    - destruct (Hwas E) as [_ ->]. lia. }
  clear Hwas Hfirst.
  rewrite (bind_done _ _ _ _ _ Hinit).
  rewrite bind_get_free_list.
  set (r := padded n) in *.
  assert (Ebph : wrap (r + header_size) = r + 8) by (consts; apply wrap_small; lia).
  rewrite Ebph.
  pose proof (inv_host _ _ _ HI1) as (Hlen16 & Hlen8 & Hlencap & Hcap32).
  pose proof (inv_chain _ _ _ HI1) as Hc1.
  destruct (free_list s1 =? NULL) eqn:Ehead.
  - (* an empty list is refilled first *)
    apply Z.eqb_eq in Ehead.
    pose proof Hc1 as Hc1'. rewrite Ehead in Hc1'. apply chain_null in Hc1'. subst fl1.
    rewrite bind_assoc.
    pose proof (blocks_for_covers (r + 8) ltac:(lia)) as Hk. consts.
    destruct (Z_lt_le_dec (capacity (host s1))
                (bytes (host s1) + blocks_for (r + 8) * BLKSIZ)) as [Hno | Hyes].
    { rewrite (bind_done _ _ _ _ _ (getMoreMemory_refused (S f) (r + 8) s1 Hno)).
      rewrite bind_assoc, bind_set_free_list, bind_ret.
      cbn. eexists _, _. reflexivity. }
    destruct (getMoreMemory_grown (S f) (r + 8) s1 [] live HI1 Hi1 ltac:(lia) Hyes)
      as [[_ Hbad] | (s2 & Hg & Hfl2 & HI2 & Hh2 & Hi2)]; [cbn in Hbad; lia |].
    rewrite (bind_done _ _ _ _ _ Hg).
    rewrite bind_assoc, bind_set_free_list, bind_ret.
    consts. apply Z.eqb_neq in Hfl2. rewrite Hfl2.
    cbn [negb]. rewrite with_free_list_id. rewrite bind_get_free_list.
    cbn [insert_block] in HI2.
    destruct (alloc_loop_fit (S f) r s2 [] _ [] live HI2 ltac:(lia) Hr8
                ltac:(cbn [snd]; consts; lia) ltac:(constructor))
      as [[_ Hbad] | (s3 & Hfit & _)]; [cbn in Hbad; lia |].
    consts. rewrite Ebph in Hfit.
    rewrite (bind_done _ _ _ _ _ Hfit). cbn. eexists _, _. reflexivity.
  - apply Z.eqb_neq in Ehead.
    rewrite bind_ret. cbn [negb]. rewrite bind_get_free_list.
    destruct (first_fit_cases r fl1) as [Hnone | (pre & b & post & -> & Hsmall & Hrb)].
    2:{ destruct (alloc_loop_fit (S f) r s1 pre b post live HI1 ltac:(lia) Hr8 Hrb Hsmall)
          as [[_ Hbad] | (s3 & Hfit & _)].
        { rewrite length_app in Hlen1. cbn in Hlen1. lia. }
        consts. rewrite Ebph in Hfit.
        rewrite (bind_done _ _ _ _ _ Hfit). cbn. eexists _, _. reflexivity. }
    rewrite (bind_done _ _ _ (None : option Z) s1).
    2:{ rewrite (alloc_loop_no_fit (S f) r _ s1 _ Hc1 (inv_free_ok _ _ _ HI1) Hnone).
        replace (S f <=? length fl1)%nat with false; [reflexivity |].
        symmetry. apply Nat.leb_gt. lia. }
    pose proof (blocks_for_covers r ltac:(lia)) as Hk. consts.
    destruct (Z_lt_le_dec (capacity (host s1)) (bytes (host s1) + blocks_for r * BLKSIZ))
      as [Hno | Hyes].
    { rewrite (bind_done _ _ _ _ _ (getMoreMemory_refused (S f) r s1 Hno)).
      cbn. eexists _, _. reflexivity. }
    destruct (getMoreMemory_grown (S f) r s1 _ live HI1 Hi1 ltac:(lia) Hyes)
      as [[_ Hbad] | (s3 & Hg & Hfl3 & HI3 & Hh3 & Hi3)]; [lia |].
    rewrite (bind_done _ _ _ _ _ Hg).
    consts. apply Z.eqb_neq in Hfl3. rewrite Hfl3.
    assert (Hbytes3 : bytes (host s3) = bytes (host s1) + blocks_for r * 65536).
    { rewrite Hh3, (grow_ok _ _ Hyes). reflexivity. }
    destruct (rev_case fl1) as [-> | (pre & p & ->)].
    { exfalso. apply Ehead. exact Hc1. }
    pose proof (inv_free_ok _ _ _ HI1) as Hfok.
    pose proof Hfok as Hfok'.
    apply Forall_app in Hfok' as [_ Hpok]. apply Forall_cons in Hpok as [Hpok _].
    unfold block_ok in Hpok.
    rewrite length_app in Hlen1. cbn in Hlen1.
    destruct (Z.eq_dec (p.1 + 8 + p.2) (bytes (host s1))) as [Hend | Hend].
    + rewrite <- Hend in HI3.
      rewrite (insert_block_extends_tail 0 _ _ _ (inv_gapped _ _ _ HI1)) in HI3.
      apply (allocateMemory_tail f (r + 8) s3 pre _ live HI3);
        [cbn [fst snd]; lia | lia | lia].
    + rewrite (insert_block_appends 0 _ _ _ (inv_gapped _ _ _ HI1)) in HI3.
      2:{ pose proof (gapped_before _ _ (inv_gapped _ _ _ HI1)) as Hbefore.
          rewrite last_end_snoc in Hbefore.
          eapply Forall_impl; [exact Hbefore |]. intros c Hcend. cbn beta in Hcend. lia. }
      apply (allocateMemory_tail f (r + 8) s3 (pre ++ [p]) _ live HI3);
        [cbn [fst snd]; lia | lia | rewrite length_app; cbn; lia].
Qed.

Lemma allocateMemory_total_witness :
  Inv small_block_only [(8, 8)] [(24, 65504)] ∧
  ∃ p s', allocateMemory 6 100 small_block_only = Done (p, s').
Proof.
  assert (H1 : Inv small_block_only [(8, 8)] [(24, 65504)]).
  { constructor.
    - concrete.
    - concrete.
    - concrete.
    - concrete.
    - concrete.
    - concrete.
    - constructor; [| constructor]. constructor; [| constructor].
      right. vm_compute. discriminate.
    - concrete.
    - intros H. vm_compute in H. discriminate. }
  split; [exact H1 |].
  apply (allocateMemory_total 6 100 small_block_only [(8, 8)] [(24, 65504)] H1).
  - lia.
  - cbn. lia.
Defined.
